(** * find-key-3rd.js: the resumable two-submission verification pipeline

    A shallow embedding of [src/find-key-3rd.js].  The script reads a
    checksum report, drops the checksums already present in the two
    checkpoint logs ([processed.txt], [failed.txt]), submits every
    remaining checksum twice to a remote service and stops at the first
    checksum for which both answers carry the same non-empty key.

    Modelling choices, all read off the source:
    - text is a [string] whose characters stand for the code units below
      256 (paths and hexadecimal digests); a file is its decoded text,
      [option string], with [None] for a file that does not exist;
    - a JavaScript [Set] of strings is a [gset string], the [checksums]
      array is a [list string];
    - the remote service is an explicit state machine [submit] threaded
      through the run (the service may answer differently on every call);
    - every effect of the main loop is recorded, in program order, in a
      trace of events; the contents of the files after the run are derived
      from the initial contents and the trace;
    - the four paths [reportPath], [failed.txt], [processed.txt] and
      [ans.txt] are four different files of one directory; [main] is the
      program in an existing directory where both append streams open, and
      [script] adds the run in a directory that does not exist, where
      neither stream opens. *)

From Stdlib Require Import Ascii String ZArith Lia.
From stdpp Require Import base decidable option list sets gmap strings.

Local Open Scope string_scope.
Local Open Scope list_scope.
Local Open Scope nat_scope.

(** ** Text helpers: [String.prototype.split], [trim], readline *)

Module Text.

Definition is_comma (c : ascii) : bool := Ascii.eqb c ",".

(** [s.split(",")]: always at least one field. *)
Fixpoint split_comma (s : string) : list string :=
  match s with
  | EmptyString => [EmptyString]
  | String c rest =>
      if is_comma c then EmptyString :: split_comma rest
      else match split_comma rest with
           | field :: fields => String c field :: fields
           | [] => [String c EmptyString]
           end
  end.

(** White space removed by [trim], within the 8-bit range: TAB, LF, VT,
    FF, CR, SPACE and NBSP. *)
Definition is_space (c : ascii) : bool :=
  let n := nat_of_ascii c in
  ((9 <=? n)%nat && (n <=? 13)%nat) || (n =? 32)%nat || (n =? 160)%nat.

Fixpoint trim_start (s : string) : string :=
  match s with
  | EmptyString => EmptyString
  | String c rest => if is_space c then trim_start rest else s
  end.

Fixpoint trim_end (s : string) : string :=
  match s with
  | EmptyString => EmptyString
  | String c rest =>
      match trim_end rest with
      | EmptyString => if is_space c then EmptyString else String c EmptyString
      | kept => String c kept
      end
  end.

(** [s.trim()] *)
Definition trim (s : string) : string := trim_end (trim_start s).

(** JavaScript truthiness of a string: non-empty. *)
Definition truthy (s : string) : bool :=
  match s with EmptyString => false | String _ _ => true end.

Definition is_lf (c : ascii) : bool := Ascii.eqb c "010".
Definition is_cr (c : ascii) : bool := Ascii.eqb c "013".

Definition starts_with_lf (s : string) : bool :=
  match s with String c _ => is_lf c | EmptyString => false end.

(** The segments between line terminators (LF, CR LF, lone CR). *)
Fixpoint segments (s : string) : list string :=
  match s with
  | EmptyString => [EmptyString]
  | String c rest =>
      if is_lf c then EmptyString :: segments rest
      else if is_cr c then
        (if starts_with_lf rest then segments rest
         else EmptyString :: segments rest)
      else match segments rest with
           | seg :: segs => String c seg :: segs
           | [] => [String c EmptyString]
           end
  end.

Fixpoint drop_empty_last (l : list string) : list string :=
  match l with
  | [] => []
  | [s] => if truthy s then [s] else []
  | s :: l' => s :: drop_empty_last l'
  end.

(** The ['line'] events of [readline.createInterface] with
    [crlfDelay: Infinity] over a file: one per terminated line, and one
    for a non-empty unterminated last line. *)
Definition read_lines (content : string) : list string :=
  drop_empty_last (segments content).

End Text.

(** ** Checkpoint store (loading) and checksum source *)

Module Source.
Import Text.

(** The ['line'] handler of [readExistingChecksums]:
    [checksums.add(line.trim())]. *)
Definition add_line (checksums : gset string) (line : string) : gset string :=
  checksums ∪ {[ trim line ]}.

Definition load_lines (lines : list string) : gset string :=
  foldl add_line ∅ lines.

(** [readExistingChecksums(filePath)]: a missing file resolves to the
    empty set. *)
Definition readExistingChecksums (file : option string) : gset string :=
  match file with
  | None => ∅
  | Some content => load_lines (read_lines content)
  end.

(** The ['line'] handler of [parseChecksumFile]. *)
Definition on_line (existingChecksums : gset string)
    (checksums : list string) (line : string) : list string :=
  let parts := split_comma line in
  if (List.length parts =? 2)%nat && truthy (nth 1 parts "") then
    let checksum := trim (nth 1 parts "") in
    if decide (checksum ∈ existingChecksums) then checksums
    else checksums ++ [checksum]
  else checksums.

Definition parse_lines (existingChecksums : gset string)
    (lines : list string) : list string :=
  foldl (on_line existingChecksums) [] lines.

(** The rejection value of [parseChecksumFile]. *)
Definition file_not_found (filePath : string) : string :=
  "File not found: " +:+ filePath.

(** [parseChecksumFile(filePath, existingChecksums)]: rejects when the
    file does not exist, otherwise resolves with the array of new
    checksums in file order. *)
Definition parseChecksumFile (filePath : string) (file : option string)
    (existingChecksums : gset string) : string + list string :=
  match file with
  | None => inl (file_not_found filePath)
  | Some content => inr (parse_lines existingChecksums (read_lines content))
  end.

(** What one report line adds to the array. *)
Definition line_candidates (existingChecksums : gset string)
    (line : string) : list string :=
  on_line existingChecksums [] line.

End Source.

(** ** Verification engine: the main loop of [main] *)

Module Engine.

(** The parsed JSON body of a successful answer, as far as the loop looks
    at it: the service's body carries an optional string field [key]; a
    body without it has [key = None] (JavaScript [undefined]). *)
Record Response := { key : option string }.

(** Truthiness of [response.key]. *)
Definition key_truthy (r : Response) : bool :=
  match key r with
  | Some k => Text.truthy k
  | None => false
  end.

(** [response1.key && response2.key && response1.key === response2.key] *)
Definition is_match (response1 response2 : Response) : bool :=
  key_truthy response1 && key_truthy response2
    && bool_decide (key response1 = key response2).

(** [`${response1.key}`] *)
Definition key_text (r : Response) : string := default "undefined" (key r).

(** The fixed texts that [main] prints with [console.log]; the lines that
    only echo the three paths and the timer are left out. *)
Inductive Message :=
| MsgNoNewChecksums
    (* "No new checksums found in the specified file. All checksums have been checked." *)
| MsgFound (total : nat)
    (* "Found ${totalChecksums} checksums to process." and "Starting search..." *)
| MsgMatchFound (checksum : string) (k : string)
    (* the "Match Found!" banner with the checksum and the key *)
| MsgNoMatch.
    (* "Search complete. No matching key was found." *)

(** Observable effects, in program order.  The first component of the
    per-candidate events is the position of the candidate in the
    [checksums] array (the index of the [for ... of] iteration); it is
    not data of the program, it tells two occurrences of one checksum
    apart. *)
Inductive Event :=
| EvSubmit (i : nat) (checksum : string) (answer : option Response)
    (* one completed [await submitChecksum(checksum)] and its value *)
| EvFailed (i : nat) (checksum : string)
    (* [failedStream.write(`${checksum}\n`)] *)
| EvProcessed (i : nat) (checksum : string)
    (* [processedStream.write(`${checksum}\n`)] *)
| EvAnswer (i : nat) (checksum : string) (k : string)
    (* [fs.writeFileSync(ansFilePath, `checksum: ${checksum}\nkey: ${k}\n`)] *)
| EvProgress (processed total : nat)
    (* [updateProgress(processedCount, totalChecksums)] *)
| EvLog (msg : Message)
    (* [console.log] of one of the messages above *)
| EvError (msg : string).
    (* [console.error("\nAn error occurred in the main process:", err)] *)

#[export] Instance Response_eq_dec : EqDecision Response.
Proof. solve_decision. Defined.

#[export] Instance Message_eq_dec : EqDecision Message.
Proof. solve_decision. Defined.

#[export] Instance Event_eq_dec : EqDecision Event.
Proof. solve_decision. Defined.

Section WithOracle.

(** The remote service seen through [submitChecksum]: one call takes
    the service from one state to the next and resolves with the parsed
    body, or with [null] on a network error, a non-OK status or an
    unparsable body.  [None] stands for [null] and for any other value
    that the tests [!response1] and [!response2] take for it.
    [submitChecksum] never throws. *)
Context {OState : Type}.
Variable submit : OState → string → OState * option Response.

(** The mutable variables of [main] that the loop reads and writes. *)
Record State := mkState {
  oracle : OState;
  processedCount : nat;
  matchFound : bool
}.

(** [failedStream.write; processedCount++; updateProgress(...)] *)
Definition record_failed (total i : nat) (checksum : string) (o : OState)
    (s : State) : list Event * State :=
  ([EvFailed i checksum; EvProgress (S (processedCount s)) total],
   mkState o (S (processedCount s)) (matchFound s)).

(** [processedStream.write; processedCount++; updateProgress(...)] *)
Definition record_processed (total i : nat) (checksum : string) (o : OState)
    (s : State) : list Event * State :=
  ([EvProcessed i checksum; EvProgress (S (processedCount s)) total],
   mkState o (S (processedCount s)) (matchFound s)).

(** [matchFound = true; fs.writeFileSync(ansFilePath, ...)] and the
    banner; neither [processedCount++] nor [updateProgress]. *)
Definition record_match (i : nat) (checksum : string) (response1 : Response)
    (o : OState) (s : State) : list Event * State :=
  ([EvAnswer i checksum (key_text response1);
    EvLog (MsgMatchFound checksum (key_text response1))],
   mkState o (processedCount s) true).

(** Effects [evs] happen before what [r] stands for. *)
Definition emit (evs : list Event) (r : list Event * State)
    : list Event * State :=
  (evs ++ r.1, r.2).

(** The [for (const checksum of checksums)] loop, from the iteration
    at position [i] on. *)
Fixpoint loop (total i : nat) (checksums : list string) (s : State)
    : list Event * State :=
  match checksums with
  | [] => ([], s)
  | checksum :: rest =>
      if matchFound s then ([], s)
      else
        let '(o1, response1) := submit (oracle s) checksum in
        emit [EvSubmit i checksum response1]
          match response1 with
          | None =>
              let '(evs, s') := record_failed total i checksum o1 s in
              emit evs (loop total (S i) rest s')
          | Some r1 =>
              let '(o2, response2) := submit o1 checksum in
              emit [EvSubmit i checksum response2]
                match response2 with
                | None =>
                    let '(evs, s') := record_failed total i checksum o2 s in
                    emit evs (loop total (S i) rest s')
                | Some r2 =>
                    if is_match r1 r2 then
                      record_match i checksum r1 o2 s
                    else
                      let '(evs, s') := record_processed total i checksum o2 s in
                      emit evs (loop total (S i) rest s')
                end
          end
  end.

(** *** One iteration, by outcome

    The four ways through the body of the loop for the candidate at
    position [i], entered with [matchFound] false: the events of the
    iteration and the variables after it. *)
Inductive attempt (total i : nat) (checksum : string) (s : State)
    : list Event → State → Prop :=
| attempt_failed_first o1 :
    submit (oracle s) checksum = (o1, None) →
    attempt total i checksum s
      [EvSubmit i checksum None;
       EvFailed i checksum; EvProgress (S (processedCount s)) total]
      (mkState o1 (S (processedCount s)) (matchFound s))
| attempt_failed_second o1 r1 o2 :
    submit (oracle s) checksum = (o1, Some r1) →
    submit o1 checksum = (o2, None) →
    attempt total i checksum s
      [EvSubmit i checksum (Some r1); EvSubmit i checksum None;
       EvFailed i checksum; EvProgress (S (processedCount s)) total]
      (mkState o2 (S (processedCount s)) (matchFound s))
| attempt_mismatch o1 r1 o2 r2 :
    submit (oracle s) checksum = (o1, Some r1) →
    submit o1 checksum = (o2, Some r2) →
    is_match r1 r2 = false →
    attempt total i checksum s
      [EvSubmit i checksum (Some r1); EvSubmit i checksum (Some r2);
       EvProcessed i checksum; EvProgress (S (processedCount s)) total]
      (mkState o2 (S (processedCount s)) (matchFound s))
| attempt_match o1 r1 o2 r2 :
    submit (oracle s) checksum = (o1, Some r1) →
    submit o1 checksum = (o2, Some r2) →
    is_match r1 r2 = true →
    attempt total i checksum s
      [EvSubmit i checksum (Some r1); EvSubmit i checksum (Some r2);
       EvAnswer i checksum (key_text r1);
       EvLog (MsgMatchFound checksum (key_text r1))]
      (mkState o2 (processedCount s) true).

(** The loop as a chain of iterations: it stops at the end of the
    array or right after the iteration that found the match. *)
Inductive iterations (total : nat)
    : nat → list string → State → list Event → State → Prop :=
| iterations_end i s :
    iterations total i [] s [] s
| iterations_next i checksum rest s evs1 s1 evs2 s2 :
    attempt total i checksum s evs1 s1 →
    matchFound s1 = false →
    iterations total (S i) rest s1 evs2 s2 →
    iterations total i (checksum :: rest) s (evs1 ++ evs2) s2
| iterations_halt i checksum rest s evs1 s1 :
    attempt total i checksum s evs1 s1 →
    matchFound s1 = true →
    iterations total i (checksum :: rest) s evs1 s1.

(** *** The same loop, one [await] at a time

    [main] only yields control while a [submitChecksum] call is
    pending, so a run that is cut short stops in one of the two
    waiting states below, with the effects of the code before that
    [await] done and nothing of the code after it. *)
Inductive Pc :=
| AwaitFirst (i : nat) (checksum : string) (rest : list string)
    (* [const response1 = await submitChecksum(checksum)] is pending *)
| AwaitSecond (i : nat) (checksum : string) (response1 : Response)
    (rest : list string)
    (* [const response2 = await submitChecksum(checksum)] is pending *)
| LoopDone.
    (* the loop has been left *)

Record Machine := mkMachine {
  pc : Pc;
  vars : State;
  done_events : list Event
}.

(** The top of an iteration: leave the loop on an exhausted array or
    on [matchFound], start the first submission otherwise. *)
Definition enter (i : nat) (checksums : list string) (s : State) : Pc :=
  match checksums with
  | [] => LoopDone
  | checksum :: rest =>
      if matchFound s then LoopDone else AwaitFirst i checksum rest
  end.

Definition start (checksums : list string) (s : State) : Machine :=
  mkMachine (enter 0 checksums s) s [].

(** The pending call returns and the code runs up to the next [await]
    or out of the loop. *)
Definition step (total : nat) (m : Machine) : Machine :=
  let s := vars m in
  match pc m with
  | LoopDone => m
  | AwaitFirst i checksum rest =>
      let '(o1, response1) := submit (oracle s) checksum in
      let tr := done_events m ++ [EvSubmit i checksum response1] in
      match response1 with
      | None =>
          let '(evs, s') := record_failed total i checksum o1 s in
          mkMachine (enter (S i) rest s') s' (tr ++ evs)
      | Some r1 =>
          mkMachine (AwaitSecond i checksum r1 rest)
            (mkState o1 (processedCount s) (matchFound s)) tr
      end
  | AwaitSecond i checksum r1 rest =>
      let '(o2, response2) := submit (oracle s) checksum in
      let tr := done_events m ++ [EvSubmit i checksum response2] in
      match response2 with
      | None =>
          let '(evs, s') := record_failed total i checksum o2 s in
          mkMachine (enter (S i) rest s') s' (tr ++ evs)
      | Some r2 =>
          if is_match r1 r2 then
            let '(evs, s') := record_match i checksum r1 o2 s in
            mkMachine LoopDone s' (tr ++ evs)
          else
            let '(evs, s') := record_processed total i checksum o2 s in
            mkMachine (enter (S i) rest s') s' (tr ++ evs)
      end
  end.

Fixpoint steps (total n : nat) (m : Machine) : Machine :=
  match n with
  | O => m
  | S n' => steps total n' (step total m)
  end.

(** What the machine has done when it waits, and when it is done, in
    terms of the loop function started from [s0] over [checksums]. *)
Definition consistent (total : nat) (checksums : list string) (s0 : State)
    (m : Machine) : Prop :=
  match pc m with
  | AwaitFirst i c rest =>
      ∃ done, checksums = done ++ c :: rest ∧ i = List.length done
              ∧ loop total 0 done s0 = (done_events m, vars m)
              ∧ matchFound (vars m) = false
  | AwaitSecond i c r1 rest =>
      ∃ done sd, checksums = done ++ c :: rest ∧ i = List.length done
                 ∧ matchFound sd = false
                 ∧ done_events m = (loop total 0 done s0).1 ++ [EvSubmit i c (Some r1)]
                 ∧ (loop total 0 done s0).2 = sd
                 ∧ submit (oracle sd) c = (oracle (vars m), Some r1)
                 ∧ processedCount (vars m) = processedCount sd
                 ∧ matchFound (vars m) = false
  | LoopDone => loop total 0 checksums s0 = (done_events m, vars m)
  end.

(** The number of [await]s the machine may still go through. *)
Definition awaits_left (p : Pc) : nat :=
  match p with
  | AwaitFirst _ _ rest => 2 + 2 * List.length rest
  | AwaitSecond _ _ _ rest => 1 + 2 * List.length rest
  | LoopDone => 0
  end.

End WithOracle.

Arguments State : clear implicits.
Arguments mkState {OState}.
Arguments Machine : clear implicits.
Arguments mkMachine {OState}.

(** *** Reading the trace *)

(** The checksums written to [failed.txt], to [processed.txt], and the
    checksum saved in [ans.txt], by the events of a run. *)
Definition failed_of (e : Event) : option string :=
  match e with EvFailed _ c => Some c | _ => None end.
Definition processed_of (e : Event) : option string :=
  match e with EvProcessed _ c => Some c | _ => None end.
Definition answer_of (e : Event) : option (string * string) :=
  match e with EvAnswer _ c k => Some (c, k) | _ => None end.
Definition failed_writes (evs : list Event) : list string := omap failed_of evs.
Definition processed_writes (evs : list Event) : list string := omap processed_of evs.
Definition answers (evs : list Event) : list (string * string) := omap answer_of evs.

(** The position of the candidate an event belongs to. *)
Definition position (e : Event) : option nat :=
  match e with
  | EvSubmit i _ _ | EvFailed i _ | EvProcessed i _ | EvAnswer i _ _ => Some i
  | _ => None
  end.

(** The checksum a per-candidate event carries. *)
Definition checksum_of (e : Event) : option string :=
  match e with
  | EvSubmit _ c _ | EvFailed _ c | EvProcessed _ c | EvAnswer _ c _ => Some c
  | _ => None
  end.

(** The outcome records of the candidate at position [i]: what it wrote
    to [failed.txt], [processed.txt] or [ans.txt]. *)
Definition outcome_at (i : nat) (e : Event) : option Event :=
  match e with
  | EvFailed j _ | EvProcessed j _ | EvAnswer j _ _ =>
      if decide (j = i) then Some e else None
  | _ => None
  end.

Definition outcomes_at (i : nat) (evs : list Event) : list Event :=
  omap (outcome_at i) evs.

(** The values of the [submitChecksum] calls made for the candidate at
    position [i], in order. *)
Definition response_at (i : nat) (e : Event) : option (option Response) :=
  match e with
  | EvSubmit j _ answer => if decide (j = i) then Some answer else None
  | _ => None
  end.

Definition responses_at (i : nat) (evs : list Event) : list (option Response) :=
  omap (response_at i) evs.

(** The event is an outcome record. *)
Definition is_outcome (e : Event) : bool :=
  match e with
  | EvFailed _ _ | EvProcessed _ _ | EvAnswer _ _ _ => true
  | _ => false
  end.

(** A write to one of the two checkpoint logs. *)
Definition is_checkpoint (e : Event) : bool :=
  match e with EvFailed _ _ | EvProcessed _ _ => true | _ => false end.

Definition checkpoint_count (evs : list Event) : nat :=
  List.length (filter (λ e, is_checkpoint e = true) evs).

(** Progress discipline of a trace entered with [processedCount = n]:
    each checkpoint write is directly followed by the report of the
    count so far and the total, and there is no other report. *)
Fixpoint progress_follows (total n : nat) (evs : list Event) : Prop :=
  match evs with
  | [] => True
  | (EvFailed _ _ | EvProcessed _ _) :: EvProgress p t :: rest =>
      p = S n ∧ t = total ∧ progress_follows total (S n) rest
  | (EvFailed _ _ | EvProcessed _ _) :: _ => False
  | EvProgress _ _ :: _ => False
  | _ :: rest => progress_follows total n rest
  end.

End Engine.

(** ** The whole program: files, [main] and the way the process ends *)

Module Pipeline.
Import Text Source Engine.

(** The files [main] works on.  [reportPath] is what the operator typed;
    the other three live next to the report. *)
Record World := mkWorld {
  reportPath : string;
  report : option string;
  processedLog : option string;
  failedLog : option string;
  ansFile : option string
}.

(** How the process ends. *)
Inductive Termination :=
| ProcessExit (code : Z)
    (* [process.exit(code)] *)
| Returned
    (* [main] returned: its promise is fulfilled and nobody exits *)
| RejectionLogged (err : string)
    (* [main]'s promise was rejected and the [.catch] handler logged it *)
| UnhandledStreamError.
    (* a stream of [fs.createWriteStream] emitted ['error']; the script
       listens to no such event, so the error is thrown as an uncaught
       exception, which the runtime prints before it ends the process *)

(** The exit status seen by the caller of the script.  [process.exitCode]
    is never assigned and the handler of [main().catch] returns normally,
    so a process that runs out of work without [process.exit] ends with
    status 0; an uncaught exception ends it with status 1. *)
Definition exit_status (t : Termination) : Z :=
  match t with
  | ProcessExit code => code
  | Returned | RejectionLogged _ => 0%Z
  | UnhandledStreamError => 1%Z
  end.

(** What a run leaves behind. *)
Record Run (OState : Type) := mkRun {
  events : list Event;
  world : World;
  service : OState;
  termination : Termination
}.
Arguments mkRun {OState}.
Arguments events {OState}.
Arguments world {OState}.
Arguments service {OState}.
Arguments termination {OState}.

Definition nl : string := String "010" EmptyString.

(** [fs.createWriteStream(path, { flags: "a" })]: the file is created
    empty when it does not exist, and kept as it is otherwise. *)
Definition open_append (file : option string) : option string :=
  Some (default "" file).

(** [stream.write(`${checksum}\n`)] for each checksum, in order. *)
Definition append_lines (file : option string) (written : list string)
    : option string :=
  Some (foldl (λ content checksum, content +:+ checksum +:+ nl)
              (default "" file) written).

(** [`checksum: ${checksum}\nkey: ${key}\n`] *)
Definition answer_text (a : string * string) : string :=
  "checksum: " +:+ a.1 +:+ nl +:+ "key: " +:+ a.2 +:+ nl.

(** [fs.writeFileSync(ansFilePath, ...)] overwrites. *)
Definition write_answer (file : option string) (written : list (string * string))
    : option string :=
  match last written with
  | Some a => Some (answer_text a)
  | None => file
  end.

(** The files after the effects [evs].  Writes to the two streams are
    taken to reach the files in the order they are issued. *)
Definition after (w : World) (evs : list Event) : World :=
  mkWorld (reportPath w) (report w)
    (append_lines (processedLog w) (processed_writes evs))
    (append_lines (failedLog w) (failed_writes evs))
    (write_answer (ansFile w) (answers evs)).

(** The initial values of [processedCount] and [matchFound]. *)
Definition initial {OState : Type} (o : OState) : State OState :=
  mkState o 0 false.

(** The checksums [main] computes before the loop. *)
Definition existing_of (w : World) : gset string :=
  readExistingChecksums (open_append (processedLog w))
    ∪ readExistingChecksums (open_append (failedLog w)).

Definition candidates_of (w : World) : string + list string :=
  parseChecksumFile (reportPath w) (report w) (existing_of w).

(** [totalChecksums], when [main] gets that far. *)
Definition total_of (w : World) : nat :=
  match candidates_of w with
  | inr checksums => List.length checksums
  | inl _ => 0
  end.

(** Where the operator points the script.  The report and the three other
    files are files of one directory, [path.dirname(reportPath)]. *)
Inductive Site :=
| InDirectory (w : World)
    (* the directory exists and both logs can be opened for appending;
       [w] tells which of the four files exist, and their contents *)
| NoDirectory (path : string).
    (* the path typed in names a file of a directory that does not exist *)

(** The four files at a site: without the directory none of them exists. *)
Definition files (site : Site) : World :=
  match site with
  | InDirectory w => w
  | NoDirectory path => mkWorld path None None None None
  end.

Section WithOracle.
Context {OState : Type}.
Variable submit : OState → string → OState * option Response.

(** [main()] followed by [.catch(...)]. *)
Definition main (w : World) (o : OState) : Run OState :=
  (* the two append streams are opened first *)
  let w0 := after w [] in
  match candidates_of w with
  | inl err =>
      (* the rejection of [parseChecksumFile] leaves [main] *)
      mkRun [EvError err] w0 o (RejectionLogged err)
  | inr checksums =>
      let totalChecksums := List.length checksums in
      if (totalChecksums =? 0)%nat then
        mkRun [EvLog MsgNoNewChecksums] w0 o Returned
      else
        let '(evs, s) := loop submit totalChecksums 0 checksums (initial o) in
        let all := EvLog (MsgFound totalChecksums) :: evs
                   ++ (if matchFound s then [] else [EvLog MsgNoMatch]) in
        mkRun all (after w all) (oracle s) (ProcessExit 0)
  end.

(** The script from the answer to the prompt to the end of the process.
    In a directory that does not exist the two [fs.createWriteStream]
    calls still return, and the failure to open reaches each stream later,
    from the event loop.  Until then [main] goes on: it awaits nothing but
    promises that are already settled, since [fs.existsSync] finds neither
    log nor the report, so that the rejection of [parseChecksumFile] is
    logged by [.catch] first.  Then the ['error'] event of a stream ends
    the process; no file has been created. *)
Definition script (site : Site) (o : OState) : Run OState :=
  match site with
  | InDirectory w => main w o
  | NoDirectory _ =>
      let run := main (files site) o in
      mkRun (events run) (files site) (service run) UnhandledStreamError
  end.

(** The three ways through [main]. *)
Inductive main_path (w : World) (o : OState) : Prop :=
| path_missing_report :
    report w = None →
    main w o = mkRun [EvError (file_not_found (reportPath w))] (after w []) o
                 (RejectionLogged (file_not_found (reportPath w))) →
    main_path w o
| path_nothing_new :
    candidates_of w = inr [] →
    main w o = mkRun [EvLog MsgNoNewChecksums] (after w []) o Returned →
    main_path w o
| path_search checksums evs s :
    candidates_of w = inr checksums →
    checksums ≠ [] →
    iterations submit (List.length checksums) 0 checksums (initial o) evs s →
    main w o
    = mkRun (EvLog (MsgFound (List.length checksums)) :: evs
               ++ (if matchFound s then [] else [EvLog MsgNoMatch]))
            (after w (EvLog (MsgFound (List.length checksums)) :: evs
               ++ (if matchFound s then [] else [EvLog MsgNoMatch])))
            (oracle s) (ProcessExit 0) →
    main_path w o.

End WithOracle.

End Pipeline.

(** ** Two concrete services, for running the program *)

Module Oracles.
Import Engine.

(** A service that answers from a script, one entry per call, whatever
    the checksum; it stops answering when the script is used up. *)
Definition scripted (script : list (option Response)) (checksum : string)
    : list (option Response) * option Response :=
  match script with
  | [] => ([], None)
  | answer :: later => (later, answer)
  end.

(** A service whose answer depends on the checksum only. *)
Definition by_checksum (table : string → option Response) (st : unit)
    (checksum : string) : unit * option Response :=
  (st, table checksum).

Definition with_key (k : string) : option Response := Some {| key := Some k |}.
Definition without_key : option Response := Some {| key := None |}.

End Oracles.

Import Text Source Engine Pipeline Oracles.

Definition scenario_A_world : World :=
  mkWorld "./checksum_report.txt"
    (Some ("f1,a1" +:+ nl +:+ "f2,a2" +:+ nl +:+ "f3,a3" +:+ nl)) None None None.

Definition scenario_A_table (checksum : string) : option Response :=
  if String.eqb checksum "a2" then with_key "K" else without_key.


(** Lines of a report that name the checksum [F]: exactly two fields, the
    second one non-empty and equal to [F] once trimmed. *)
Definition names (F : string) (line : string) : bool :=
  match split_comma line with
  | [_; field] => truthy field && bool_decide (trim field = F)
  | _ => false
  end.

(** Exactly one of three propositions holds. *)
Definition exactly_one (A B C : Prop) : Prop :=
  (A ∧ ¬ B ∧ ¬ C) ∨ (¬ A ∧ B ∧ ¬ C) ∨ (¬ A ∧ ¬ B ∧ C).

(** The checksum stands in the candidate sequence at position [i] only. *)
Definition only_at (checksums : list string) (c : string) (i : nat) : Prop :=
  ∀ j, checksums !! j = Some c → j = i.

(** Two non-empty fields, as the claim words the test. *)
Definition two_nonempty_fields (line : string) : Prop :=
  ∃ label field, split_comma line = [label; field] ∧ label ≠ "" ∧ field ≠ "".

(** Closed decidable facts, by evaluation. *)
Ltac by_evaluation := apply (bool_decide_unpack _); vm_compute; exact I.

(** ** Concrete runs *)

Definition text_of (lines : list string) : string :=
  foldr (λ line rest, line +:+ nl +:+ rest) "" lines.

(** A report is missing: the operator mistyped its name. *)
Definition missing_report_world : World :=
  mkWorld "./checksum_report.txt" None None None None.

(** An empty report in a directory without checkpoint logs. *)
Definition empty_report_world : World :=
  mkWorld "./checksum_report.txt" (Some "") None None None.

(** One checksum, which the service of scenario A confirms. *)
Definition single_match_world : World :=
  mkWorld "./checksum_report.txt" (Some (text_of ["f2,a2"])) None None None.

(** The same checksum on two report lines. *)
Definition duplicate_world : World :=
  mkWorld "./checksum_report.txt" (Some (text_of ["f1,x1"; "f2,x1"])) None None None.

Definition duplicate_script : list (option Response) :=
  [None; without_key; without_key].

(** A duplicate separated by a checksum that the service confirms. *)
Definition halted_duplicate_world : World :=
  mkWorld "./checksum_report.txt"
    (Some (text_of ["f1,x1"; "f2,a2"; "f3,x1"])) None None None.

(** Scenario B of the specification: the first call for [x1] times out. *)
Definition scenario_B_world : World :=
  mkWorld "./checksum_report.txt" (Some (text_of ["f1,x1"; "f2,x2"])) None None None.

(** A restart (scenario D): [b1] was recorded as processed by an earlier
    run. *)
Definition restart_world : World :=
  mkWorld "./checksum_report.txt" (Some (text_of ["f1,b1"; "f2,b2"]))
    (Some (text_of ["b1"])) (Some "") None.

(** A checkpoint log with a blank line in it. *)
Definition blank_line_log : string := text_of ["abc"; ""; "def"].

From stdpp Require Import sorting.

(** ** More of the text helpers *)

Module Chars.
Import Text.

(** Every character of the string passes the test. *)
Fixpoint all_chars (test : ascii → bool) (s : string) : bool :=
  match s with
  | EmptyString => true
  | String c rest => test c && all_chars test rest
  end.

Definition is_eol (c : ascii) : bool := is_lf c || is_cr c.

(** No line terminator, and no comma, in a string. *)
Definition no_eol (s : string) : bool := all_chars (λ c, negb (is_eol c)) s.
Definition no_comma (s : string) : bool := all_chars (λ c, negb (is_comma c)) s.

(** The number of characters passing the test. *)
Fixpoint count_chars (test : ascii → bool) (s : string) : nat :=
  match s with
  | EmptyString => 0
  | String c rest => (if test c then 1 else 0) + count_chars test rest
  end.

(** [fields.join(",")] *)
Fixpoint join_comma (fields : list string) : string :=
  match fields with
  | [] => ""
  | [field] => field
  | field :: rest => field +:+ "," +:+ join_comma rest
  end.

(** The text ends with a line feed. *)
Fixpoint ends_with_lf (s : string) : bool :=
  match s with
  | EmptyString => false
  | String c EmptyString => is_lf c
  | String _ rest => ends_with_lf rest
  end.

End Chars.

(** A checkpoint log in the shape the program itself leaves it: missing,
    empty, or ending with a line feed. *)
Definition closed_text (content : string) : bool :=
  match content with
  | EmptyString => true
  | _ => Chars.ends_with_lf content
  end.

Definition closed_log (file : option string) : bool :=
  closed_text (default "" file).

(** ** More readings of the trace *)

Definition is_submit (e : Event) : bool :=
  match e with EvSubmit _ _ _ => true | _ => false end.

(** The number of calls of [submitChecksum]. *)
Definition submit_count (evs : list Event) : nat :=
  List.length (List.filter is_submit evs).

(** The pairs given to [updateProgress], in order. *)
Definition progress_of (e : Event) : option (nat * nat) :=
  match e with EvProgress p t => Some (p, t) | _ => None end.

Definition progress_reports (evs : list Event) : list (nat * nat) :=
  omap progress_of evs.

(** The positions of the per-candidate events, in order. *)
Definition positions (evs : list Event) : list nat := omap position evs.

(** A service whose answer depends on the checksum only confirms a
    checksum when its answer carries a non-empty key. *)
Definition confirmed (table : string → option Response) (checksum : string) : bool :=
  match table checksum with
  | Some r => key_truthy r
  | None => false
  end.

(** The candidate at index [n] of the sequence is the first one that the
    service confirms, with key [k]. *)
Definition first_confirmed (table : string → option Response)
    (checksums : list string) (n : nat) (c k : string) : Prop :=
  checksums !! n = Some c
  ∧ table c = Some {| key := Some k |} ∧ k ≠ ""
  ∧ ∀ n' c', n' < n → checksums !! n' = Some c' → confirmed table c' = false.

(** ** gen-main-1st.js: the generator of candidate files *)

Module Generator.
Import Text Chars.

(** *** Strings *)

(** [s.split(sep)] for a separator of one character. *)
Fixpoint split_on (sep : ascii) (s : string) : list string :=
  match s with
  | EmptyString => [EmptyString]
  | String c rest =>
      if Ascii.eqb c sep then EmptyString :: split_on sep rest
      else match split_on sep rest with
           | field :: fields => String c field :: fields
           | [] => [String c EmptyString]
           end
  end.

(** [s.startsWith(p)] *)
Fixpoint starts_with (p s : string) : bool :=
  match p, s with
  | EmptyString, _ => true
  | String a p', String b s' => Ascii.eqb a b && starts_with p' s'
  | String _ _, EmptyString => false
  end.

(** [s.includes(c)] for one character. *)
Fixpoint includes (c : ascii) (s : string) : bool :=
  match s with
  | EmptyString => false
  | String d rest => Ascii.eqb d c || includes c rest
  end.

(** The characters from position [n] on, and the first [n] characters. *)
Fixpoint str_drop (n : nat) (s : string) : string :=
  match n, s with
  | S n', String _ rest => str_drop n' rest
  | _, _ => s
  end.

Fixpoint str_take (n : nat) (s : string) : string :=
  match n, s with
  | S n', String c rest => String c (str_take n' rest)
  | _, _ => EmptyString
  end.

(** [s.substring(a, b)] and [s.substring(a)]: the arguments are swapped when
    [a > b] and clamped to the length. *)
Definition substring (a b : nat) (s : string) : string :=
  str_take (Nat.max a b - Nat.min a b) (str_drop (Nat.min a b) s).

Definition substring_from (a : nat) (s : string) : string := str_drop a s.

(** The position of the first occurrence of [needle] in [s], counted from
    [pos]. *)
Fixpoint index_of_at (needle s : string) (pos : nat) : option nat :=
  if starts_with needle s then Some pos
  else match s with
       | EmptyString => None
       | String _ rest => index_of_at needle rest (S pos)
       end.

(** [s.indexOf(needle)]: [None] stands for [-1]. *)
Definition index_of (needle s : string) : option nat := index_of_at needle s 0.

(** [s.indexOf(needle, from)], where a [from] of [-1] counts as 0. *)
Definition index_of_from (needle s : string) (from : option nat) : option nat :=
  index_of_at needle (str_drop (default 0 from) s) (default 0 from).

(** *** [parseArgs] *)

(** A parsed option is [true] or the text given for it. *)
Inductive ArgValue :=
| ArgTrue
| ArgText (text : string).

#[export] Instance ArgValue_eq_dec : EqDecision ArgValue.
Proof. solve_decision. Defined.

Definition dashes : string := "--".

(** [key.replace(/^--/, "")] *)
Definition strip_dashes (key : string) : string :=
  if starts_with dashes key then str_drop 2 key else key.

(** [args[k] = v] on the object literal [args].  An assignment to
    ["__proto__"] reaches the setter of [Object.prototype], which ignores a
    string or [true]: no property is created. *)
Definition set_arg (k : string) (v : ArgValue) (args : gmap string ArgValue)
    : gmap string ArgValue :=
  if decide (k = "__proto__") then args else <[k := v]> args.

(** The body of the [for] loop, from the argument at the head of [argv] on. *)
Fixpoint parse_from (argv : list string) (args : gmap string ArgValue)
    : gmap string ArgValue :=
  match argv with
  | [] => args
  | arg :: rest =>
      if negb (starts_with dashes arg) then parse_from rest args
      else if includes "=" arg then
        let parts := split_on "=" arg in
        parse_from rest
          (set_arg (strip_dashes (nth 0 parts "")) (ArgText (nth 1 parts "")) args)
      else
        match rest with
        | [] => set_arg (strip_dashes arg) ArgTrue args
        | val :: rest' =>
            parse_from rest' (set_arg (strip_dashes arg) (ArgText val) args)
        end
  end.

(** [parseArgs(argv)]: the first two entries of [process.argv] are the
    interpreter and the script. *)
Definition parseArgs (argv : list string) : gmap string ArgValue :=
  parse_from (drop 2 argv) ∅.

(** An option written as [--key=value]. *)
Definition option_arg (key value : string) : string :=
  dashes +:+ key +:+ "=" +:+ value.

(** *** [replaceBlanksInTemplate] *)

Definition startMarker : string := "const blanks = [".
Definition endMarker : string := "];".

Definition is_blank (c : ascii) : bool := Ascii.eqb c "_".

(** [blanksSection.replace(/_/g, ...)]: each underscore takes the next
    value while there is one, and stays otherwise. *)
Fixpoint fill_blanks (section : string) (values : list string) : string :=
  match section with
  | EmptyString => EmptyString
  | String c rest =>
      if is_blank c then
        match values with
        | value :: later => value +:+ fill_blanks rest later
        | [] => String c (fill_blanks rest [])
        end
      else String c (fill_blanks rest values)
  end.

(** [replaceBlanksInTemplate(template, values)]; [None] stands for the
    thrown [Error("Could not find `blanks` array in template.")].  A value
    that is not a string is taken as the text [replace] makes of it. *)
Definition replaceBlanksInTemplate (template : string) (values : list string)
    : option string :=
  let startIndex := index_of startMarker template in
  let endIndex := index_of_from endMarker template startIndex in
  match startIndex, endIndex with
  | Some a, Some b =>
      let prefix := substring 0 (a + String.length startMarker) template in
      let suffix := substring_from b template in
      let blanksSection := substring (a + String.length startMarker) b template in
      Some (prefix +:+ fill_blanks blanksSection values +:+ suffix)
  | _, _ => None
  end.

(** *** [processLine] and the loop of [main] *)

(** [values[i] = v] on an array: in place below the length, at the end with
    holes before it otherwise; a hole reads as [undefined]. *)
Definition store (i : nat) (v : string) (values : list string) : list string :=
  if i <? List.length values then <[i := v]> values
  else values ++ replicate (i - List.length values) "undefined" ++ [v].

(** The [values] array that [processLine] builds from the trimmed fields. *)
Definition blank_values (parts : list string) : list string :=
  let values := flat_map (λ part, replicate 5 part) parts in
  store 75 "Math.abs"
    (store 71 "2" (store 56 "2" (store 41 "2" (store 26 "2" (store 11 "2" values))))).

(** What [processLine] does with one line. *)
Inductive LineError :=
| InvalidCsv (row columns : nat)
    (* "Invalid CSV: row ${row} has ${columns} columns, expected 15" *)
| BlanksNotFound.
    (* "Could not find `blanks` array in template." *)

Inductive LineOutcome :=
| LineSkipped
    (* nothing is done *)
| LineFailed (error : LineError)
    (* the error is caught and printed, nothing is written *)
| LineWritten (number : nat) (content : string).
    (* [the-blank-check-${number}.js] is written with [content] *)

(** [processLine(line, lineIndex, templateContent, outDir)], the output
    directory being writable. *)
Definition processLine (line : string) (lineIndex : nat) (templateContent : string)
    : LineOutcome :=
  let parts := trim <$> split_comma line in
  if (List.length parts =? 0) || negb (truthy (nth 0 parts "")) then LineSkipped
  else if negb (List.length parts =? 15) then
    LineFailed (InvalidCsv (lineIndex + 1) (List.length parts))
  else
    match replaceBlanksInTemplate templateContent (blank_values parts) with
    | None => LineFailed BlanksNotFound
    | Some newContent => LineWritten (lineIndex + 1) newContent
    end.

(** The [for await (const line of rl)] loop of [main]:
    [totalLinesProcessed] counts every line, blank or not. *)
Fixpoint process_lines (lines : list string) (totalLinesProcessed : nat)
    (templateContent : string) : list LineOutcome :=
  match lines with
  | [] => []
  | line :: rest =>
      (if 0 <? String.length (trim line)
       then processLine line totalLinesProcessed templateContent
       else LineSkipped)
      :: process_lines rest (S totalLinesProcessed) templateContent
  end.

(** The numbers of the files written, in order. *)
Definition written_numbers (outcomes : list LineOutcome) : list nat :=
  omap (λ o, match o with LineWritten n _ => Some n | _ => None end) outcomes.

End Generator.

(** ** generate-checksum-2nd.js: the writer of the report *)

Module Hasher.
Import Text.

(** What [fs.stat] says of an entry of the folder and, for a regular file,
    what reading it gives: [None] when the read stream fails. *)
Inductive Entry :=
| StatFails
| NotAFile
| RegularFile (content : option string).

(** What [fs.stat] says of the path typed in, with the names [readdir]
    lists for a directory, in its order. *)
Inductive Folder :=
| Inaccessible
| NotADirectory
| Directory (entries : list (string * Entry)).

Definition outputFile : string := "checksum_report.txt".

Section WithDigest.

(** [hash.digest("hex")] of SHA-256 over a content, and [path.join]. *)
Variable sha256_hex : string → string.
Variable join : string → string → string.

(** [calculateChecksum(filePath)]: the digest, or [null] when the file
    cannot be read. *)
Definition calculateChecksum (content : option string) : option string :=
  sha256_hex <$> content.

(** File discovery: the full paths of the regular files, each with what
    reading it will give. *)
Definition filesToProcess (folderPath : string) (entries : list (string * Entry))
    : list (string * option string) :=
  omap (λ entry : string * Entry,
          match entry.2 with
          | RegularFile content => Some (join folderPath entry.1, content)
          | _ => None
          end) entries.

(** One turn of the loop over [filesToProcess], on the text written to
    the output stream so far. *)
Definition write_checksum (written : string) (file : string * option string)
    : string :=
  match calculateChecksum file.2 with
  | Some checksum =>
      if truthy checksum then written +:+ file.1 +:+ "," +:+ checksum +:+ Pipeline.nl
      else written
  | None => written
  end.

(** [main], by what it does to [checksum_report.txt]: [None] when the file
    is left as it was, [Some text] when it is created or truncated and
    [text] is written to it.  The files read are not written to during the
    run. *)
Definition main (folderPath : string) (folder : Folder) : option string :=
  match folder with
  | Inaccessible => None
  | NotADirectory => None
  | Directory allEntries =>
      let files := filesToProcess folderPath allEntries in
      if List.length files =? 0 then None
      else Some (foldl write_checksum "" files)
  end.

(** The lines written for the files, one for each file that could be read
    and has a non-empty digest. *)
Definition report_lines (files : list (string * option string)) : list string :=
  omap (λ file : string * option string,
          match file.2 with
          | Some content =>
              if truthy (sha256_hex content)
              then Some (file.1 +:+ "," +:+ sha256_hex content)
              else None
          | None => None
          end) files.

(** The digests of the files that could be read, in the order of
    [readdir]. *)
Definition digests (entries : list (string * Entry)) : list string :=
  omap (λ entry : string * Entry,
          match entry.2 with
          | RegularFile (Some content) => Some (sha256_hex content)
          | _ => None
          end) entries.

End WithDigest.

End Hasher.

(** * Facts about the text helpers and the checksum source *)

Example split_two : split_comma "a.js,ff01" = ["a.js"; "ff01"].
Proof. reflexivity. Qed.

Example split_empty : split_comma "" = [""].
Proof. reflexivity. Qed.

Example split_three : split_comma "a,b,c" = ["a"; "b"; "c"].
Proof. reflexivity. Qed.

Example trim_both : trim "  ab c   " = "ab c".
Proof. reflexivity. Qed.

Example trim_blank : trim "   " = "".
Proof. reflexivity. Qed.

Example lines_plain : read_lines (text_of ["ab"; "cd"]) = ["ab"; "cd"].
Proof. reflexivity. Qed.

Example lines_crlf_blank :
  read_lines ("ab" +:+ String "013" (String "010" (String "010" "cd")))
  = ["ab"; ""; "cd"].
Proof. reflexivity. Qed.

Example lines_of_blank_line_log : read_lines blank_line_log = ["abc"; ""; "def"].
Proof. reflexivity. Qed.

Example parse_small :
  parse_lines {[ "bb" ]} ["x,aa"; "y,bb"; "junk"; "z, cc "; "p,q,r"; "n,"]
  = ["aa"; "cc"].
Proof. vm_compute. reflexivity. Qed.

Section SourceFacts.
Variable existing : gset string.

Lemma on_line_app checksums line :
  on_line existing checksums line = checksums ++ line_candidates existing line.
Proof.
  unfold line_candidates, on_line.
  destruct (_ && _); [|by rewrite app_nil_r].
  destruct (decide _); [by rewrite app_nil_r|done].
Qed.

Lemma foldl_on_line checksums lines :
  foldl (on_line existing) checksums lines
  = checksums ++ flat_map (line_candidates existing) lines.
Proof.
  revert checksums. induction lines as [|line lines IH]; intros checksums; simpl.
  - by rewrite app_nil_r.
  - rewrite IH, on_line_app, <- app_assoc. done.
Qed.

Lemma parse_lines_flat lines :
  parse_lines existing lines = flat_map (line_candidates existing) lines.
Proof. unfold parse_lines. by rewrite foldl_on_line. Qed.

Lemma parse_lines_app l1 l2 :
  parse_lines existing (l1 ++ l2)
  = parse_lines existing l1 ++ parse_lines existing l2.
Proof. rewrite !parse_lines_flat. apply flat_map_app. Qed.

Lemma parse_lines_cons line lines :
  parse_lines existing (line :: lines)
  = line_candidates existing line ++ parse_lines existing lines.
Proof. rewrite !parse_lines_flat. done. Qed.

(** What a line adds, by the shape of its split. *)
Lemma line_candidates_split line :
  line_candidates existing line
  = match split_comma line with
    | [_; field] =>
        if truthy field then
          if decide (trim field ∈ existing) then [] else [trim field]
        else []
    | _ => []
    end.
Proof.
  unfold line_candidates, on_line.
  destruct (split_comma line) as [|a [|b [|c l]]]; simpl; done.
Qed.

Lemma line_candidates_fresh line x :
  x ∈ line_candidates existing line → x ∉ existing.
Proof.
  rewrite line_candidates_split.
  destruct (split_comma line) as [|a [|b [|c l]]]; try by intros ?%elem_of_nil.
  destruct (truthy b); [|by intros ?%elem_of_nil].
  destruct (decide _) as [|Hn]; [by intros ?%elem_of_nil|].
  intros ->%list_elem_of_singleton. done.
Qed.

(** Dedup rule: nothing of the checkpoint sets comes out of the source. *)
Lemma parse_lines_fresh lines x :
  x ∈ parse_lines existing lines → x ∉ existing.
Proof.
  rewrite parse_lines_flat. intros Hx.
  apply list_elem_of_In, in_flat_map in Hx as (line & _ & Hx).
  apply list_elem_of_In in Hx. eauto using line_candidates_fresh.
Qed.

End SourceFacts.

Lemma elem_of_load_lines lines x :
  x ∈ load_lines lines ↔ ∃ line, line ∈ lines ∧ x = trim line.
Proof.
  unfold load_lines.
  assert (∀ acc, x ∈ foldl add_line acc lines
                 ↔ x ∈ acc ∨ ∃ line, line ∈ lines ∧ x = trim line) as H.
  { induction lines as [|l lines IH]; intros acc; simpl.
    - split; [auto|]. intros [?|(? & ?%elem_of_nil & _)]; done.
    - rewrite IH. unfold add_line. rewrite elem_of_union, elem_of_singleton.
      split.
      + intros [[?| ->]|(line & ? & ->)]; eauto using list_elem_of_here, list_elem_of_further.
      + intros [?|(line & [-> |?]%elem_of_cons & ->)]; eauto. }
  rewrite H. split; [|eauto]. intros [?%not_elem_of_empty|?]; done.
Qed.

Lemma readExistingChecksums_open file :
  readExistingChecksums (open_append file) = readExistingChecksums file.
Proof. destruct file; done. Qed.

(** * Facts about the main loop *)

Section LoopFacts.
Context {OState : Type}.
Variable submit : OState → string → OState * option Response.
Variable total : nat.

Local Abbreviation loop := (Engine.loop submit total).
Local Abbreviation attempt := (Engine.attempt submit total).

Lemma loop_halted i checksums (s : State OState) :
  matchFound s = true → loop i checksums s = ([], s).
Proof. intros H. destruct checksums; simpl; [done|]. by rewrite H. Qed.

(** The body of the loop takes one of the four ways of [attempt], and the
    loop goes on from the next position. *)
Lemma loop_cons i checksum rest (s : State OState) :
  matchFound s = false →
  ∃ evs s', attempt i checksum s evs s'
            ∧ loop i (checksum :: rest) s = emit evs (loop (S i) rest s').
Proof.
  intros Hs. simpl. rewrite Hs.
  destruct (submit (oracle s) checksum) as [o1 [r1|]] eqn:E1.
  - destruct (submit o1 checksum) as [o2 [r2|]] eqn:E2.
    + destruct (is_match r1 r2) eqn:Em.
      * eexists _, _. split; [eapply attempt_match; eauto|].
        rewrite loop_halted by done. done.
      * eexists _, _. split; [eapply attempt_mismatch; eauto|].
        unfold emit; simpl. by rewrite Hs.
    + eexists _, _. split; [eapply attempt_failed_second; eauto|].
      unfold emit; simpl. by rewrite Hs.
  - eexists _, _. split; [eapply attempt_failed_first; eauto|].
    unfold emit; simpl. by rewrite Hs.
Qed.

(** The loop function runs the chain of iterations. *)
Lemma loop_iterations checksums : ∀ i (s : State OState),
  matchFound s = false →
  iterations submit total i checksums s (loop i checksums s).1 (loop i checksums s).2.
Proof.
  induction checksums as [|c rest IH]; intros i s Hs.
  - constructor.
  - destruct (loop_cons i c rest s Hs) as (evs & s' & Hat & ->).
    destruct (matchFound s') eqn:Hm.
    + rewrite loop_halted by done. unfold emit; simpl. rewrite app_nil_r.
      by apply iterations_halt.
    + unfold emit; simpl. eapply iterations_next; eauto.
Qed.

Local Abbreviation iterations := (Engine.iterations submit total).

(** Every per-candidate event of an iteration is at its position and
    carries its checksum. *)
Lemma attempt_events i c (s : State OState) evs s' e j :
  attempt i c s evs s' → e ∈ evs → position e = Some j →
  j = i ∧ checksum_of e = Some c.
Proof.
  intros Hat He Hj.
  destruct Hat; decompose_list_elem_of; subst; simpl in *; simplify_eq; done.
Qed.

(** An iteration that leaves [matchFound] false wrote no answer. *)
Lemma attempt_no_answer i c (s : State OState) evs s' j x k :
  attempt i c s evs s' → matchFound s = false → matchFound s' = false →
  EvAnswer j x k ∉ evs.
Proof.
  intros Hat Hs Hs' He.
  destruct Hat; decompose_list_elem_of; subst; simpl in *; simplify_eq; congruence.
Qed.

(** An iteration that sets [matchFound] is the matching one. *)
Lemma attempt_halting i c (s : State OState) evs s' :
  attempt i c s evs s' → matchFound s = false → matchFound s' = true →
  ∃ r1 r2,
    evs = [EvSubmit i c (Some r1); EvSubmit i c (Some r2);
           EvAnswer i c (key_text r1); EvLog (MsgMatchFound c (key_text r1))]
    ∧ is_match r1 r2 = true.
Proof.
  intros Hat Hs Hs'. destruct Hat; simpl in *; try congruence; eauto.
Qed.

(** Events of the loop entered at position [i] over [checksums]: their
    positions start at [i] and they carry the checksum found there. *)
Lemma iterations_position i checksums (s : State OState) evs s' :
  iterations i checksums s evs s' →
  ∀ e j, e ∈ evs → position e = Some j →
         i ≤ j ∧ checksums !! (j - i) = Some (default "" (checksum_of e))
         ∧ is_Some (checksum_of e).
Proof.
  induction 1 as [i s|i c rest s evs1 s1 evs2 s2 Hat Hm _ IH|i c rest s evs1 s1 Hat Hm];
    intros e j He Hj.
  - by apply elem_of_nil in He.
  - apply elem_of_app in He as [He|He].
    + destruct (attempt_events _ _ _ _ _ _ _ Hat He Hj) as [-> Hc].
      rewrite Hc, Nat.sub_diag. eauto.
    + destruct (IH _ _ He Hj) as (Hle & Hl & Hs).
      replace (j - i) with (S (j - S i)) by lia. split; [lia|done].
  - destruct (attempt_events _ _ _ _ _ _ _ Hat He Hj) as [-> Hc].
    rewrite Hc, Nat.sub_diag. eauto.
Qed.

(** The answer, when there is one, closes the trace: it follows the two
    agreeing responses of its candidate, and everything before belongs to
    earlier positions. *)
Lemma iterations_answer i checksums (s : State OState) evs s' j c k :
  iterations i checksums s evs s' → matchFound s = false →
  EvAnswer j c k ∈ evs →
  ∃ pre r1 r2,
    evs = pre ++ [EvSubmit j c (Some r1); EvSubmit j c (Some r2);
                  EvAnswer j c k; EvLog (MsgMatchFound c k)]
    ∧ is_match r1 r2 = true ∧ k = key_text r1
    ∧ (∀ e j', e ∈ pre → position e = Some j' → j' < j)
    ∧ (∀ e, e ∈ pre → answer_of e = None)
    ∧ matchFound s' = true.
Proof.
  induction 1 as [i s|i x rest s evs1 s1 evs2 s2 Hat Hm Hit IH|i x rest s evs1 s1 Hat Hm];
    intros Hs He.
  - by apply elem_of_nil in He.
  - apply elem_of_app in He as [He|He].
    { by eapply attempt_no_answer in He. }
    destruct (IH Hm He) as (pre & r1 & r2 & -> & ? & ? & Hpre & Hno & ?).
    exists (evs1 ++ pre), r1, r2. rewrite <- app_assoc.
    repeat split; try done.
    + intros e j' [He'|He']%elem_of_app Hj'; [|eauto].
      destruct (attempt_events _ _ _ _ _ _ _ Hat He' Hj') as [-> _].
      assert (S i ≤ j); [|lia].
      eapply (iterations_position _ _ _ _ _ Hit (EvAnswer j c k)); [|done].
      set_solver.
    + intros e [He'|He']%elem_of_app; [|eauto].
      destruct e; try done. by eapply attempt_no_answer in He'.
  - destruct (attempt_halting _ _ _ _ _ Hat Hs Hm) as (r1 & r2 & -> & ?).
    decompose_list_elem_of; simplify_eq.
    exists [], r1, r2. repeat split; try done; by intros ? ? ?%elem_of_nil
      || by intros ? ?%elem_of_nil.
Qed.

(** [matchFound] is set exactly by writing an answer. *)
Lemma iterations_matchFound i checksums (s : State OState) evs s' :
  iterations i checksums s evs s' → matchFound s = false →
  matchFound s' = true → ∃ j c k, EvAnswer j c k ∈ evs.
Proof.
  induction 1 as [i s|i x rest s evs1 s1 evs2 s2 Hat Hm Hit IH|i x rest s evs1 s1 Hat Hm];
    intros Hs Hs'.
  - congruence.
  - destruct (IH Hm Hs') as (j & c & k & ?). exists j, c, k.
    apply elem_of_app. by right.
  - destruct (attempt_halting _ _ _ _ _ Hat Hs Hm) as (r1 & r2 & -> & ?).
    exists i, x, (key_text r1). set_solver.
Qed.

Lemma outcomes_at_app j (l1 l2 : list Event) :
  outcomes_at j (l1 ++ l2) = outcomes_at j l1 ++ outcomes_at j l2.
Proof. apply omap_app. Qed.

Lemma responses_at_app j (l1 l2 : list Event) :
  responses_at j (l1 ++ l2) = responses_at j l1 ++ responses_at j l2.
Proof. apply omap_app. Qed.

Lemma outcomes_at_cons j e (evs : list Event) :
  outcomes_at j (e :: evs)
  = match outcome_at j e with
    | Some y => y :: outcomes_at j evs
    | None => outcomes_at j evs
    end.
Proof. done. Qed.

Lemma responses_at_cons j e (evs : list Event) :
  responses_at j (e :: evs)
  = match response_at j e with
    | Some y => y :: responses_at j evs
    | None => responses_at j evs
    end.
Proof. done. Qed.

Lemma outcomes_at_elsewhere j (evs : list Event) :
  (∀ e j', e ∈ evs → position e = Some j' → j' ≠ j) → outcomes_at j evs = [].
Proof.
  induction evs as [|e evs IH]; intros H; [done|].
  rewrite outcomes_at_cons, IH.
  - destruct e; simpl; try done; case_decide; try done;
      exfalso; eapply H; try done; constructor.
  - intros e' j' He'. apply H. by constructor.
Qed.

Lemma responses_at_elsewhere j (evs : list Event) :
  (∀ e j', e ∈ evs → position e = Some j' → j' ≠ j) → responses_at j evs = [].
Proof.
  induction evs as [|e evs IH]; intros H; [done|].
  rewrite responses_at_cons, IH.
  - destruct e; simpl; try done; case_decide; try done;
      exfalso; eapply H; try done; constructor.
  - intros e' j' He'. apply H. by constructor.
Qed.

(** One iteration leaves exactly one outcome record. *)
Lemma attempt_outcome i c (s : State OState) evs s' :
  attempt i c s evs s' →
  ∃ e, outcomes_at i evs = [e]
       ∧ (e = EvFailed i c ∨ e = EvProcessed i c ∨ ∃ k, e = EvAnswer i c k).
Proof.
  destruct 1; unfold outcomes_at; simpl; case_decide; try done; eauto 6.
Qed.

Lemma attempt_first_submit i c (s : State OState) evs s' :
  attempt i c s evs s' → ∃ r, EvSubmit i c r ∈ evs.
Proof. destruct 1; eexists; constructor. Qed.

(** Every candidate that was submitted left exactly one outcome record:
    a line in [failed.txt], a line in [processed.txt], or the answer. *)
Lemma iterations_outcome i checksums (s : State OState) evs s' j c r :
  iterations i checksums s evs s' →
  EvSubmit j c r ∈ evs →
  ∃ e, outcomes_at j evs = [e]
       ∧ (e = EvFailed j c ∨ e = EvProcessed j c ∨ ∃ k, e = EvAnswer j c k).
Proof.
  induction 1 as [i s|i x rest s evs1 s1 evs2 s2 Hat Hm Hit IH|i x rest s evs1 s1 Hat Hm];
    intros He.
  - by apply elem_of_nil in He.
  - rewrite outcomes_at_app. apply elem_of_app in He as [He|He].
    + destruct (attempt_events _ _ _ _ _ _ j Hat He eq_refl) as [-> [= ->]].
      rewrite (outcomes_at_elsewhere i evs2), app_nil_r.
      * eauto using attempt_outcome.
      * intros e j' He' Hj'.
        pose proof (iterations_position _ _ _ _ _ Hit _ _ He' Hj'). lia.
    + rewrite (outcomes_at_elsewhere j evs1); [by apply IH|].
      intros e j' He' Hj'.
      destruct (attempt_events _ _ _ _ _ _ _ Hat He' Hj') as [-> _].
      pose proof (iterations_position _ _ _ _ _ Hit _ _ He eq_refl). lia.
  - destruct (attempt_events _ _ _ _ _ _ j Hat He eq_refl) as [-> [= ->]].
    eauto using attempt_outcome.
Qed.

(** Two agreeing responses for one candidate are followed by the answer. *)
Lemma iterations_responses i checksums (s : State OState) evs s' j r1 r2 :
  iterations i checksums s evs s' → matchFound s = false →
  responses_at j evs = [Some r1; Some r2] → is_match r1 r2 = true →
  ∃ c, EvAnswer j c (key_text r1) ∈ evs.
Proof.
  induction 1 as [i s|i x rest s evs1 s1 evs2 s2 Hat Hm Hit IH|i x rest s evs1 s1 Hat Hm];
    intros Hs Hr Hk.
  - done.
  - rewrite responses_at_app in Hr. destruct (decide (j = i)) as [->|Hne].
    + rewrite (responses_at_elsewhere i evs2), app_nil_r in Hr.
      * destruct Hat; unfold responses_at in Hr; simpl in *;
          case_decide; simplify_eq; congruence.
      * intros e j' He' Hj'.
        pose proof (iterations_position _ _ _ _ _ Hit _ _ He' Hj'). lia.
    + rewrite (responses_at_elsewhere j evs1) in Hr.
      * destruct (IH Hm Hr Hk) as [c ?]. exists c. apply elem_of_app. by right.
      * intros e j' He' Hj'.
        by destruct (attempt_events _ _ _ _ _ _ _ Hat He' Hj') as [-> _].
  - destruct (decide (j = i)) as [->|Hne].
    + destruct (attempt_halting _ _ _ _ _ Hat Hs Hm) as (r1' & r2' & -> & ?).
      unfold responses_at in Hr; simpl in Hr. case_decide; [|done].
      simplify_eq. exists x. set_solver.
    + rewrite (responses_at_elsewhere j evs1) in Hr; [done|].
      intros e j' He' Hj'.
      by destruct (attempt_events _ _ _ _ _ _ _ Hat He' Hj') as [-> _].
Qed.

(** A candidate that the loop reaches is submitted. *)
Lemma iterations_reached i checksums (s : State OState) evs s' j c :
  iterations i checksums s evs s' → matchFound s = false →
  i ≤ j → checksums !! (j - i) = Some c →
  (∀ j' x k, EvAnswer j' x k ∈ evs → j ≤ j') →
  ∃ r, EvSubmit j c r ∈ evs.
Proof.
  induction 1 as [i s|i x rest s evs1 s1 evs2 s2 Hat Hm Hit IH|i x rest s evs1 s1 Hat Hm];
    intros Hs Hle Hl Hno.
  - done.
  - destruct (decide (j = i)) as [->|Hne].
    + rewrite Nat.sub_diag in Hl. simplify_eq/=.
      destruct (attempt_first_submit _ _ _ _ _ Hat) as [r ?].
      exists r. apply elem_of_app. by left.
    + replace (j - i) with (S (j - S i)) in Hl by lia. simpl in Hl.
      destruct IH as [r ?]; [done|lia|done| |].
      * intros j' y k ?. eapply Hno. apply elem_of_app. by right.
      * exists r. apply elem_of_app. by right.
  - destruct (decide (j = i)) as [->|Hne].
    + rewrite Nat.sub_diag in Hl. simplify_eq/=.
      eauto using attempt_first_submit.
    + destruct (iterations_matchFound i (x :: rest) s evs1 s1) as (j' & y & k & Hy);
        [by apply iterations_halt|done|done|].
      pose proof (Hno _ _ _ Hy).
      destruct (attempt_events _ _ _ _ _ _ j' Hat Hy eq_refl) as [-> _]. lia.
Qed.

(** Progress reports follow the checkpoint writes, one for one. *)
Lemma iterations_progress i checksums (s : State OState) evs s' :
  iterations i checksums s evs s' →
  progress_follows total (processedCount s) evs.
Proof.
  induction 1 as [i s|i x rest s evs1 s1 evs2 s2 Hat Hm Hit IH|i x rest s evs1 s1 Hat Hm].
  - done.
  - destruct Hat; simpl in *; done.
  - destruct Hat; simpl in *; done.
Qed.

(** Every iteration starts with a submission. *)
Lemma attempt_head i c (s : State OState) evs s' :
  attempt i c s evs s' → ∃ answer later, evs = EvSubmit i c answer :: later.
Proof. destruct 1; by eexists _, _. Qed.

Lemma iterations_head i c rest (s : State OState) evs s' :
  Engine.iterations submit total i (c :: rest) s evs s' →
  ∃ answer later, evs = EvSubmit i c answer :: later.
Proof.
  inversion 1 as [|? ? ? ? evs1 ? evs2 ? Hat|? ? ? ? evs1 ? Hat]; subst;
    destruct (attempt_head _ _ _ _ _ Hat) as (answer & later & ->);
    by eexists _, _.
Qed.

(** The iteration whose first call resolves to [null]: what follows that
    call in the trace, and what stands around it. *)
Lemma iterations_failed_first i0 checksums (s : State OState) evs s' :
  Engine.iterations submit total i0 checksums s evs s' → matchFound s = false →
  ∀ pre post i c,
    evs = pre ++ EvSubmit i c None :: post →
    responses_at i pre = [] →
    ∃ p post',
      post = EvFailed i c :: EvProgress p total :: post'
      ∧ (∀ e j, e ∈ pre → position e = Some j → j < i)
      ∧ (∀ e j, e ∈ post' → position e = Some j → i < j)
      ∧ (∀ c', checksums !! (S i - i0) = Some c' →
           ∃ answer later, post' = EvSubmit (S i) c' answer :: later).
Proof.
  induction 1 as [i0 s|i0 c0 rest s evs1 s1 evs2 s2 Hat Hm1 Hit IH
                  |i0 c0 rest s evs1 s1 Hat Hm1];
    intros Hs pre post i c Heq Hresp.
  - by destruct pre.
  - assert (∀ e j, e ∈ evs2 → position e = Some j → S i0 ≤ j) as Hlater.
    { intros e j He Hj.
      by destruct (iterations_position _ _ _ _ _ Hit _ _ He Hj) as [? _]. }
    assert (∀ m, evs2 = m ++ EvSubmit i c None :: post → responses_at i m = [] →
              ∃ p post',
                post = EvFailed i c :: EvProgress p total :: post'
                ∧ (∀ e j, e ∈ evs1 ++ m → position e = Some j → j < i)
                ∧ (∀ e j, e ∈ post' → position e = Some j → i < j)
                ∧ (∀ c', (c0 :: rest) !! (S i - i0) = Some c' →
                     ∃ answer later, post' = EvSubmit (S i) c' answer :: later))
      as Hin2.
    { intros m Hm Hrm.
      assert (S i0 ≤ i) as Hle.
      { apply (Hlater (EvSubmit i c None)); [|done].
        rewrite Hm. apply elem_of_app. right. constructor. }
      destruct (IH Hm1 m post i c Hm Hrm) as (p & post' & Hp & Hpre & Hpost & Hnext).
      exists p, post'. split; [done|]. split; [|split; [done|]].
      - intros e j [He|He]%elem_of_app Hj; [|by eapply Hpre].
        destruct (attempt_events _ _ _ _ _ _ _ Hat He Hj) as [-> _]. lia.
      - intros c' Hc'. apply Hnext.
        replace (S i - i0) with (S (S i - S i0)) in Hc' by lia. done. }
    apply app_eq_inv in Heq as [(l & Hl1 & Hl2)|(l & Hl1 & Hl2)].
    + destruct l as [|e l].
      * rewrite app_nil_r in Hl1. subst pre. simpl in Hl2.
        destruct (Hin2 [] (eq_sym Hl2) eq_refl) as (p & post' & ? & Hpre & ? & ?).
        exists p, post'. rewrite app_nil_r in Hpre. done.
      * simpl in Hl2. injection Hl2 as <- ->.
        destruct Hat as [o1 Hs1|o1 r1 o2 Hs1 Hs2|o1 r1 o2 r2 Hs1 Hs2 Hm
                         |o1 r1 o2 r2 Hs1 Hs2 Hm].
        -- destruct pre as [|x [|y [|z pre]]]; simplify_eq/=;
             try (by destruct pre).
           eexists _, evs2. split; [done|].
           split; [by intros e j ?%elem_of_nil|].
           split.
           ++ intros e j He Hj. specialize (Hlater _ _ He Hj). lia.
           ++ intros c' Hc'. replace (S i - i) with 1 in Hc' by lia.
              destruct rest as [|c'' rest']; simplify_eq/=.
              by eapply iterations_head.
        -- destruct pre as [|x [|y [|z [|u pre]]]]; simplify_eq/=;
             try (by destruct pre).
           unfold responses_at in Hresp. simpl in Hresp.
           by rewrite decide_True in Hresp.
        -- destruct pre as [|x [|y [|z [|u pre]]]]; simplify_eq/=;
             by destruct pre.
        -- destruct pre as [|x [|y [|z [|u pre]]]]; simplify_eq/=;
             by destruct pre.
    + subst pre. rewrite responses_at_app in Hresp.
      apply app_eq_nil in Hresp as [_ Hrl].
      by apply Hin2.
  - destruct (attempt_halting _ _ _ _ _ Hat Hs Hm1) as (r1 & r2 & -> & _).
    destruct pre as [|x [|y [|z [|u pre]]]]; simplify_eq/=; by destruct pre.
Qed.

End LoopFacts.

(** * The loop one [await] at a time *)

Section MachineFacts.
Context {OState : Type}.
Variable submit : OState → string → OState * option Response.
Variable total : nat.

Local Abbreviation loop := (Engine.loop submit total).
Local Abbreviation step := (Engine.step submit total).
Local Abbreviation steps := (Engine.steps submit total).
Local Abbreviation consistent := (Engine.consistent submit total).

Lemma emit_nil (r : list Event * State OState) : emit [] r = r.
Proof. by destruct r. Qed.

(** The loop over a non-empty array is its first iteration followed by
    the loop over the rest. *)
Lemma loop_first i c rest (s : State OState) :
  matchFound s = false →
  loop i (c :: rest) s
  = emit (loop i [c] s).1 (loop (S i) rest (loop i [c] s).2).
Proof.
  intros Hs. simpl. rewrite Hs.
  destruct (submit (oracle s) c) as [o1 [r1|]].
  - destruct (submit o1 c) as [o2 [r2|]].
    + destruct (is_match r1 r2); unfold emit; simpl.
      * by rewrite loop_halted.
      * done.
    + unfold emit; simpl. done.
  - unfold emit; simpl. done.
Qed.

Lemma loop_app l1 : ∀ i l2 (s : State OState),
  loop i (l1 ++ l2) s
  = emit (loop i l1 s).1 (loop (i + List.length l1) l2 (loop i l1 s).2).
Proof.
  induction l1 as [|c l1 IH]; intros i l2 s.
  - simpl. by rewrite Nat.add_0_r, emit_nil.
  - destruct (matchFound s) eqn:Hs.
    + rewrite (loop_halted submit total i ((c :: l1) ++ l2) s Hs).
      rewrite (loop_halted submit total i (c :: l1) s Hs). cbn [fst snd].
      by rewrite loop_halted, emit_nil.
    + rewrite <- app_comm_cons.
      rewrite (loop_first i c (l1 ++ l2) s Hs), (loop_first i c l1 s Hs), IH.
      unfold emit; simpl. rewrite app_assoc.
      by replace (i + S (List.length l1)) with (S i + List.length l1) by lia.
Qed.

Lemma start_consistent checksums (s0 : State OState) :
  matchFound s0 = false → consistent checksums s0 (start checksums s0).
Proof.
  intros Hs. unfold Engine.consistent, start, enter. destruct checksums as [|c rest]; simpl.
  - done.
  - rewrite Hs. simpl. by exists [].
Qed.

(** Entering the next iteration after a finished one. *)
Lemma enter_consistent checksums (s0 : State OState) done c rest evs s' :
  checksums = done ++ c :: rest →
  loop 0 (done ++ [c]) s0 = (evs, s') →
  matchFound s' = false →
  consistent checksums s0 (mkMachine (enter (S (List.length done)) rest s') s' evs).
Proof.
  intros -> Hl Hs'. unfold Engine.consistent, enter. destruct rest as [|c' rest']; simpl.
  - done.
  - rewrite Hs'. simpl. exists (done ++ [c]). rewrite <- app_assoc, length_app.
    simpl. repeat split; try done. lia.
Qed.

Lemma step_consistent checksums (s0 : State OState) m :
  consistent checksums s0 m → consistent checksums s0 (step m).
Proof.
  unfold Engine.consistent at 1, Engine.step.
  destruct m as [[i c rest|i c r1 rest|] s tr]; simpl; [| |done].
  - intros (done & -> & -> & Hl & Hs).
    pose proof (loop_app done 0 [c] s0) as Hone.
    rewrite Hl in Hone. simpl in Hone. rewrite Hs in Hone.
    destruct (submit (oracle s) c) as [o1 [r1|]] eqn:E1; simpl.
    + exists done, s. rewrite Hl. by repeat split.
    + apply (enter_consistent _ s0 done c rest); [done| |done].
      rewrite Hone. unfold emit; simpl. by rewrite Hs, <- app_assoc.
  - intros (done & sd & -> & -> & Hsd & -> & Hl & E1 & Hcount & Hs).
    pose proof (loop_app done 0 [c] s0) as Hone.
    pose proof (loop_app done 0 (c :: rest) s0) as Hall.
    rewrite Hl in Hone, Hall. simpl in Hone, Hall.
    rewrite Hsd, E1 in Hone, Hall.
    destruct (submit (oracle s) c) as [o2 [r2|]] eqn:E2; simpl.
    + destruct (is_match r1 r2) eqn:Hm; simpl.
      * unfold Engine.consistent; simpl. rewrite Hall. unfold emit; simpl.
        by rewrite Hcount, <- !app_assoc.
      * apply (enter_consistent _ s0 done c rest); [done| |done].
        rewrite Hone. unfold emit; simpl.
        by rewrite Hcount, Hs, <- !app_assoc.
    + apply (enter_consistent _ s0 done c rest); [done| |done].
      rewrite Hone. unfold emit; simpl.
      by rewrite Hcount, Hs, <- !app_assoc.
Qed.

Lemma steps_consistent n : ∀ checksums (s0 : State OState) m,
  consistent checksums s0 m → consistent checksums s0 (steps n m).
Proof.
  induction n as [|n IH]; intros checksums s0 m Hm; [done|].
  simpl. apply IH. by apply step_consistent.
Qed.

Lemma enter_awaits i rest (s : State OState) :
  awaits_left (enter i rest s) ≤ 2 * List.length rest.
Proof. destruct rest; simpl; [lia|]. destruct (matchFound s); simpl; lia. Qed.

Lemma step_awaits (m : Machine OState) :
  pc m ≠ LoopDone → awaits_left (pc (step m)) < awaits_left (pc m).
Proof.
  unfold Engine.step. destruct m as [[i c rest|i c r1 rest|] s tr]; simpl; [| |done];
    intros _.
  - destruct (submit (oracle s) c) as [o1 [r1|]]; simpl; [lia|].
    pose proof (enter_awaits (S i) rest (mkState o1 (S (processedCount s)) (matchFound s))).
    lia.
  - destruct (submit (oracle s) c) as [o2 [r2|]]; simpl.
    + destruct (is_match r1 r2); simpl; [lia|].
      pose proof (enter_awaits (S i) rest (mkState o2 (S (processedCount s)) (matchFound s))).
      lia.
    + pose proof (enter_awaits (S i) rest (mkState o2 (S (processedCount s)) (matchFound s))).
      lia.
Qed.

Lemma steps_done n : ∀ (m : Machine OState), pc m = LoopDone → steps n m = m.
Proof.
  induction n as [|n IH]; intros m Hm; [done|]. simpl.
  assert (step m = m) as ->; [|by apply IH].
  unfold Engine.step. by rewrite Hm.
Qed.

(** The machine leaves the loop after at most two [await]s per candidate. *)
Lemma steps_terminate n : ∀ (m : Machine OState),
  awaits_left (pc m) ≤ n → pc (steps n m) = LoopDone.
Proof.
  induction n as [|n IH]; intros m Hn.
  - destruct (pc m) eqn:Hp; simpl in *; try lia; done.
  - simpl. destruct (pc m) eqn:Hp.
    + apply IH. pose proof (step_awaits m) as Hlt. rewrite Hp in Hlt.
      specialize (Hlt ltac:(done)). lia.
    + apply IH. pose proof (step_awaits m) as Hlt. rewrite Hp in Hlt.
      specialize (Hlt ltac:(done)). lia.
    + assert (step m = m) as ->; [unfold Engine.step; by rewrite Hp|].
      by rewrite steps_done.
Qed.

(** The machine computes the loop function. *)
Lemma steps_loop checksums (s0 : State OState) :
  matchFound s0 = false →
  let m := steps (2 * List.length checksums) (start checksums s0) in
  pc m = LoopDone ∧ loop 0 checksums s0 = (done_events m, vars m).
Proof.
  intros Hs m.
  assert (pc m = LoopDone) as Hd.
  { apply steps_terminate. unfold start; simpl. apply enter_awaits. }
  split; [done|].
  pose proof (steps_consistent (2 * List.length checksums) checksums s0
                (start checksums s0) (start_consistent _ _ Hs)) as Hc.
  unfold Engine.consistent in Hc. fold m in Hc. by rewrite Hd in Hc.
Qed.

End MachineFacts.

(** * Facts about whole runs *)

Lemma is_match_spec (r1 r2 : Response) :
  is_match r1 r2 = true ↔ ∃ k, key r1 = Some k ∧ key r2 = Some k ∧ k ≠ "".
Proof.
  unfold is_match, key_truthy. destruct r1 as [[k1|]], r2 as [[k2|]]; simpl.
  - rewrite !andb_true_iff, bool_decide_eq_true. split.
    + intros [[H1 _] [= ->]]. exists k2. by destruct k2.
    + intros (k & [= ->] & [= ->] & Hk). by destruct k.
  - rewrite andb_false_r. split; [done|]. by intros (k & _ & ? & _).
  - split; [done|]. by intros (k & ? & _).
  - split; [done|]. by intros (k & ? & _).
Qed.

Lemma omap_none {A B} (f : A → option B) (l : list A) :
  (∀ x, x ∈ l → f x = None) → omap f l = [].
Proof.
  induction l as [|x l IH]; intros H; [done|]. simpl.
  rewrite (H x) by constructor. apply IH. intros y ?. apply H. by constructor.
Qed.

Section RunFacts.
Context {OState : Type}.
Variable submit : OState → string → OState * option Response.

Local Abbreviation main := (Pipeline.main submit).

Lemma main_paths w o : main_path submit w o.
Proof.
  unfold Pipeline.main.
  destruct (candidates_of w) as [err|checksums] eqn:Hc.
  - unfold candidates_of, parseChecksumFile in Hc.
    destruct (report w) eqn:Hr; [done|]. simplify_eq.
    apply path_missing_report; [done|]. unfold Pipeline.main, candidates_of.
    by rewrite Hr.
  - destruct checksums as [|c rest].
    + apply path_nothing_new; [done|]. unfold Pipeline.main. by rewrite Hc.
    + pose proof (loop_iterations submit (List.length (c :: rest)) (c :: rest) 0
                    (initial o) eq_refl) as Hit.
      destruct (loop submit (List.length (c :: rest)) 0 (c :: rest) (initial o))
        as [evs s] eqn:Hl.
      eapply path_search; [done|done|exact Hit|].
      unfold Pipeline.main. rewrite Hc.
      change (List.length (c :: rest) =? 0) with false. cbv iota. by rewrite Hl.
Qed.

(** The per-candidate events of a run are those of its loop. *)
Lemma positioned_in_loop e j evs (tail : bool) n :
  e ∈ EvLog (MsgFound n) :: evs ++ (if tail then [] else [EvLog MsgNoMatch]) →
  position e = Some j → e ∈ evs.
Proof.
  intros He Hj. apply elem_of_cons in He as [->|He]; [done|].
  apply elem_of_app in He as [?|He]; [done|].
  destruct tail; decompose_list_elem_of; by subst.
Qed.

End RunFacts.

(** A list splits in one way around its only element of a kind. *)
Lemma split_at_unique {A} (P : A → Prop) (pre post l1 l2 : list A) (a b : A) :
  (∀ x, x ∈ l1 → ¬ P x) → P b →
  pre ++ b :: post = l1 ++ a :: l2 → (∀ x, x ∈ l2 → ¬ P x) →
  pre = l1 ∧ b = a ∧ post = l2.
Proof.
  revert l1. induction pre as [|p pre IH]; intros l1 Hl1 Hb Heq Hl2.
  - destruct l1 as [|x l1]; simpl in Heq.
    + by simplify_eq.
    + simplify_eq. exfalso. eapply Hl1; [constructor|done].
  - destruct l1 as [|x l1]; simpl in Heq.
    + simplify_eq. exfalso. eapply (Hl2 b); [|done].
      apply elem_of_app. right. constructor.
    + simplify_eq. destruct (IH l1) as (-> & -> & ->); try done.
      intros y ?. apply Hl1. by constructor.
Qed.

(** Reading the discipline of [progress_follows] at one checkpoint write. *)
Lemma progress_follows_at total (k : nat) : ∀ pre n e post,
  List.length pre ≤ k →
  progress_follows total n (pre ++ e :: post) →
  is_checkpoint e = true →
  ∃ post', post = EvProgress (S (n + checkpoint_count pre)) total :: post'.
Proof.
  induction k as [|k IH]; intros pre n e post Hlen Hp He.
  - destruct pre; [|simpl in Hlen; lia]. simpl in Hp.
    destruct e; try done; destruct post as [|[] post']; try done;
      destruct Hp as (-> & -> & _); rewrite Nat.add_0_r; eauto.
  - destruct pre as [|a pre].
    { apply (IH [] n e post); [simpl; lia|done|done]. }
    simpl in Hlen.
    destruct a; simpl in Hp; try done;
      try (destruct (IH pre n e post) as [post' ->]; [lia|done|done|];
           by eexists).
    + destruct pre as [|[] pre]; simpl in Hp; try done.
      * destruct e; done.
      * destruct Hp as (-> & -> & Hp). simpl in Hlen.
        destruct (IH pre (S n) e post) as [post' ->]; [lia|done|done|].
        unfold checkpoint_count; simpl. rewrite Nat.add_succ_r. by eexists.
    + destruct pre as [|[] pre]; simpl in Hp; try done.
      * destruct e; done.
      * destruct Hp as (-> & -> & Hp). simpl in Hlen.
        destruct (IH pre (S n) e post) as [post' ->]; [lia|done|done|].
        unfold checkpoint_count; simpl. rewrite Nat.add_succ_r. by eexists.
Qed.

(** The discipline is not disturbed by console lines around the trace. *)
Lemma progress_follows_framed total (k : nat) : ∀ evs n m,
  List.length evs ≤ k →
  progress_follows total n evs →
  progress_follows total n (evs ++ [EvLog m]).
Proof.
  induction k as [|k IH]; intros evs n m Hlen Hp.
  - destruct evs; [done|simpl in Hlen; lia].
  - destruct evs as [|a evs]; [done|]. simpl in Hlen.
    destruct a; simpl in *; try done; try (apply IH; [lia|done]).
    + destruct evs as [|[] evs]; simpl in *; try done.
      destruct Hp as (-> & -> & Hp). repeat split. apply IH; [lia|done].
    + destruct evs as [|[] evs]; simpl in *; try done.
      destruct Hp as (-> & -> & Hp). repeat split. apply IH; [lia|done].
Qed.

Lemma elem_of_failed_writes c (evs : list Event) :
  c ∈ failed_writes evs ↔ ∃ j, EvFailed j c ∈ evs.
Proof.
  unfold failed_writes. rewrite list_elem_of_omap. split.
  - intros (e & He & Hc). destruct e; simplify_eq/=. by eexists.
  - intros [j Hj]. by exists (EvFailed j c).
Qed.

Lemma elem_of_processed_writes c (evs : list Event) :
  c ∈ processed_writes evs ↔ ∃ j, EvProcessed j c ∈ evs.
Proof.
  unfold processed_writes. rewrite list_elem_of_omap. split.
  - intros (e & He & Hc). destruct e; simplify_eq/=. by eexists.
  - intros [j Hj]. by exists (EvProcessed j c).
Qed.

Lemma elem_of_answers c k (evs : list Event) :
  (c, k) ∈ answers evs ↔ ∃ j, EvAnswer j c k ∈ evs.
Proof.
  unfold answers. rewrite list_elem_of_omap. split.
  - intros (e & He & Hc). destruct e; simplify_eq/=. by eexists.
  - intros [j Hj]. by exists (EvAnswer j c k).
Qed.

Lemma elem_of_outcomes_at i (e : Event) (evs : list Event) :
  e ∈ outcomes_at i evs → e ∈ evs ∧ position e = Some i.
Proof.
  unfold outcomes_at. rewrite list_elem_of_omap. intros (x & Hx & Hy).
  destruct x; simpl in Hy; try done; case_decide; simplify_eq; done.
Qed.

(** The checksums of a report that are not checkpointed come out once per
    line naming them. *)
Lemma parse_lines_count (existing : gset string) (F : string) (lines : list string) :
  F ∉ existing →
  List.length (filter (λ x, x = F) (parse_lines existing lines))
  = List.length (filter (λ line, names F line = true) lines).
Proof.
  intros HF. induction lines as [|line lines IH]; [done|].
  rewrite parse_lines_cons, filter_app, length_app, IH, filter_cons.
  rewrite line_candidates_split. unfold names.
  destruct (split_comma line) as [|a [|b [|c l]]]; simpl;
    try (by destruct (decide (false = true))).
  destruct (truthy b); simpl; [|by destruct (decide (false = true))].
  destruct (decide (trim b = F)) as [->|Hne].
  - rewrite bool_decide_eq_true_2 by done.
    rewrite decide_False by done. rewrite decide_True by done.
    rewrite filter_cons, decide_True by done. done.
  - rewrite bool_decide_eq_false_2 by done.
    rewrite (decide_False (P := false = true)) by done.
    destruct (decide (trim b ∈ existing)); [done|].
    rewrite filter_cons, decide_False by done. done.
Qed.

Section RunShape.
Context {OState : Type}.
Variable submit : OState → string → OState * option Response.

Local Abbreviation main := (Pipeline.main submit).

(** Every run keeps the progress discipline, counting from zero. *)
Lemma main_progress w o : progress_follows (total_of w) 0 (events (main w o)).
Proof.
  unfold total_of.
  destruct (main_paths submit w o) as [Hr ->| Hc ->|checksums evs s Hc Hne Hit ->];
    cbn [events]; try done.
  rewrite Hc.
  pose proof (iterations_progress _ _ _ _ _ _ _ Hit) as Hp. simpl in Hp.
  change (progress_follows (List.length checksums) 0
            (evs ++ (if matchFound s then [] else [EvLog MsgNoMatch]))).
  destruct (matchFound s); [by rewrite app_nil_r|].
  by apply (progress_follows_framed _ (List.length evs)).
Qed.

(** The answer of a run closes its trace. *)
Lemma main_answer_last w o i c k :
  EvAnswer i c k ∈ events (main w o) →
  ∃ pre r1 r2,
    events (main w o)
    = pre ++ [EvSubmit i c (Some r1); EvSubmit i c (Some r2);
              EvAnswer i c k; EvLog (MsgMatchFound c k)]
    ∧ (∀ e, e ∈ pre → answer_of e = None).
Proof.
  destruct (main_paths submit w o) as [Hr ->| Hc ->|checksums evs s Hc Hne Hit ->];
    cbn [events]; intros He.
  - decompose_list_elem_of. done.
  - decompose_list_elem_of. done.
  - apply (positioned_in_loop _ i) in He; [|done].
    destruct (iterations_answer _ _ _ _ _ _ _ _ _ _ Hit eq_refl He)
      as (pre & r1 & r2 & -> & _ & _ & _ & Hno & ->).
    exists (EvLog (MsgFound (List.length checksums)) :: pre), r1, r2.
    rewrite app_nil_r. split; [done|].
    intros e [->|?]%elem_of_cons; [done|auto].
Qed.

(** The per-candidate events of a run carry the checksum found at their
    position of the candidate sequence. *)
Lemma main_position w o e j :
  e ∈ events (main w o) → position e = Some j →
  ∃ checksums c, candidates_of w = inr checksums ∧ checksums !! j = Some c
                 ∧ checksum_of e = Some c.
Proof.
  destruct (main_paths submit w o) as [Hr ->| Hc ->|checksums evs s Hc Hne Hit ->];
    cbn [events]; intros He Hj.
  - decompose_list_elem_of. by subst.
  - decompose_list_elem_of. by subst.
  - apply (positioned_in_loop _ j) in He; [|done].
    destruct (iterations_position _ _ _ _ _ _ _ Hit _ _ He Hj) as (_ & Hl & [c Hc']).
    rewrite Nat.sub_0_r, Hc' in Hl. by exists checksums, c.
Qed.

End RunShape.

(** * The files after a run *)

Lemma append_assoc (a b c : string) : (a +:+ b) +:+ c = a +:+ b +:+ c.
Proof.
  induction a as [|x a IH]; [done|].
  change (String x ((a +:+ b) +:+ c) = String x (a +:+ b +:+ c)). by f_equal.
Qed.

Lemma append_nil_r (a : string) : a +:+ "" = a.
Proof.
  induction a as [|x a IH]; [done|].
  change (String x (a +:+ "") = String x a). by f_equal.
Qed.

(** The text appended for the checksums written to a log. *)
Lemma foldl_append_lines (written : list string) : ∀ content,
  foldl (λ content checksum, content +:+ checksum +:+ nl) content written
  = content +:+ text_of written.
Proof.
  induction written as [|c written IH]; intros content.
  - simpl. by rewrite append_nil_r.
  - cbn [foldl]. rewrite IH.
    change (text_of (c :: written)) with (c +:+ nl +:+ text_of written).
    by rewrite !append_assoc.
Qed.

Lemma text_of_app (l1 l2 : list string) :
  text_of (l1 ++ l2) = text_of l1 +:+ text_of l2.
Proof.
  induction l1 as [|c l1 IH]; [done|].
  change (c +:+ nl +:+ text_of (l1 ++ l2)
          = (c +:+ nl +:+ text_of l1) +:+ text_of l2).
  by rewrite IH, !append_assoc.
Qed.

(** One line among the lines appended to a log. *)
Lemma append_lines_split (file : option string) (earlier later : list string)
    (c : string) :
  append_lines file (earlier ++ c :: later)
  = Some (default "" file +:+ text_of earlier
          +:+ c +:+ String "010" (text_of later)).
Proof.
  unfold append_lines. by rewrite foldl_append_lines, text_of_app.
Qed.

Section RunFiles.
Context {OState : Type}.
Variable submit : OState → string → OState * option Response.

Local Abbreviation main := (Pipeline.main submit).

(** The files after a run are the files before it with the effects of
    its trace. *)
Lemma world_is_after w o : world (main w o) = after w (events (main w o)).
Proof.
  by destruct (main_paths submit w o) as [Hr ->| Hc ->|checksums evs s Hc Hne Hit ->].
Qed.

(** A write to [failed.txt] or [processed.txt], found in the file after
    the run. *)
Lemma failed_write_in_log w o pre i c post :
  events (main w o) = pre ++ EvFailed i c :: post →
  failedLog (world (main w o))
  = Some (default "" (failedLog w) +:+ text_of (failed_writes pre)
          +:+ c +:+ String "010" (text_of (failed_writes post))).
Proof.
  intros Hev. rewrite world_is_after, Hev. unfold after; cbn [failedLog].
  unfold failed_writes. rewrite omap_app. apply append_lines_split.
Qed.

Lemma processed_write_in_log w o pre i c post :
  events (main w o) = pre ++ EvProcessed i c :: post →
  processedLog (world (main w o))
  = Some (default "" (processedLog w) +:+ text_of (processed_writes pre)
          +:+ c +:+ String "010" (text_of (processed_writes post))).
Proof.
  intros Hev. rewrite world_is_after, Hev. unfold after; cbn [processedLog].
  unfold processed_writes. rewrite omap_app. apply append_lines_split.
Qed.

(** No event of a run belongs to a candidate after the one that matched. *)
Lemma main_halts_at w o i c k e j :
  EvAnswer i c k ∈ events (main w o) →
  e ∈ events (main w o) → position e = Some j → j ≤ i.
Proof.
  destruct (main_paths submit w o) as [Hr ->| Hc ->|checksums evs s Hc Hne Hit ->];
    cbn [events]; intros Ha He Hj.
  - decompose_list_elem_of. done.
  - decompose_list_elem_of. done.
  - apply (positioned_in_loop _ i) in Ha; [|done].
    apply (positioned_in_loop _ j) in He; [|done].
    destruct (iterations_answer _ _ _ _ _ _ _ _ _ _ Hit eq_refl Ha)
      as (pre & r1 & r2 & -> & _ & _ & Hpre & _ & _).
    apply elem_of_app in He as [He|He].
    + specialize (Hpre _ _ He Hj). lia.
    + decompose_list_elem_of; subst; simpl in *; simplify_eq; lia.
Qed.

End RunFiles.

(** * The claims *)

Section Claims.
Context {OState : Type}.
Variable submit : OState → string → OState * option Response.

Local Abbreviation main := (Pipeline.main submit).
Local Abbreviation script := (Pipeline.script submit).

(** C1 — Termination correctness.  A run writes the result file (and so
    halts on a match) if and only if some candidate got two responses
    that both carry a non-empty key, the two keys being equal.  When it
    does, [ans.txt] is the two lines [checksum: ] and [key: ] followed by
    that candidate's checksum and by the common key, the answer closes
    the trace right after the two responses, and no
    event of the run, in particular no submission, belongs to a
    candidate after the matching one. *)
Theorem C1_match_iff_agreeing_responses (w : World) (o : OState) :
  ((∃ i c k, EvAnswer i c k ∈ events (main w o))
   ↔ (∃ i r1 r2 k, responses_at i (events (main w o)) = [Some r1; Some r2]
                   ∧ key r1 = Some k ∧ key r2 = Some k ∧ k ≠ ""))
  ∧ (∀ i c k, EvAnswer i c k ∈ events (main w o) →
       ansFile (world (main w o))
       = Some ("checksum: " +:+ c +:+ String "010" ("key: " +:+ k +:+ String "010" ""))
       ∧ (∃ checksums, candidates_of w = inr checksums ∧ checksums !! i = Some c)
       ∧ (∃ pre r1 r2,
            events (main w o)
            = pre ++ [EvSubmit i c (Some r1); EvSubmit i c (Some r2);
                      EvAnswer i c k; EvLog (MsgMatchFound c k)]
            ∧ key r1 = Some k ∧ key r2 = Some k ∧ k ≠ "")
       ∧ (∀ e j, e ∈ events (main w o) → position e = Some j → j ≤ i)).
Proof.
  destruct (main_paths submit w o) as [Hr ->| Hc ->|checksums evs s Hc Hne Hit ->];
    cbn [events world].
  - split; [split|].
    + intros (i & c & k & ?). decompose_list_elem_of. done.
    + intros (i & r1 & r2 & k & ? & _). done.
    + intros i c k ?. decompose_list_elem_of. done.
  - split; [split|].
    + intros (i & c & k & ?). decompose_list_elem_of. done.
    + intros (i & r1 & r2 & k & ? & _). done.
    + intros i c k ?. decompose_list_elem_of. done.
  - set (tail := if matchFound s then [] else [EvLog MsgNoMatch]).
    assert (∀ e j, e ∈ EvLog (MsgFound (List.length checksums)) :: evs ++ tail →
                   position e = Some j → e ∈ evs) as Hin.
    { intros e j. apply positioned_in_loop. }
    assert (∀ i, responses_at i (EvLog (MsgFound (List.length checksums)) :: evs ++ tail)
                 = responses_at i evs) as Hresp.
    { intros i. rewrite responses_at_cons. simpl. rewrite responses_at_app.
      unfold tail. destruct (matchFound s); simpl; by rewrite app_nil_r. }
    assert (∀ i c k, EvAnswer i c k ∈ evs →
              ∃ pre r1 r2,
                evs = pre ++ [EvSubmit i c (Some r1); EvSubmit i c (Some r2);
                              EvAnswer i c k; EvLog (MsgMatchFound c k)]
                ∧ (key r1 = Some k ∧ key r2 = Some k ∧ k ≠ "")
                ∧ (∀ e j', e ∈ pre → position e = Some j' → j' < i)
                ∧ (∀ e, e ∈ pre → answer_of e = None)
                ∧ tail = []) as Hans.
    { intros i c k He.
      destruct (iterations_answer _ _ _ _ _ _ _ _ _ _ Hit eq_refl He)
        as (pre & r1 & r2 & Hevs & Hm & Hk & Hpre & Hno & Hs).
      exists pre, r1, r2. repeat split; try done.
      - apply is_match_spec in Hm as (k' & Hk1 & Hk2 & ?).
        unfold key_text in Hk. rewrite Hk1 in Hk. simpl in Hk. by subst.
      - apply is_match_spec in Hm as (k' & Hk1 & Hk2 & ?).
        unfold key_text in Hk. rewrite Hk1 in Hk. simpl in Hk. by subst.
      - apply is_match_spec in Hm as (k' & Hk1 & Hk2 & ?).
        unfold key_text in Hk. rewrite Hk1 in Hk. simpl in Hk. by subst.
      - unfold tail. by rewrite Hs. }
    split; [split|].
    + intros (i & c & k & He). apply (Hin _ i) in He; [|done].
      destruct (Hans _ _ _ He) as (pre & r1 & r2 & Hevs & (? & ? & ?) & Hpre & _ & _).
      exists i, r1, r2, k. rewrite Hresp, Hevs, responses_at_app.
      rewrite (responses_at_elsewhere i pre).
      * unfold responses_at; simpl. rewrite !decide_True by done. done.
      * intros e j' He' Hj'. specialize (Hpre _ _ He' Hj'). lia.
    + intros (i & r1 & r2 & k & Hr & Hk1 & Hk2 & Hk). rewrite Hresp in Hr.
      destruct (iterations_responses _ _ _ _ _ _ _ _ r1 r2 Hit eq_refl Hr) as [c Hc'].
      { apply is_match_spec. eauto. }
      exists i, c, (key_text r1). apply elem_of_cons. right.
      apply elem_of_app. by left.
    + intros i c k He. apply (Hin _ i) in He; [|done].
      destruct (Hans _ _ _ He) as (pre & r1 & r2 & Hevs & (? & ? & ?) & Hpre & Hno & Htail).
      split; [|split; [|split]].
      * unfold after, write_answer, answers; cbn [ansFile].
        rewrite Htail, app_nil_r, Hevs.
        change (omap answer_of (?x :: ?l)) with (omap answer_of l).
        rewrite omap_app, (omap_none _ pre) by done. done.
      * exists checksums. split; [done|].
        destruct (iterations_position _ _ _ _ _ _ _ Hit _ _ He eq_refl) as (_ & Hl & _).
        by rewrite Nat.sub_0_r in Hl.
      * exists (EvLog (MsgFound (List.length checksums)) :: pre), r1, r2.
        rewrite Htail, app_nil_r, Hevs. done.
      * intros e j He' Hj. apply (Hin _ j) in He'; [|done].
        rewrite Hevs in He'. apply elem_of_app in He' as [He'|He'].
        -- specialize (Hpre _ _ He' Hj). lia.
        -- decompose_list_elem_of; subst; simpl in *; simplify_eq; lia.
Qed.

(** C2 — Dedup idempotence.  A checksum found in [processed.txt] or in
    [failed.txt] at startup, whichever of the two, is not in the candidate
    sequence read from the report and is never submitted by the run. *)
Theorem C2_checkpointed_never_submitted (w : World) (o : OState) (F : string) :
  F ∈ readExistingChecksums (processedLog w) ∪ readExistingChecksums (failedLog w) →
  (∀ checksums, candidates_of w = inr checksums → F ∉ checksums)
  ∧ (∀ i r, EvSubmit i F r ∉ events (main w o)).
Proof.
  intros HF.
  assert (∀ checksums, candidates_of w = inr checksums → F ∉ checksums) as Hnot.
  { intros checksums Hc HFc. unfold candidates_of, parseChecksumFile in Hc.
    destruct (report w); simplify_eq.
    apply parse_lines_fresh in HFc. apply HFc. unfold existing_of.
    by rewrite !readExistingChecksums_open. }
  split; [done|]. intros i r He.
  destruct (main_position submit _ _ _ i He eq_refl) as (checksums & c & Hc & Hl & [= <-]).
  apply (Hnot _ Hc). by eapply list_elem_of_lookup_2.
Qed.

(** C8 — Failure on the first submission.  When the first call for the
    candidate at position [i] resolves to [null], the next two events are
    the write of its checksum to [failed.txt] and the progress report; no
    second call is made for the candidate and its only outcome is the
    [failed] record.  The line is in [failed.txt] after the run: the file
    is its content at startup, the lines the run wrote before, the
    checksum and a line feed, and the lines written later.  The run goes
    on: when there is a next candidate, its first call is the next event,
    and the run ends with [process.exit(0)]. *)
Theorem C8_first_failure_goes_to_failed (w : World) (o : OState)
    (pre post : list Event) (i : nat) (c : string) :
  events (main w o) = pre ++ EvSubmit i c None :: post →
  responses_at i pre = [] →
  ∃ post',
    post = EvFailed i c :: EvProgress (S (checkpoint_count pre)) (total_of w) :: post'
    ∧ responses_at i (events (main w o)) = [None]
    ∧ outcomes_at i (events (main w o)) = [EvFailed i c]
    ∧ failedLog (world (main w o))
      = Some (default "" (failedLog w) +:+ text_of (failed_writes pre)
              +:+ c +:+ String "010" (text_of (failed_writes post')))
    ∧ (∀ checksums c', candidates_of w = inr checksums →
         checksums !! S i = Some c' →
         ∃ answer later, post' = EvSubmit (S i) c' answer :: later)
    ∧ termination (main w o) = ProcessExit 0.
Proof.
  intros Hev Hresp.
  destruct (main_paths submit w o) as [Hr Hm| Hc Hm|checksums evs s Hc Hne Hit Hm].
  { rewrite Hm in Hev. cbn [events] in Hev.
    destruct pre as [|x [|y pre]]; simplify_eq/=. }
  { rewrite Hm in Hev. cbn [events] in Hev.
    destruct pre as [|x [|y pre]]; simplify_eq/=. }
  set (tail := if matchFound s then [] else [EvLog MsgNoMatch]) in *.
  assert (events (main w o) = EvLog (MsgFound (List.length checksums)) :: evs ++ tail)
    as Hall by (by rewrite Hm).
  assert (∀ e j, e ∈ tail → position e = Some j → False) as Htail.
  { intros e j He Hj. unfold tail in He.
    destruct (matchFound s); decompose_list_elem_of; by subst. }
  clearbody tail.
  assert (∃ pre0 post0, pre = EvLog (MsgFound (List.length checksums)) :: pre0
                        ∧ evs = pre0 ++ EvSubmit i c None :: post0
                        ∧ post = post0 ++ tail) as (pre0 & post0 & -> & Hevs & ->).
  { rewrite Hall in Hev. destruct pre as [|x pre0]; [by simplify_eq/=|].
    simpl in Hev. injection Hev as <- H0. exists pre0.
    apply app_eq_inv in H0 as [(l & Hl1 & Hl2)|(l & Hl1 & Hl2)].
    - destruct l as [|e l]; simpl in Hl2.
      + exfalso. apply (Htail (EvSubmit i c None) i); [|done].
        rewrite <- Hl2. left.
      + injection Hl2 as <- ->. by exists l.
    - exfalso. apply (Htail (EvSubmit i c None) i); [|done].
      rewrite Hl2. apply elem_of_app. right. left. }
  assert (responses_at i pre0 = []) as Hresp0.
  { by rewrite responses_at_cons in Hresp. }
  destruct (iterations_failed_first _ _ _ _ _ _ _ Hit eq_refl _ _ _ _ Hevs Hresp0)
    as (p & post' & -> & Hpre & Hpost & Hnext).
  exists (post' ++ tail).
  assert (total_of w = List.length checksums) as Htotal.
  { unfold total_of. by rewrite Hc. }
  assert (events (main w o)
          = (EvLog (MsgFound (List.length checksums)) :: pre0 ++ [EvSubmit i c None])
              ++ EvFailed i c :: EvProgress p (List.length checksums) :: post' ++ tail)
    as Hev2.
  { rewrite Hev. simpl. by rewrite <- app_assoc. }
  split; [|split; [|split; [|split; [|split]]]].
  - pose proof (main_progress submit w o) as Hp. rewrite Hev2 in Hp.
    destruct (progress_follows_at (total_of w)
                (List.length (EvLog (MsgFound (List.length checksums))
                                :: pre0 ++ [EvSubmit i c None]))
                (EvLog (MsgFound (List.length checksums)) :: pre0 ++ [EvSubmit i c None])
                0 (EvFailed i c)
                (EvProgress p (List.length checksums) :: post' ++ tail))
      as [post'' Hpost'']; [done|done|done|].
    injection Hpost'' as -> _. simpl. rewrite Htotal. do 3 f_equal.
    unfold checkpoint_count. rewrite !filter_cons. simpl.
    rewrite filter_app, length_app. simpl. lia.
  - rewrite Hev, responses_at_app, Hresp, app_nil_l. cbn [app].
    rewrite responses_at_cons. cbn [response_at]. rewrite decide_True by done.
    rewrite !responses_at_cons. cbn [response_at]. f_equal.
    apply responses_at_elsewhere. intros e j [He|He]%elem_of_app Hj.
    + specialize (Hpost _ _ He Hj). lia.
    + destruct (Htail _ _ He Hj).
  - rewrite Hev, outcomes_at_app.
    rewrite (outcomes_at_elsewhere i (EvLog _ :: pre0)), app_nil_l.
    + cbn [app]. rewrite !outcomes_at_cons. cbn [outcome_at].
      rewrite decide_True by done.
      f_equal. apply outcomes_at_elsewhere. intros e j [He|He]%elem_of_app Hj.
      * specialize (Hpost _ _ He Hj). lia.
      * destruct (Htail _ _ He Hj).
    + intros e j [->|He]%elem_of_cons Hj; [done|].
      specialize (Hpre _ _ He Hj). lia.
  - rewrite (failed_write_in_log submit w o _ _ _ _ Hev2).
    do 3 f_equal. unfold failed_writes. simpl. rewrite omap_app. simpl.
    by rewrite app_nil_r.
  - intros cs c' Hcs Hc'. rewrite Hc in Hcs. simplify_eq.
    destruct (Hnext c') as (answer & later & ->).
    { by rewrite Nat.sub_0_r. }
    by exists answer, (later ++ tail).
  - by rewrite Hm.
Qed.

(** C9 (amended) — Progress.  After each line written to [failed.txt] or
    [processed.txt] the next event is the progress report, carrying the
    number of checkpoint lines written so far in the run, this one
    included, and [totalChecksums].  After the answer of the halting match
    there is no progress report: only the banner follows. *)
Theorem C9_progress_after_checkpoint_writes (w : World) (o : OState)
    (pre post : list Event) (e : Event) :
  events (main w o) = pre ++ e :: post →
  (is_checkpoint e = true →
     ∃ post', post = EvProgress (S (checkpoint_count pre)) (total_of w) :: post')
  ∧ (∀ i c k, e = EvAnswer i c k → post = [EvLog (MsgMatchFound c k)]).
Proof.
  intros Hev. split.
  - intros He. pose proof (main_progress submit w o) as Hp. rewrite Hev in Hp.
    destruct (progress_follows_at (total_of w) (List.length pre) pre 0 e post)
      as [post' ->]; [done|done|done|]. by eexists.
  - intros i c k ->.
    destruct (main_answer_last submit w o i c k) as (pre' & r1 & r2 & Heq & Hno).
    { rewrite Hev. apply elem_of_app. right. constructor. }
    rewrite Hev in Heq.
    change (pre' ++ [EvSubmit i c (Some r1); EvSubmit i c (Some r2);
                     EvAnswer i c k; EvLog (MsgMatchFound c k)])
      with (pre' ++ [EvSubmit i c (Some r1); EvSubmit i c (Some r2)]
              ++ EvAnswer i c k :: [EvLog (MsgMatchFound c k)]) in Heq.
    rewrite app_assoc in Heq.
    apply (split_at_unique (λ x, is_Some (answer_of x))) in Heq as (_ & _ & ->);
      [done| |by eexists|].
    + intros x [Hx|Hx]%elem_of_app [y Hy].
      * by rewrite (Hno _ Hx) in Hy.
      * decompose_list_elem_of; by subst.
    + intros x Hx [y Hy]. decompose_list_elem_of; by subst.
Qed.

(** C10 (amended) — No dedup within a run.  A checksum that is in neither
    checkpoint set at startup occurs in the candidate sequence once per
    report line naming it.  The loop never looks at what it has recorded:
    when the checksum stands at positions [i < j] and the run gets as far
    as [j] (no match halted it before), the earlier occurrence has been
    written to [failed.txt] or to [processed.txt], where the line is found
    after the run, and the later occurrence is submitted all the same.
    Only a match stops it: nothing is submitted for a position after the
    one that matched. *)
Theorem C10_duplicates_are_resubmitted (w : World) (o : OState) (F content : string)
    (checksums : list string) :
  F ∉ readExistingChecksums (processedLog w) ∪ readExistingChecksums (failedLog w) →
  report w = Some content →
  candidates_of w = inr checksums →
  List.length (filter (λ x, x = F) checksums)
  = List.length (filter (λ line, names F line = true) (read_lines content))
  ∧ (∀ i j, i < j → checksums !! i = Some F → checksums !! j = Some F →
       (∀ j' x k, EvAnswer j' x k ∈ events (main w o) → j ≤ j') →
       ((EvFailed i F ∈ events (main w o)
         ∧ ∃ earlier later,
             failedLog (world (main w o))
             = Some (default "" (failedLog w) +:+ text_of earlier
                     +:+ F +:+ String "010" (text_of later)))
        ∨ (EvProcessed i F ∈ events (main w o)
           ∧ ∃ earlier later,
               processedLog (world (main w o))
               = Some (default "" (processedLog w) +:+ text_of earlier
                       +:+ F +:+ String "010" (text_of later))))
       ∧ ∃ answer, EvSubmit j F answer ∈ events (main w o))
  ∧ (∀ j j' x k, EvAnswer j' x k ∈ events (main w o) → j' < j →
       ∀ c answer, EvSubmit j c answer ∉ events (main w o)).
Proof.
  intros HF Hr Hc. split; [|split].
  - unfold candidates_of, parseChecksumFile in Hc. rewrite Hr in Hc. simplify_eq.
    apply parse_lines_count. unfold existing_of.
    by rewrite !readExistingChecksums_open.
  - assert (∀ i,
              (EvFailed i F ∈ events (main w o) →
               ∃ earlier later,
                 failedLog (world (main w o))
                 = Some (default "" (failedLog w) +:+ text_of earlier
                         +:+ F +:+ String "010" (text_of later)))
              ∧ (EvProcessed i F ∈ events (main w o) →
                 ∃ earlier later,
                   processedLog (world (main w o))
                   = Some (default "" (processedLog w) +:+ text_of earlier
                           +:+ F +:+ String "010" (text_of later)))) as Hlog.
    { intros i. split; intros (pre & post & Hev)%list_elem_of_split.
      - eexists _, _. by apply (failed_write_in_log submit w o pre i F post).
      - eexists _, _. by apply (processed_write_in_log submit w o pre i F post). }
    intros i j Hij Hi Hj Hno.
    destruct (main_paths submit w o) as [? Hmain| Hc' Hmain|cs evs s Hc' Hne Hit Hmain].
    + congruence.
    + rewrite Hc in Hc'. by simplify_eq.
    + rewrite Hc in Hc'. simplify_eq.
      assert (∀ e, e ∈ evs → e ∈ events (main w o)) as Hin.
      { intros e ?. rewrite Hmain. cbn [events]. apply elem_of_cons. right.
        apply elem_of_app. by left. }
      assert (∀ j' x k, EvAnswer j' x k ∈ evs → j ≤ j') as Hno'.
      { intros j' x k ?. eapply Hno. by apply Hin. }
      destruct (iterations_reached _ _ _ _ _ _ _ i F Hit eq_refl) as [ri Hsi];
        [lia|by rewrite Nat.sub_0_r| |].
      { intros j' x k Hx. specialize (Hno' _ _ _ Hx). lia. }
      destruct (iterations_reached _ _ _ _ _ _ _ j F Hit eq_refl) as [rj Hsj];
        [lia|by rewrite Nat.sub_0_r|done|].
      split; [|eauto].
      destruct (iterations_outcome _ _ _ _ _ _ _ _ _ _ Hit Hsi) as (e & He & Hcase).
      assert (e ∈ evs) as Hee.
      { eapply elem_of_outcomes_at. rewrite He. constructor. }
      destruct Hcase as [->|[->|[k ->]]].
      * left. split; [by apply Hin|]. apply (Hlog i). by apply Hin.
      * right. split; [by apply Hin|]. apply (Hlog i). by apply Hin.
      * specialize (Hno' _ _ _ Hee). lia.
  - intros j j' x k Ha Hlt c answer He.
    pose proof (main_halts_at submit w o j' x k _ j Ha He eq_refl). lia.
Qed.

(** C3 (amended) — Checkpoint completeness, per candidate of the sequence.
    Every candidate that the run submitted left exactly one outcome record:
    its checksum in [failed.txt], or in [processed.txt], or in [ans.txt].
    So a checksum that stands once in the candidate sequence ends up in
    exactly one of the three.  A run cut short while a submission of the
    candidate at position [i] is pending has written no outcome for that
    candidate, and none for its checksum when that stands only there; and a
    run that is not cut short leaves the loop with the effects of [main]'s
    loop.  No candidate is in a checkpoint set at startup. *)
Theorem C3_one_outcome_per_candidate (w : World) (o : OState)
    (checksums : list string) :
  candidates_of w = inr checksums →
  (∀ i c r, EvSubmit i c r ∈ events (main w o) →
     checksums !! i = Some c
     ∧ (∃ e, outcomes_at i (events (main w o)) = [e]
             ∧ (e = EvFailed i c ∨ e = EvProcessed i c ∨ ∃ k, e = EvAnswer i c k))
     ∧ (only_at checksums c i →
        exactly_one (c ∈ failed_writes (events (main w o)))
                    (c ∈ processed_writes (events (main w o)))
                    (∃ k, (c, k) ∈ answers (events (main w o)))))
  ∧ (∀ n,
       let m := steps submit (List.length checksums) n (start checksums (initial o)) in
       match pc m with
       | AwaitFirst i c rest | AwaitSecond i c _ rest =>
           checksums !! i = Some c
           ∧ outcomes_at i (done_events m) = []
           ∧ (only_at checksums c i →
              (c ∉ failed_writes (done_events m))
              ∧ (c ∉ processed_writes (done_events m))
              ∧ ∀ k, (c, k) ∉ answers (done_events m))
       | LoopDone =>
           (done_events m, vars m)
           = loop submit (List.length checksums) 0 checksums (initial o)
       end)
  ∧ (∀ c, c ∈ checksums →
       c ∉ readExistingChecksums (processedLog w)
           ∪ readExistingChecksums (failedLog w)).
Proof.
  intros Hc. split; [|split]; cycle 2.
  { intros c Hin. unfold candidates_of, parseChecksumFile in Hc.
    destruct (report w); simplify_eq.
    apply parse_lines_fresh in Hin. unfold existing_of in Hin.
    by rewrite !readExistingChecksums_open in Hin. }
  - intros i c r He.
    destruct (main_position submit _ _ _ i He eq_refl) as (cs & c' & Hc' & Hl & [= <-]).
    rewrite Hc in Hc'. simplify_eq.
    assert (∃ e, outcomes_at i (events (main w o)) = [e]
                 ∧ (e = EvFailed i c ∨ e = EvProcessed i c ∨ ∃ k, e = EvAnswer i c k))
      as (e & Hout & Hcase).
    { destruct (main_paths submit w o) as [? Hm| ? Hm|cs' evs s Hc' Hne Hit Hm];
        rewrite Hm in He |- *; cbn [events] in *.
      - decompose_list_elem_of. done.
      - decompose_list_elem_of. done.
      - apply (positioned_in_loop _ i) in He; [|done].
        destruct (iterations_outcome _ _ _ _ _ _ _ _ _ _ Hit He) as (e & Hout & Hcase).
        exists e. split; [|done].
        rewrite outcomes_at_cons, outcomes_at_app. simpl. rewrite Hout.
        by destruct (matchFound s). }
    split; [done|]. split; [by exists e|].
    intros Honly.
    assert (∀ e', e' ∈ events (main w o) → checksum_of e' = Some c →
                  is_outcome e' = true → e' = e) as Hsame.
    { intros e' He' Hce Hrec.
      assert (∃ j, position e' = Some j) as [j Hj].
      { destruct e'; simpl in *; try done; by eexists. }
      destruct (main_position submit _ _ _ j He' Hj) as (cs2 & c' & Hc' & Hl' & Hce').
      rewrite Hc in Hc'. simplify_eq.
      apply Honly in Hl' as ->.
      assert (e' ∈ outcomes_at i (events (main w o))) as Hin.
      { unfold outcomes_at. apply list_elem_of_omap. exists e'. split; [done|].
        destruct e'; simpl in *; try done; simplify_eq;
          by rewrite decide_True. }
      rewrite Hout in Hin. by apply list_elem_of_singleton in Hin. }
    assert (e ∈ events (main w o)) as Hein.
    { eapply elem_of_outcomes_at. rewrite Hout. constructor. }
    unfold exactly_one.
    rewrite elem_of_failed_writes, elem_of_processed_writes.
    destruct Hcase as [->|[->|[k ->]]]; [left|right; left|right; right];
      repeat split;
      try (by exists i); try (by exists k; apply elem_of_answers; exists i);
      try (intros [j Hj]; by pose proof (Hsame _ Hj eq_refl eq_refl));
      try (intros [k' [j Hj]%elem_of_answers];
           by pose proof (Hsame _ Hj eq_refl eq_refl)).
  - intros n m.
    pose proof (steps_consistent submit (List.length checksums) n checksums (initial o)
                  (start checksums (initial o))
                  (start_consistent submit (List.length checksums) checksums
                     (initial o) eq_refl)) as Hm.
    fold m in Hm. unfold Engine.consistent in Hm.
    assert (∀ done evs sd i c rest,
              checksums = done ++ c :: rest → i = List.length done →
              loop submit (List.length checksums) 0 done (initial o) = (evs, sd) →
              ∀ tr, tr = evs ∨ (∃ r1, tr = evs ++ [EvSubmit i c (Some r1)]) →
              checksums !! i = Some c
              ∧ outcomes_at i tr = []
              ∧ (only_at checksums c i →
                 (c ∉ failed_writes tr) ∧ (c ∉ processed_writes tr)
                 ∧ ∀ k, (c, k) ∉ answers tr)) as Hwait.
    { intros done evs sd i c rest -> -> Hl tr Htr.
      pose proof (loop_iterations submit (List.length (done ++ c :: rest)) done 0
                    (initial o) eq_refl) as Hit.
      rewrite Hl in Hit. simpl in Hit.
      assert (∀ e j, e ∈ tr → position e = Some j →
                (e ∈ evs ∧ j < List.length done ∧ done !! j = Some (default "" (checksum_of e)))
                ∨ (∃ r1, e = EvSubmit (List.length done) c (Some r1))) as Hpos.
      { intros e j He Hj. destruct Htr as [->|[r1 ->]].
        - left. split; [done|].
          destruct (iterations_position _ _ _ _ _ _ _ Hit _ _ He Hj) as (_ & Hd & _).
          rewrite Nat.sub_0_r in Hd. split; [by eapply lookup_lt_Some|done].
        - apply elem_of_app in He as [He|He].
          + left. split; [done|].
            destruct (iterations_position _ _ _ _ _ _ _ Hit _ _ He Hj) as (_ & Hd & _).
            rewrite Nat.sub_0_r in Hd. split; [by eapply lookup_lt_Some|done].
          + right. exists r1. by apply list_elem_of_singleton in He. }
      split; [by rewrite list_lookup_middle|]. split.
      - apply omap_none. intros e He.
        destruct e; simpl; try done; case_decide; try done; subst;
          (destruct (Hpos _ _ He eq_refl) as [(_ & ? & _)|[r1 ?]]; [lia|done]).
      - intros Honly.
        assert (∀ e, e ∈ tr → checksum_of e = Some c →
                     ∃ r1, e = EvSubmit (List.length done) c (Some r1)) as Hsub.
        { intros e He Hce.
          assert (∃ j, position e = Some j) as [j Hj].
          { destruct e; simpl in *; try done; by eexists. }
          destruct (Hpos _ _ He Hj) as [(_ & Hlt & Hd)|?]; [|done].
          rewrite Hce in Hd. simpl in Hd.
          assert ((done ++ c :: rest) !! j = Some c) as Hj'.
          { by rewrite lookup_app_l. }
          apply Honly in Hj'. lia. }
        repeat split.
        + unfold failed_writes. rewrite list_elem_of_omap.
          intros (e & He & Hfe). destruct e; simplify_eq/=.
          by destruct (Hsub _ He eq_refl).
        + unfold processed_writes. rewrite list_elem_of_omap.
          intros (e & He & Hfe). destruct e; simplify_eq/=.
          by destruct (Hsub _ He eq_refl).
        + intros k. unfold answers. rewrite list_elem_of_omap.
          intros (e & He & Hfe). destruct e; simplify_eq/=.
          by destruct (Hsub _ He eq_refl). }
    destruct (pc m) as [i c rest|i c r1 rest|].
    + destruct Hm as (done & Hcs & Hi & Hl & _).
      eapply Hwait; eauto.
    + destruct Hm as (done & sd & Hcs & Hi & _ & Htr & Hsd & _).
      destruct (loop submit (List.length checksums) 0 done (initial o)) as [evs sd'] eqn:Hl.
      eapply Hwait; eauto.
    + done.
Qed.

(** C5 (amended) — Missing report and exit status.  When the report file
    does not exist, the run fails with the file-not-found error before
    anything else happens: the only event is the diagnostic on the error
    console, nothing is submitted and no line is written to a checkpoint
    log or to the result file.  The exit status does not follow from that
    error.  In an existing directory, where the two logs open, the process
    ends with status 0 in every run, with the report or without it, with a
    match or without one.  In a directory that does not exist the report is
    missing as well, the diagnostic is printed all the same, no file is
    created, and the process ends with status 1 on the stream error that
    nobody handles. *)
Theorem C5_missing_report_and_exit_status (site : Site) (o : OState) :
  (report (files site) = None →
     events (script site o)
     = [EvError ("File not found: " +:+ reportPath (files site))]
     ∧ service (script site o) = o
     ∧ world (script site o)
       = match site with
         | InDirectory w =>
             mkWorld (reportPath w) None (Some (default "" (processedLog w)))
               (Some (default "" (failedLog w))) (ansFile w)
         | NoDirectory path => mkWorld path None None None None
         end)
  ∧ (∀ w, site = InDirectory w →
       exit_status (termination (script site o)) = 0%Z
       ∧ (report w = None →
            termination (script site o)
            = RejectionLogged ("File not found: " +:+ reportPath w)))
  ∧ (∀ path, site = NoDirectory path →
       report (files site) = None
       ∧ termination (script site o) = UnhandledStreamError
       ∧ exit_status (termination (script site o)) = 1%Z).
Proof.
  split; [|split].
  - intros Hr. destruct site as [w|path]; cbn [files Pipeline.script] in *.
    + destruct (main_paths submit w o) as [_ ->| Hc _|checksums evs s Hc _ _ _];
        [|unfold candidates_of, parseChecksumFile in Hc; by rewrite Hr in Hc..].
      cbn [events service world]. unfold after. by rewrite Hr.
    + done.
  - intros w ->. cbn [Pipeline.script].
    destruct (main_paths submit w o) as [Hr ->| Hc ->|checksums evs s Hc Hne Hit ->];
      cbn [termination exit_status]; split; try done.
    + intros Hr. unfold candidates_of, parseChecksumFile in Hc. by rewrite Hr in Hc.
    + intros Hr. unfold candidates_of, parseChecksumFile in Hc. by rewrite Hr in Hc.
  - intros path ->. done.
Qed.

(** C6 (amended) — Nothing new to check.  When the report yields no new
    candidate, the run prints that there is nothing to do and returns; the
    process ends with status 0, nothing is submitted, and nothing is
    appended to a checkpoint log or written to the result file.  The two
    logs have still been opened for appending at startup: a log that
    existed keeps its content, a log that did not exist is now an empty
    file. *)
Theorem C6_nothing_new_appends_nothing (w : World) (o : OState) :
  candidates_of w = inr [] →
  events (main w o) = [EvLog MsgNoNewChecksums]
  ∧ termination (main w o) = Returned
  ∧ exit_status (termination (main w o)) = 0%Z
  ∧ service (main w o) = o
  ∧ processedLog (world (main w o)) = Some (default "" (processedLog w))
  ∧ failedLog (world (main w o)) = Some (default "" (failedLog w))
  ∧ ansFile (world (main w o)) = ansFile w
  ∧ report (world (main w o)) = report w.
Proof.
  intros Hc.
  destruct (main_paths submit w o) as [Hr Hm| Hc' Hm|checksums evs s Hc' Hne Hit Hm].
  - unfold candidates_of, parseChecksumFile in Hc. by rewrite Hr in Hc.
  - rewrite Hm. done.
  - rewrite Hc in Hc'. by simplify_eq.
Qed.

End Claims.

(** C4 (amended) — Parsing rule.  Reading the report never aborts, and each
    line adds to the candidate sequence on its own, whatever the lines
    around it.  A line whose split on the comma does not give exactly two
    fields, or whose second field is empty, adds nothing.  A line with
    exactly two fields whose second field is not blank adds that field,
    trimmed, unless it is already checkpointed; the first field (the label)
    is not looked at and may be empty. *)
Theorem C4_report_line_rule (existing : gset string) (filePath content : string)
    (before after : list string) (line : string) :
  parseChecksumFile filePath (Some content) existing
  = inr (parse_lines existing (read_lines content))
  ∧ parse_lines existing (before ++ line :: after)
    = parse_lines existing before ++ line_candidates existing line
        ++ parse_lines existing after
  ∧ ((List.length (split_comma line) ≠ 2 ∨ nth 1 (split_comma line) "" = "") →
       line_candidates existing line = [])
  ∧ (∀ label field, split_comma line = [label; field] → trim field ≠ "" →
       line_candidates existing line
       = if decide (trim field ∈ existing) then [] else [trim field]).
Proof.
  split; [done|]. split; [|split].
  - by rewrite parse_lines_app, parse_lines_cons.
  - rewrite line_candidates_split.
    destruct (split_comma line) as [|a [|b [|c l]]]; simpl; try done.
    intros [?| ->]; done.
  - intros label field Hsplit Hfield. rewrite line_candidates_split, Hsplit.
    destruct field; [done|done].
Qed.

(** C7 (amended) — Loading a checkpoint log.  The loaded set is the set of
    the trimmed lines of the file, no line being left out: a blank line
    puts the empty string in the set.  A log file that does not exist loads
    as the empty set. *)
Theorem C7_loaded_set_is_trimmed_lines (file : option string) (x : string) :
  (x ∈ readExistingChecksums file
   ↔ ∃ content line, file = Some content ∧ line ∈ read_lines content ∧ x = trim line)
  ∧ readExistingChecksums None = ∅.
Proof.
  split; [|done]. destruct file as [content|]; simpl.
  - rewrite elem_of_load_lines. split.
    + intros (line & ? & ?). by exists content, line.
    + intros (content' & line & [= <-] & ? & ?). by exists line.
  - split; [by intros ?%not_elem_of_empty|]. by intros (? & ? & ? & _).
Qed.

(** * The claims on concrete runs *)

(** Scenario A of the specification: [a1] mismatches, [a2] matches, [a3] is
    never submitted. *)
Example scenario_A_events :
  events (main (by_checksum scenario_A_table) scenario_A_world tt)
  = [EvLog (MsgFound 3);
     EvSubmit 0 "a1" without_key; EvSubmit 0 "a1" without_key;
     EvProcessed 0 "a1"; EvProgress 1 3;
     EvSubmit 1 "a2" (with_key "K"); EvSubmit 1 "a2" (with_key "K");
     EvAnswer 1 "a2" "K"; EvLog (MsgMatchFound "a2" "K")].
Proof. vm_compute. reflexivity. Qed.

Example scenario_A_files :
  world (main (by_checksum scenario_A_table) scenario_A_world tt)
  = mkWorld "./checksum_report.txt" (report scenario_A_world)
      (Some (text_of ["a1"])) (Some "")
      (Some (text_of ["checksum: a2"; "key: K"])).
Proof. vm_compute. reflexivity. Qed.

Example scenario_B_events :
  events (main scripted scenario_B_world duplicate_script)
  = [EvLog (MsgFound 2);
     EvSubmit 0 "x1" None; EvFailed 0 "x1"; EvProgress 1 2;
     EvSubmit 1 "x2" without_key; EvSubmit 1 "x2" without_key;
     EvProcessed 1 "x2"; EvProgress 2 2; EvLog MsgNoMatch].
Proof. vm_compute. reflexivity. Qed.

Example scenario_D_events :
  events (main (by_checksum scenario_A_table) restart_world tt)
  = [EvLog (MsgFound 1);
     EvSubmit 0 "b2" without_key; EvSubmit 0 "b2" without_key;
     EvProcessed 0 "b2"; EvProgress 1 1; EvLog MsgNoMatch].
Proof. vm_compute. reflexivity. Qed.

(** A line with a blank second field passes the test on the untrimmed
    field and adds the empty checksum. *)
Example blank_field_line : line_candidates ∅ "f1,  " = [""].
Proof. vm_compute. reflexivity. Qed.

Lemma C1_witness :
  ansFile (world (main (by_checksum scenario_A_table) scenario_A_world tt))
  = Some ("checksum: " +:+ "a2" +:+ String "010" ("key: " +:+ "K" +:+ String "010" "")).
Proof.
  apply (proj2 (C1_match_iff_agreeing_responses (by_checksum scenario_A_table)
                  scenario_A_world tt) 1 "a2" "K").
  by_evaluation.
Defined.

Lemma C2_witness :
  "b1" ∈ readExistingChecksums (processedLog restart_world)
         ∪ readExistingChecksums (failedLog restart_world)
  ∧ ∀ i r, EvSubmit i "b1" r
           ∉ events (main (by_checksum scenario_A_table) restart_world tt).
Proof.
  assert ("b1" ∈ readExistingChecksums (processedLog restart_world)
                 ∪ readExistingChecksums (failedLog restart_world)) as H.
  { by_evaluation. }
  split; [exact H|].
  exact (proj2 (C2_checkpointed_never_submitted (by_checksum scenario_A_table)
                  restart_world tt "b1" H)).
Defined.

(** The claim as stated fails when a checksum stands twice in the report:
    its first occurrence fails, its second one mismatches, and it is in
    both logs. *)
Lemma C3_counterexample :
  let run := main scripted duplicate_world duplicate_script in
  EvSubmit 0 "x1" None ∈ events run
  ∧ failedLog (world run) = Some (text_of ["x1"])
  ∧ processedLog (world run) = Some (text_of ["x1"])
  ∧ ¬ exactly_one ("x1" ∈ failed_writes (events run))
                  ("x1" ∈ processed_writes (events run))
                  (∃ k, ("x1", k) ∈ answers (events run)).
Proof.
  split; [by_evaluation|]. split; [by vm_compute|]. split; [by vm_compute|].
  assert ("x1" ∈ failed_writes (events (main scripted duplicate_world duplicate_script)))
    as Hf by by_evaluation.
  assert ("x1" ∈ processed_writes (events (main scripted duplicate_world duplicate_script)))
    as Hp by by_evaluation.
  intros [(_ & Hn & _)|[(Hn & _ & _)|(Hn & _ & _)]]; by apply Hn.
Qed.

Lemma C3_witness :
  let evs := events (main (by_checksum scenario_A_table) scenario_A_world tt) in
  exactly_one ("a2" ∈ failed_writes evs) ("a2" ∈ processed_writes evs)
              (∃ k, ("a2", k) ∈ answers evs).
Proof.
  assert (candidates_of scenario_A_world = inr ["a1"; "a2"; "a3"]) as Hc.
  { vm_compute. reflexivity. }
  destruct (C3_one_outcome_per_candidate (by_checksum scenario_A_table)
              scenario_A_world tt _ Hc) as [H _].
  destruct (H 1 "a2" (with_key "K")) as (_ & _ & H3).
  { by_evaluation. }
  apply H3. intros j Hj.
  destruct j as [|[|[|j]]]; vm_compute in Hj; first [reflexivity | discriminate].
Defined.

(** The claim as stated fails on a line with an empty label: it is read. *)
Lemma C4_counterexample :
  line_candidates ∅ ",abc" = ["abc"]
  ∧ ¬ (line_candidates ∅ ",abc" ≠ [] ↔ two_nonempty_fields ",abc").
Proof.
  split; [by vm_compute|]. intros [H _].
  destruct H as (label & field & Hsplit & Hlabel & _); [by vm_compute|].
  vm_compute in Hsplit. by simplify_eq.
Qed.

Lemma C4_witness :
  line_candidates ∅ ",abc" = ["abc"] ∧ line_candidates ∅ "a,b,c" = [].
Proof.
  split.
  - refine (eq_trans
              (proj2 (proj2 (proj2 (C4_report_line_rule ∅ "" "" [] [] ",abc")))
                 "" "abc" _ _) _).
    + reflexivity.
    + vm_compute. discriminate.
    + vm_compute. reflexivity.
  - apply (proj1 (proj2 (proj2 (C4_report_line_rule ∅ "" "" [] [] "a,b,c")))).
    left. vm_compute. lia.
Defined.

(** The claim as stated fails when the report is missing from an existing
    directory: the diagnostic is printed and the process ends with status
    0. *)
Lemma C5_counterexample :
  let run := script scripted (InDirectory missing_report_world) [] in
  report missing_report_world = None
  ∧ events run = [EvError "File not found: ./checksum_report.txt"]
  ∧ ¬ (exit_status (termination run) ≠ 0%Z).
Proof. split; [done|]. split; [by vm_compute|]. intros H. by apply H. Qed.

Lemma C5_witness :
  events (script scripted (InDirectory missing_report_world) [])
  = [EvError ("File not found: " +:+ "./checksum_report.txt")].
Proof.
  apply (proj1 (C5_missing_report_and_exit_status scripted
                  (InDirectory missing_report_world) [])).
  reflexivity.
Defined.

(** The claim as stated fails in a directory without checkpoint logs: the
    run with nothing to do leaves two empty log files behind. *)
Lemma C6_counterexample :
  let run := main scripted empty_report_world [] in
  candidates_of empty_report_world = inr []
  ∧ processedLog empty_report_world = None
  ∧ failedLog empty_report_world = None
  ∧ ¬ (processedLog (world run) = processedLog empty_report_world
       ∧ failedLog (world run) = failedLog empty_report_world).
Proof.
  split; [by vm_compute|]. split; [done|]. split; [done|].
  intros [H _]. vm_compute in H. discriminate.
Qed.

Lemma C6_witness :
  events (main scripted empty_report_world []) = [EvLog MsgNoNewChecksums].
Proof.
  apply (C6_nothing_new_appends_nothing scripted empty_report_world []).
  vm_compute. reflexivity.
Defined.

(** The claim as stated fails on a log with a blank line: the loaded set
    holds the empty string. *)
Lemma C7_counterexample :
  ¬ (∀ x, x ∈ readExistingChecksums (Some blank_line_log) → x ≠ "").
Proof.
  intros H. apply (H ""); [|done]. by_evaluation.
Qed.

Lemma C7_witness : "abc" ∈ readExistingChecksums (Some blank_line_log).
Proof.
  apply (proj1 (C7_loaded_set_is_trimmed_lines (Some blank_line_log) "abc")).
  exists blank_line_log, "abc". split; [reflexivity|]. split.
  - apply list_elem_of_In. vm_compute. left. reflexivity.
  - reflexivity.
Defined.

Lemma C8_witness :
  failedLog (world (main scripted scenario_B_world duplicate_script))
  = Some (String "x" (String "1" (String "010" ""))).
Proof.
  destruct (C8_first_failure_goes_to_failed scripted scenario_B_world duplicate_script
              [EvLog (MsgFound 2)]
              [EvFailed 0 "x1"; EvProgress 1 2;
               EvSubmit 1 "x2" without_key; EvSubmit 1 "x2" without_key;
               EvProcessed 1 "x2"; EvProgress 2 2; EvLog MsgNoMatch]
              0 "x1")
    as (post' & Hpost & _ & _ & Hlog & _).
  - vm_compute. reflexivity.
  - reflexivity.
  - rewrite Hlog. injection Hpost as <-. vm_compute. reflexivity.
Defined.

(** The claim as stated fails on the halting match: the answer is followed
    by the banner, not by a progress report. *)
Lemma C9_counterexample :
  let evs := events (main (by_checksum scenario_A_table) single_match_world tt) in
  ¬ (∀ pre e post, evs = pre ++ e :: post → is_outcome e = true →
       ∃ p t post', post = EvProgress p t :: post').
Proof.
  intros evs H.
  destruct (H [EvLog (MsgFound 1); EvSubmit 0 "a2" (with_key "K");
               EvSubmit 0 "a2" (with_key "K")]
              (EvAnswer 0 "a2" "K") [EvLog (MsgMatchFound "a2" "K")])
    as (p & t & post' & Hpost); [by vm_compute|done|done].
Qed.

Lemma C9_witness :
  ∃ post',
    [EvProgress 1 2; EvSubmit 1 "x1" without_key; EvSubmit 1 "x1" without_key;
     EvProcessed 1 "x1"; EvProgress 2 2; EvLog MsgNoMatch]
    = EvProgress (S (checkpoint_count [EvLog (MsgFound 2); EvSubmit 0 "x1" None]))
        (total_of duplicate_world) :: post'.
Proof.
  apply (proj1 (C9_progress_after_checkpoint_writes scripted duplicate_world
                  duplicate_script
                  [EvLog (MsgFound 2); EvSubmit 0 "x1" None]
                  [EvProgress 1 2; EvSubmit 1 "x1" without_key;
                   EvSubmit 1 "x1" without_key;
                   EvProcessed 1 "x1"; EvProgress 2 2; EvLog MsgNoMatch]
                  (EvFailed 0 "x1") ltac:(vm_compute; reflexivity))).
  reflexivity.
Defined.

(** The claim as stated fails when a match comes between two occurrences:
    the first occurrence is recorded, the run halts on the match, and the
    later occurrence is never submitted. *)
Lemma C10_counterexample :
  let run := main (by_checksum scenario_A_table) halted_duplicate_world tt in
  candidates_of halted_duplicate_world = inr ["x1"; "a2"; "x1"]
  ∧ ("x1" ∉ readExistingChecksums (processedLog halted_duplicate_world)
            ∪ readExistingChecksums (failedLog halted_duplicate_world))
  ∧ processedLog (world run) = Some (String "x" (String "1" (String "010" "")))
  ∧ ¬ ∃ answer, EvSubmit 2 "x1" answer ∈ events run.
Proof.
  split; [by vm_compute|]. split; [by_evaluation|]. split; [by vm_compute|].
  intros [answer He]. apply list_elem_of_In in He. vm_compute in He.
  decompose [or] He; first [discriminate | contradiction].
Qed.

Lemma C10_witness :
  let run := main scripted duplicate_world duplicate_script in
  ∃ answer, EvSubmit 1 "x1" answer ∈ events run.
Proof.
  assert ("x1" ∉ readExistingChecksums (processedLog duplicate_world)
                 ∪ readExistingChecksums (failedLog duplicate_world)) as HF.
  { by_evaluation. }
  assert (candidates_of duplicate_world = inr ["x1"; "x1"]) as Hc.
  { vm_compute. reflexivity. }
  apply (proj1 (proj2 (C10_duplicates_are_resubmitted scripted duplicate_world
                         duplicate_script "x1" (text_of ["f1,x1"; "f2,x1"])
                         ["x1"; "x1"] HF eq_refl Hc)) 0 1).
  - lia.
  - reflexivity.
  - reflexivity.
  - intros j' x k He. apply list_elem_of_In in He. vm_compute in He.
    decompose [or] He; first [discriminate | contradiction].
Defined.

(** * More about the text helpers *)

Import Chars.

Lemma trim_end_idem s : trim_end (trim_end s) = trim_end s.
Proof.
  induction s as [|c rest IH]; [done|]. simpl.
  destruct (trim_end rest) as [|d kept] eqn:Hrest.
  - destruct (is_space c) eqn:Hc; simpl; [done|]. by rewrite Hc.
  - simpl in *. by rewrite IH.
Qed.

Lemma trim_start_shape s :
  trim_start s = "" ∨ ∃ c rest, trim_start s = String c rest ∧ is_space c = false.
Proof.
  induction s as [|c rest IH]; [by left|]. simpl.
  destruct (is_space c) eqn:Hc; [done|]. right. by exists c, rest.
Qed.

Lemma trim_end_keeps_head c rest :
  is_space c = false → ∃ rest', trim_end (String c rest) = String c rest'.
Proof.
  intros Hc. simpl. destruct (trim_end rest); [|by eexists].
  rewrite Hc. by eexists.
Qed.

(** [trim] is idempotent. *)
Lemma trim_idem s : trim (trim s) = trim s.
Proof.
  unfold trim. destruct (trim_start_shape s) as [->|(c & rest & -> & Hc)]; [done|].
  destruct (trim_end_keeps_head c rest Hc) as [rest' Hr].
  rewrite Hr. simpl trim_start. rewrite Hc, <- Hr. apply trim_end_idem.
Qed.

Lemma all_chars_trim_start test s :
  all_chars test s = true → all_chars test (trim_start s) = true.
Proof.
  induction s as [|c rest IH]; [done|]. simpl.
  intros [? ?]%andb_true_iff. destruct (is_space c); [auto|].
  simpl. by apply andb_true_iff.
Qed.

Lemma all_chars_trim_end test s :
  all_chars test s = true → all_chars test (trim_end s) = true.
Proof.
  induction s as [|c rest IH]; [done|]. simpl.
  intros [Hc Hr]%andb_true_iff. specialize (IH Hr).
  destruct (trim_end rest).
  - destruct (is_space c); [done|]. simpl. by rewrite Hc.
  - simpl in *. by rewrite Hc.
Qed.

Lemma all_chars_trim test s :
  all_chars test s = true → all_chars test (trim s) = true.
Proof. intros. by apply all_chars_trim_end, all_chars_trim_start. Qed.

Lemma split_comma_nonempty s : split_comma s ≠ [].
Proof.
  destruct s as [|c rest]; [done|]. simpl.
  destruct (is_comma c); [done|]. by destruct (split_comma rest).
Qed.

(** The fields of a split hold the characters of the string, commas apart. *)
Lemma all_chars_split_comma test s field :
  all_chars test s = true → field ∈ split_comma s → all_chars test field = true.
Proof.
  revert field. induction s as [|c rest IH]; intros field.
  - intros _ ->%list_elem_of_singleton. done.
  - simpl. intros [Hc Hr]%andb_true_iff. destruct (is_comma c).
    + intros [->|?]%elem_of_cons; [done|auto].
    + destruct (split_comma rest) as [|f fs] eqn:Hs.
      * intros ->%list_elem_of_singleton. simpl. by rewrite Hc.
      * intros [->|?]%elem_of_cons.
        -- simpl. rewrite Hc. apply IH; [done|constructor].
        -- apply IH; [done|]. by constructor.
Qed.

Lemma no_comma_split_comma s field :
  field ∈ split_comma s → no_comma field = true.
Proof.
  revert field. induction s as [|c rest IH]; intros field.
  - intros ->%list_elem_of_singleton. done.
  - simpl. destruct (is_comma c) eqn:Hc.
    + intros [->|?]%elem_of_cons; [done|auto].
    + destruct (split_comma rest) as [|f fs] eqn:Hs.
      * intros ->%list_elem_of_singleton. unfold no_comma. simpl. by rewrite Hc.
      * intros [->|?]%elem_of_cons.
        -- unfold no_comma. simpl. rewrite Hc. apply IH. constructor.
        -- apply IH. by constructor.
Qed.

Lemma split_comma_no_comma s : no_comma s = true → split_comma s = [s].
Proof.
  induction s as [|c rest IH]; [done|]. unfold no_comma. simpl.
  intros [Hc Hr]%andb_true_iff. apply negb_true_iff in Hc. rewrite Hc.
  by rewrite (IH Hr).
Qed.

Lemma split_comma_app a b :
  no_comma a = true → split_comma (a +:+ "," +:+ b) = a :: split_comma b.
Proof.
  induction a as [|c rest IH]; [done|]. unfold no_comma. simpl.
  intros [Hc Hr]%andb_true_iff. apply negb_true_iff in Hc. rewrite Hc.
  by rewrite (IH Hr).
Qed.

Lemma split_comma_length s :
  List.length (split_comma s) = S (count_chars is_comma s).
Proof.
  induction s as [|c rest IH]; [done|]. simpl.
  destruct (is_comma c); simpl; [by rewrite IH|].
  destruct (split_comma rest); simpl in *; lia.
Qed.

(** Splitting and joining again gives the string back. *)
Lemma join_split_comma s : join_comma (split_comma s) = s.
Proof.
  induction s as [|c rest IH]; [done|]. simpl.
  destruct (is_comma c) eqn:Hc.
  - apply Ascii.eqb_eq in Hc as ->.
    pose proof (split_comma_nonempty rest).
    destruct (split_comma rest) as [|f fs]; [done|]. simpl in *. by rewrite IH.
  - pose proof (split_comma_nonempty rest).
    destruct (split_comma rest) as [|f [|g fs]]; [done| |]; simpl in *; by rewrite <- IH.
Qed.

(** * Lines written and lines read *)

Lemma segments_nonempty s : segments s ≠ [].
Proof.
  induction s as [|c rest IH]; [done|]. simpl.
  destruct (is_lf c); [done|]. destruct (is_cr c).
  - by destruct (starts_with_lf rest).
  - by destruct (segments rest).
Qed.

(** No line of a file holds a line terminator. *)
Lemma segments_no_eol s line : line ∈ segments s → no_eol line = true.
Proof.
  revert line. induction s as [|c rest IH]; intros line.
  - intros ->%list_elem_of_singleton. done.
  - simpl. destruct (is_lf c) eqn:Hlf.
    { intros [->|?]%elem_of_cons; [done|auto]. }
    destruct (is_cr c) eqn:Hcr.
    { destruct (starts_with_lf rest); [auto|].
      intros [->|?]%elem_of_cons; [done|auto]. }
    destruct (segments rest) as [|seg segs] eqn:Hs.
    + intros ->%list_elem_of_singleton. unfold no_eol, is_eol. simpl.
      by rewrite Hlf, Hcr.
    + intros [->|?]%elem_of_cons.
      * unfold no_eol, is_eol. simpl. rewrite Hlf, Hcr. apply IH. constructor.
      * apply IH. by constructor.
Qed.

Lemma elem_of_drop_empty_last l x : x ∈ drop_empty_last l → x ∈ l.
Proof.
  induction l as [|a l IH]; [done|]. simpl. destruct l as [|b l].
  - destruct (truthy a); [done|]. by intros ?%elem_of_nil.
  - intros [->|?]%elem_of_cons; [constructor|]. constructor. auto.
Qed.

Lemma read_lines_no_eol content line :
  line ∈ read_lines content → no_eol line = true.
Proof. intros ?%elem_of_drop_empty_last. by eapply segments_no_eol. Qed.

Lemma drop_empty_last_snoc l : drop_empty_last (l ++ [""]) = l.
Proof.
  induction l as [|a l IH]; [done|].
  change ((a :: l) ++ [""]) with (a :: (l ++ [""])).
  destruct l as [|b l]; [done|].
  change (drop_empty_last (a :: (b :: l) ++ [""]))
    with (a :: drop_empty_last ((b :: l) ++ [""])).
  by rewrite IH.
Qed.

Lemma segments_no_eol_line c : no_eol c = true → segments (c +:+ nl) = [c; ""].
Proof.
  induction c as [|a c IH]; [done|]. unfold no_eol, is_eol. simpl.
  intros [Ha Hc]%andb_true_iff. apply negb_true_iff, orb_false_iff in Ha as [-> ->].
  by rewrite (IH Hc).
Qed.

Lemma starts_with_lf_app s t u :
  starts_with_lf (s +:+ nl +:+ t) = starts_with_lf (s +:+ nl +:+ u).
Proof. by destruct s. Qed.

(** What follows a line feed is split on its own. *)
Lemma segments_after_lf s : ∃ L, L ≠ [] ∧ ∀ t, segments (s +:+ nl +:+ t) = L ++ segments t.
Proof.
  induction s as [|c rest (L & HL & IH)].
  - exists [""]. split; [done|]. done.
  - simpl. destruct (is_lf c).
    { exists ("" :: L). split; [done|]. intros t. by rewrite IH. }
    destruct (is_cr c).
    { destruct (starts_with_lf (rest +:+ nl +:+ "")) eqn:Hs.
      - exists L. split; [done|]. intros t.
        by rewrite (starts_with_lf_app rest t ""), Hs, IH.
      - exists ("" :: L). split; [done|]. intros t.
        by rewrite (starts_with_lf_app rest t ""), Hs, IH. }
    destruct L as [|seg segs]; [done|].
    exists (String c seg :: segs). split; [done|]. intros t. by rewrite IH.
Qed.

Lemma ends_with_lf_split s : ends_with_lf s = true → ∃ s0, s = s0 +:+ nl.
Proof.
  induction s as [|c rest IH]; [done|]. simpl. destruct rest as [|d rest'].
  - intros ->%Ascii.eqb_eq. by exists "".
  - intros [s0 ->]%IH. by exists (String c s0).
Qed.

Lemma ends_with_lf_app s : ends_with_lf (s +:+ nl) = true.
Proof.
  induction s as [|c rest IH]; [done|]. simpl.
  destruct (rest +:+ nl) eqn:Hr; [by destruct rest|]. done.
Qed.

(** One more line written to a closed log is one more line read from it. *)
Lemma read_lines_append content checksum :
  closed_text content = true → no_eol checksum = true →
  read_lines (content +:+ checksum +:+ nl) = read_lines content ++ [checksum]
  ∧ closed_text (content +:+ checksum +:+ nl) = true.
Proof.
  intros Hclosed Hc. split.
  - destruct content as [|a rest].
    + change (read_lines (checksum +:+ nl) = [checksum]).
      unfold read_lines. rewrite (segments_no_eol_line _ Hc).
      apply (drop_empty_last_snoc [checksum]).
    + apply ends_with_lf_split in Hclosed as [s0 ->].
      destruct (segments_after_lf s0) as (L & _ & HL).
      unfold read_lines. rewrite append_assoc, HL.
      pose proof (HL "") as Hnil.
      change (nl +:+ "") with nl in Hnil. change (segments "") with [""] in Hnil.
      rewrite Hnil, (segments_no_eol_line _ Hc), drop_empty_last_snoc.
      replace (L ++ [checksum; ""]) with ((L ++ [checksum]) ++ [""])
        by (by rewrite <- app_assoc).
      apply drop_empty_last_snoc.
  - rewrite <- append_assoc.
    pose proof (ends_with_lf_app (content +:+ checksum)) as H.
    unfold closed_text. by destruct ((content +:+ checksum) +:+ nl).
Qed.

Lemma read_lines_append_all written : ∀ content,
  closed_text content = true → Forall (λ c, no_eol c = true) written →
  read_lines (foldl (λ content checksum, content +:+ checksum +:+ nl) content written)
  = read_lines content ++ written.
Proof.
  induction written as [|c written IH]; intros content Hclosed Hall.
  - by rewrite app_nil_r.
  - apply Forall_cons in Hall as [Hc Hall]. simpl.
    destruct (read_lines_append content c Hclosed Hc) as [Hr Hcl].
    rewrite IH, Hr, <- app_assoc by done. done.
Qed.

(** * The checksum source and the checkpoint store, further *)

(** The set loaded from a text is the set of its trimmed lines. *)
Lemma load_lines_list lines : load_lines lines = list_to_set (trim <$> lines).
Proof.
  apply set_eq. intros x.
  rewrite elem_of_load_lines, elem_of_list_to_set, list_elem_of_fmap. naive_solver.
Qed.

Lemma load_after_append content written :
  closed_text content = true →
  Forall (λ c, no_eol c = true) written →
  load_lines (read_lines (foldl (λ content checksum, content +:+ checksum +:+ nl)
                                content written))
  = load_lines (read_lines content) ∪ list_to_set (trim <$> written).
Proof.
  intros Hclosed Hall. rewrite read_lines_append_all by done.
  rewrite !load_lines_list, fmap_app. apply set_eq. intros x.
  rewrite elem_of_union, !elem_of_list_to_set, elem_of_app. done.
Qed.

(** What a report line adds is a trimmed piece of the line without comma. *)
Lemma line_candidates_clean existing line c :
  c ∈ line_candidates existing line →
  trim c = c ∧ no_comma c = true ∧ (no_eol line = true → no_eol c = true).
Proof.
  rewrite line_candidates_split.
  destruct (split_comma line) as [|a [|b [|d l]]] eqn:Hs;
    try (by intros ?%elem_of_nil).
  destruct (truthy b); [|by intros ?%elem_of_nil].
  destruct (decide _); [by intros ?%elem_of_nil|].
  intros ->%list_elem_of_singleton.
  assert (b ∈ split_comma line) as Hb.
  { rewrite Hs. constructor. constructor. }
  split; [apply trim_idem|]. split.
  - apply all_chars_trim. by apply (no_comma_split_comma line).
  - intros Hline. apply all_chars_trim. by apply (all_chars_split_comma _ line).
Qed.

(** X1 — Writing and reloading a checkpoint log.  For a log that is missing,
    empty or ends with a line feed, the set loaded after the program has
    appended checksums without line terminators is the set loaded before
    together with the trimmed checksums written. *)
Theorem X1_log_round_trip (file : option string) (written : list string) :
  closed_log file = true →
  Forall (λ c, no_eol c = true) written →
  readExistingChecksums (append_lines file written)
  = readExistingChecksums file ∪ list_to_set (trim <$> written).
Proof.
  intros Hclosed Hall. unfold append_lines, readExistingChecksums at 1.
  rewrite load_after_append by done. f_equal. by destruct file.
Qed.

(** X2 — Candidates are clean tokens.  Every checksum that
    [parseChecksumFile] returns is trimmed, holds neither a comma nor a line
    terminator, and is not in the checkpoint set it was given. *)
Theorem X2_candidates_are_clean (filePath content : string) (existing : gset string)
    (checksums : list string) (c : string) :
  parseChecksumFile filePath (Some content) existing = inr checksums →
  c ∈ checksums →
  trim c = c ∧ no_comma c = true ∧ no_eol c = true ∧ c ∉ existing.
Proof.
  intros [= <-] Hc.
  assert (c ∉ existing) as Hfresh by by eapply parse_lines_fresh.
  rewrite parse_lines_flat in Hc.
  apply list_elem_of_In, in_flat_map in Hc as (line & Hline & Hc).
  apply list_elem_of_In in Hline, Hc.
  destruct (line_candidates_clean _ _ _ Hc) as (? & ? & Heol).
  repeat split; try done. apply Heol. by apply (read_lines_no_eol content).
Qed.

(** X4 — Dedup is a filter.  The checkpoint set only removes candidates:
    what [parseChecksumFile] returns is what it returns for the empty set,
    without the checkpointed checksums, in the same order and with the same
    repetitions. *)
Theorem X4_dedup_is_a_filter (existing : gset string) (lines : list string) :
  parse_lines existing lines = filter (λ c, c ∉ existing) (parse_lines ∅ lines).
Proof.
  induction lines as [|line lines IH]; [done|].
  rewrite !parse_lines_cons, filter_app, <- IH. f_equal.
  rewrite !line_candidates_split.
  destruct (split_comma line) as [|a [|b [|d l]]]; try done.
  destruct (truthy b); [|done].
  rewrite (decide_False (P := trim b ∈ (∅ : gset string))) by set_solver.
  rewrite filter_cons, filter_nil.
  destruct (decide (trim b ∈ existing)).
  - by rewrite decide_False by auto.
  - by rewrite decide_True.
Qed.

(** X5 — A blank checksum field.  A report line with one comma whose second
    field is not empty but blank passes the test made before trimming: it
    adds the empty checksum to the candidates, unless the empty string is in
    the checkpoint set. *)
Theorem X5_blank_field_gives_empty_candidate (existing : gset string)
    (label field : string) :
  no_comma label = true → no_comma field = true →
  field ≠ "" → trim field = "" →
  line_candidates existing (label +:+ "," +:+ field)
  = if decide ("" ∈ existing) then [] else [""].
Proof.
  intros Hl Hf Hne Hblank.
  rewrite line_candidates_split, split_comma_app, split_comma_no_comma by done.
  rewrite Hblank. by destruct field.
Qed.

(** X6 — Exactly one comma.  A report line adds a candidate only if it
    holds exactly one comma: it is then a label, the comma and a non-empty
    field.  In particular the line of a file whose path holds a comma is
    never read. *)
Theorem X6_one_comma_rule (existing : gset string) (line : string) :
  line_candidates existing line ≠ [] →
  count_chars is_comma line = 1
  ∧ ∃ label field, line = label +:+ "," +:+ field ∧ field ≠ ""
                   ∧ line_candidates existing line = [trim field].
Proof.
  intros Hne. pose proof (split_comma_length line) as Hlen.
  pose proof (join_split_comma line) as Hjoin.
  rewrite line_candidates_split in Hne |- *.
  destruct (split_comma line) as [|a [|b [|d l]]]; try done.
  simpl in Hlen. split; [lia|].
  exists a, b. simpl in Hjoin. split; [done|].
  destruct b; [done|]. split; [done|]. simpl in *. by destruct (decide _).
Qed.

(** * Whole runs, further *)

Lemma parse_lines_mono (ex ex' : gset string) lines x :
  ex ⊆ ex' → x ∈ parse_lines ex' lines → x ∈ parse_lines ex lines.
Proof.
  intros Hsub. rewrite !parse_lines_flat. intros Hx.
  apply list_elem_of_In, in_flat_map in Hx as (line & Hline & Hx).
  apply list_elem_of_In, in_flat_map. exists line. split; [done|].
  apply list_elem_of_In in Hx. apply list_elem_of_In.
  rewrite line_candidates_split in Hx |- *.
  destruct (split_comma line) as [|a [|b [|d l]]]; try done.
  destruct (truthy b); [|done].
  destruct (decide (trim b ∈ ex')) as [|Hn]; [by apply elem_of_nil in Hx|].
  rewrite decide_False; [done|]. intros ?. apply Hn. by apply Hsub.
Qed.

Section Resume.
Context {OState : Type}.
Variable submit : OState → string → OState * option Response.

Local Abbreviation main := (Pipeline.main submit).

(** What a run writes to the checkpoint logs are candidates. *)
Lemma written_are_candidates w o checksums c :
  candidates_of w = inr checksums →
  c ∈ failed_writes (events (main w o)) ∨ c ∈ processed_writes (events (main w o)) →
  c ∈ checksums.
Proof.
  intros Hc. rewrite elem_of_failed_writes, elem_of_processed_writes.
  intros [[j Hj]|[j Hj]];
    destruct (main_position submit _ _ _ j Hj eq_refl) as (cs & c' & Hc' & Hl & [= <-]);
    rewrite Hc in Hc'; simplify_eq; by eapply list_elem_of_lookup_2.
Qed.

(** Without a match every candidate is submitted and recorded in one of
    the two checkpoint logs. *)
Lemma no_answer_all_recorded w o checksums i c :
  candidates_of w = inr checksums →
  (∀ j x k, EvAnswer j x k ∉ events (main w o)) →
  checksums !! i = Some c →
  (∃ r, EvSubmit i c r ∈ events (main w o))
  ∧ (EvFailed i c ∈ events (main w o) ∨ EvProcessed i c ∈ events (main w o)).
Proof.
  intros Hc Hno Hi.
  destruct (main_paths submit w o) as [Hr Hm| Hc' Hm|cs evs s Hc' Hne Hit Hm].
  - unfold candidates_of, parseChecksumFile in Hc. by rewrite Hr in Hc.
  - rewrite Hc in Hc'. by simplify_eq.
  - rewrite Hc in Hc'. simplify_eq. rewrite Hm in Hno |- *. cbn [events] in *.
    assert (∀ e, e ∈ evs →
              e ∈ EvLog (MsgFound (List.length cs)) :: evs
                    ++ (if matchFound s then [] else [EvLog MsgNoMatch])) as Hin.
    { intros e ?. apply elem_of_cons. right. apply elem_of_app. by left. }
    destruct (iterations_reached _ _ _ _ _ _ _ i c Hit eq_refl) as [r Hs];
      [lia|by rewrite Nat.sub_0_r| |].
    { intros j x k Hx. exfalso. eapply Hno, Hin, Hx. }
    split; [eauto|].
    destruct (iterations_outcome _ _ _ _ _ _ _ _ _ _ Hit Hs) as (e & He & Hcase).
    assert (e ∈ evs) as Hee.
    { eapply elem_of_outcomes_at. rewrite He. constructor. }
    destruct Hcase as [->|[->|[k ->]]]; [by left; auto|by right; auto|].
    exfalso. eapply Hno, Hin, Hee.
Qed.

(** The checkpoint set that the next run loads. *)
Lemma existing_after_run w o :
  closed_log (processedLog w) = true → closed_log (failedLog w) = true →
  existing_of (world (main w o))
  = existing_of w ∪ list_to_set (processed_writes (events (main w o)))
      ∪ list_to_set (failed_writes (events (main w o))).
Proof.
  intros Hp Hf. rewrite world_is_after.
  assert (∀ c, c ∈ failed_writes (events (main w o))
               ∨ c ∈ processed_writes (events (main w o)) →
               trim c = c ∧ no_eol c = true) as Hclean.
  { intros c Hc. destruct (candidates_of w) as [err|cs] eqn:Hcs.
    - exfalso. destruct (main_paths submit w o) as [Hr Hm| Hc' Hm|cs evs s Hc' Hne Hit Hm];
        [|congruence|congruence].
      rewrite Hm in Hc. cbn in Hc. destruct Hc as [Hc|Hc]; by apply elem_of_nil in Hc.
    - pose proof (written_are_candidates w o cs c Hcs Hc) as Hin.
      unfold candidates_of, parseChecksumFile in Hcs.
      destruct (report w) as [content|]; simplify_eq.
      rewrite parse_lines_flat in Hin.
      apply list_elem_of_In, in_flat_map in Hin as (line & Hline & Hin).
      apply list_elem_of_In in Hline, Hin.
      destruct (line_candidates_clean _ _ _ Hin) as (? & ? & Heol).
      split; [done|]. apply Heol. by apply (read_lines_no_eol content). }
  assert (∀ l : list string, (∀ c, c ∈ l → trim c = c) → trim <$> l = l) as Hid.
  { induction l as [|c l IH]; intros Hl; [done|]. simpl.
    rewrite (Hl c) by constructor. f_equal. apply IH. intros ? ?. apply Hl.
    by constructor. }
  unfold existing_of, after; cbn [processedLog failedLog].
  rewrite !readExistingChecksums_open. unfold append_lines, readExistingChecksums.
  rewrite !load_after_append; try done.
  - rewrite !Hid; [|intros c ?; apply Hclean; auto..].
    assert (∀ file, load_lines (read_lines (default "" file))
                    = match file with
                      | Some content => load_lines (read_lines content)
                      | None => ∅
                      end) as Hd by (by intros []).
    rewrite !Hd. set_solver.
  - apply Forall_forall. intros c ?. apply Hclean. auto.
  - apply Forall_forall. intros c ?. apply Hclean. auto.
Qed.

End Resume.

Section NextRun.
Context {OState OState' : Type}.
Variable submit : OState → string → OState * option Response.
Variable submit' : OState' → string → OState' * option Response.

(** A checksum of the checkpoint set is never submitted. *)
Lemma existing_never_submitted (w : World) (o' : OState') c i r :
  c ∈ existing_of w → EvSubmit i c r ∉ events (Pipeline.main submit' w o').
Proof.
  intros Hc He.
  destruct (main_position submit' _ _ _ i He eq_refl) as (cs & c' & Hcs & Hl & [= <-]).
  unfold candidates_of, parseChecksumFile in Hcs.
  destruct (report w); simplify_eq.
  apply list_elem_of_lookup_2, parse_lines_fresh in Hl. done.
Qed.

(** X3 — Resuming.  Start from checkpoint logs that are missing, empty or
    end with a line feed.  After a run, whatever the service answered, the
    checkpoint set that the next run loads holds the old set and every
    checksum the run wrote to [failed.txt] or [processed.txt]; the next run
    submits none of them.  If the run found no match, the next run over the
    same report finds no new candidate at all: it prints that there is
    nothing to do and submits nothing. *)
Theorem X3_resume_after_run (w : World) (o : OState) (o' : OState') :
  closed_log (processedLog w) = true → closed_log (failedLog w) = true →
  let run := Pipeline.main submit w o in
  existing_of w ⊆ existing_of (world run)
  ∧ (∀ c, c ∈ failed_writes (events run) ∨ c ∈ processed_writes (events run) →
       c ∈ existing_of (world run)
       ∧ ∀ i r, EvSubmit i c r ∉ events (Pipeline.main submit' (world run) o'))
  ∧ ((∀ i c k, EvAnswer i c k ∉ events run) → report w ≠ None →
       candidates_of (world run) = inr []
       ∧ events (Pipeline.main submit' (world run) o') = [EvLog MsgNoNewChecksums]).
Proof.
  intros Hp Hf run.
  pose proof (existing_after_run submit w o Hp Hf) as Hex. fold run in Hex.
  assert (∀ c, c ∈ failed_writes (events run) ∨ c ∈ processed_writes (events run) →
               c ∈ existing_of (world run)) as Hin.
  { intros c Hc. rewrite Hex, !elem_of_union, !elem_of_list_to_set. tauto. }
  split; [|split].
  - rewrite Hex. set_solver.
  - intros c Hc. split; [auto|]. intros i r. apply existing_never_submitted. auto.
  - intros Hno Hrep.
    assert (candidates_of (world run) = inr []) as Hnone.
    { destruct (report w) as [content|] eqn:Hr; [|done].
      assert (report (world run) = Some content) as Hr'.
      { unfold run. by rewrite world_is_after. }
      unfold candidates_of, parseChecksumFile. rewrite Hr'. f_equal.
      destruct (parse_lines _ _) as [|x l] eqn:Hparse; [done|]. exfalso.
      assert (x ∈ parse_lines (existing_of (world run)) (read_lines content)) as Hx.
      { rewrite Hparse. constructor. }
      pose proof (parse_lines_fresh _ _ _ Hx) as Hfresh. apply Hfresh.
      apply (parse_lines_mono (existing_of w)) in Hx; [|rewrite Hex; set_solver].
      apply list_elem_of_lookup in Hx as [i Hi].
      destruct (no_answer_all_recorded submit w o
                  (parse_lines (existing_of w) (read_lines content)) i x)
        as [_ Hrec]; [|done|done|].
      { unfold candidates_of, parseChecksumFile. by rewrite Hr. }
      apply Hin. rewrite elem_of_failed_writes, elem_of_processed_writes.
      destruct Hrec; [left|right]; by exists i. }
    split; [done|].
    destruct (main_paths submit' (world run) o') as [Hr ->| Hc ->|cs evs s Hc Hne Hit ->].
    + unfold candidates_of, parseChecksumFile in Hnone. by rewrite Hr in Hnone.
    + done.
    + rewrite Hnone in Hc. by simplify_eq.
Qed.

End NextRun.

(** * The main loop, further *)

Section LoopMore.
Context {OState : Type}.
Variable submit : OState → string → OState * option Response.
Variable total : nat.

Local Abbreviation loop := (Engine.loop submit total).
Local Abbreviation iterations := (Engine.iterations submit total).

Lemma checkpoint_count_app (l1 l2 : list Event) :
  checkpoint_count (l1 ++ l2) = checkpoint_count l1 + checkpoint_count l2.
Proof. unfold checkpoint_count. by rewrite filter_app, length_app. Qed.

Lemma submit_count_app (l1 l2 : list Event) :
  submit_count (l1 ++ l2) = submit_count l1 + submit_count l2.
Proof.
  unfold submit_count. induction l1 as [|e l1 IH]; [done|].
  simpl. destruct (is_submit e); simpl; by rewrite IH.
Qed.

(** Counting through one iteration. *)
Lemma attempt_counts i c (s : State OState) evs s' :
  Engine.attempt submit total i c s evs s' → matchFound s = false →
  submit_count evs ≤ 2
  ∧ checkpoint_count evs = (if matchFound s' then 0 else 1)
  ∧ processedCount s' = processedCount s + checkpoint_count evs
  ∧ progress_reports evs
    = (λ p, (p, total)) <$> seq (S (processedCount s)) (checkpoint_count evs)
  ∧ (matchFound s' = true → ∃ e, e ∈ evs ∧ is_Some (answer_of e)).
Proof.
  intros Hat Hs.
  destruct Hat; cbn [matchFound processedCount]; rewrite ?Hs.
  all: split; [unfold submit_count; simpl; lia|].
  all: split; [reflexivity|].
  all: (change (checkpoint_count _) with 1 || change (checkpoint_count _) with 0).
  all: split; [lia|]. all: split; [reflexivity|]. all: intros ?; try done.
  exists (EvAnswer i c (key_text r1)). split; [|by eexists].
  do 2 constructor. constructor.
Qed.

(** Counting through the loop: calls, checkpoint lines, progress reports
    and [processedCount]. *)
Lemma iterations_counts i checksums (s : State OState) evs s' :
  iterations i checksums s evs s' → matchFound s = false →
  submit_count evs ≤ 2 * List.length checksums
  ∧ checkpoint_count evs ≤ List.length checksums
  ∧ processedCount s' = processedCount s + checkpoint_count evs
  ∧ progress_reports evs
    = (λ p, (p, total)) <$> seq (S (processedCount s)) (checkpoint_count evs)
  ∧ ((∀ e, e ∈ evs → answer_of e = None) →
     checkpoint_count evs = List.length checksums).
Proof.
  induction 1 as [i s|i x rest s evs1 s1 evs2 s2 Hat Hm Hit IH|i x rest s evs1 s1 Hat Hm];
    intros Hs.
  - change (checkpoint_count []) with 0. change (submit_count []) with 0.
    repeat split; simpl; lia.
  - destruct (IH Hm) as (IH1 & IH2 & IH3 & IH4 & IH5).
    destruct (attempt_counts _ _ _ _ _ Hat Hs) as (A1 & A2 & A3 & A4 & _).
    rewrite Hm in A2.
    rewrite submit_count_app, checkpoint_count_app. unfold progress_reports in *.
    rewrite omap_app, IH3, IH4, A4, A3, A2. simpl.
    repeat split; try lia.
    + by rewrite Nat.add_1_r.
    + intros Hall. rewrite IH5; [done|].
      intros e He. apply Hall, elem_of_app. by right.
  - destruct (attempt_counts _ _ _ _ _ Hat Hs) as (A1 & A2 & A3 & A4 & A5).
    rewrite Hm in A2. simpl. repeat split; try lia; try done.
    intros Hall. destruct (A5 Hm) as (e & He & [a Ha]).
    by rewrite (Hall e He) in Ha.
Qed.

(** Events come in the order of the candidates. *)
Lemma iterations_sorted i checksums (s : State OState) evs s' :
  iterations i checksums s evs s' →
  StronglySorted le (positions evs) ∧ Forall (le i) (positions evs).
Proof.
  induction 1 as [i s|i x rest s evs1 s1 evs2 s2 Hat Hm Hit [IH1 IH2]|i x rest s evs1 s1 Hat Hm].
  - split; constructor.
  - assert (Forall (eq i) (positions evs1)) as Hblock.
    { destruct Hat; repeat constructor. }
    unfold positions in *. rewrite omap_app. split.
    + apply StronglySorted_app_2; [| |done].
      * intros x1 x2 Hx1 Hx2.
        rewrite Forall_forall in Hblock, IH2.
        specialize (Hblock _ Hx1). specialize (IH2 _ Hx2). lia.
      * clear -Hblock. induction Hblock as [|y l <- ? IH]; constructor; [done|].
        eapply Forall_impl; [done|]. intros ? <-. done.
    + apply Forall_app. split.
      * eapply Forall_impl; [done|]. intros ? <-. done.
      * eapply Forall_impl; [done|]. simpl. lia.
  - assert (Forall (eq i) (positions evs1)) as Hblock.
    { destruct Hat; repeat constructor. }
    split.
    + clear -Hblock. induction Hblock as [|y l <- ? IH]; constructor; [done|].
      eapply Forall_impl; [done|]. intros ? <-. done.
    + eapply Forall_impl; [done|]. intros ? <-. done.
Qed.

(** The responses a candidate gets: none, one [null], or two of which the
    first is not [null]. *)
Lemma iterations_responses_shape i checksums (s : State OState) evs s' j :
  iterations i checksums s evs s' →
  match responses_at j evs with
  | [] | [None] | [Some _; _] => True
  | _ => False
  end.
Proof.
  induction 1 as [i s|i x rest s evs1 s1 evs2 s2 Hat Hm Hit IH|i x rest s evs1 s1 Hat Hm].
  - done.
  - rewrite responses_at_app. destruct (decide (j = i)) as [->|Hne].
    + rewrite (responses_at_elsewhere i evs2), app_nil_r.
      * destruct Hat; unfold responses_at; simpl; by rewrite !decide_True.
      * intros e j' He' Hj'.
        pose proof (iterations_position _ _ _ _ _ _ _ Hit _ _ He' Hj'). lia.
    + rewrite (responses_at_elsewhere j evs1); [done|].
      intros e j' He' Hj'.
      by destruct (attempt_events _ _ _ _ _ _ _ _ _ Hat He' Hj') as [-> _].
  - destruct (decide (j = i)) as [->|Hne].
    + destruct Hat; unfold responses_at; simpl; by rewrite !decide_True.
    + rewrite (responses_at_elsewhere j evs1); [done|].
      intros e j' He' Hj'.
      by destruct (attempt_events _ _ _ _ _ _ _ _ _ Hat He' Hj') as [-> _].
Qed.

End LoopMore.

Section EngineExtras.
Context {OState : Type}.
Variable submit : OState → string → OState * option Response.

Local Abbreviation main := (Pipeline.main submit).

(** The events of a later position are not at position [i]. *)
Lemma later_positions total i rest (next : State OState) :
  matchFound next = false →
  ∀ e j, e ∈ (loop submit total (S i) rest next).1 → position e = Some j → j ≠ i.
Proof.
  intros Hn e j He Hj.
  pose proof (loop_iterations submit total rest (S i) next Hn) as Hit.
  pose proof (iterations_position _ _ _ _ _ _ _ Hit _ _ He Hj). lia.
Qed.

(** X7 — Failure on the second submission.  When the first call for a
    candidate resolves to a body and the second one to [null], the
    candidate gets exactly these two calls, its checksum is written to
    [failed.txt] (the first answer is dropped), progress is reported and the
    loop goes on. *)
Theorem X7_second_failure_goes_to_failed (total i : nat) (checksum : string)
    (rest : list string) (s : State OState) (o1 o2 : OState) (r1 : Response) :
  matchFound s = false →
  submit (oracle s) checksum = (o1, Some r1) →
  submit o1 checksum = (o2, None) →
  let next := mkState o2 (S (processedCount s)) false in
  let evs := (loop submit total i (checksum :: rest) s).1 in
  loop submit total i (checksum :: rest) s
  = emit [EvSubmit i checksum (Some r1); EvSubmit i checksum None;
          EvFailed i checksum; EvProgress (S (processedCount s)) total]
         (loop submit total (S i) rest next)
  ∧ responses_at i evs = [Some r1; None]
  ∧ outcomes_at i evs = [EvFailed i checksum].
Proof.
  intros Hs H1 H2 next evs.
  assert (loop submit total i (checksum :: rest) s
          = emit [EvSubmit i checksum (Some r1); EvSubmit i checksum None;
                  EvFailed i checksum; EvProgress (S (processedCount s)) total]
                 (loop submit total (S i) rest next)) as Heq.
  { simpl. rewrite Hs, H1, H2. done. }
  split; [done|]. subst evs. rewrite Heq. unfold emit. cbn [fst].
  pose proof (later_positions total i rest next eq_refl) as Hpos.
  split.
  - rewrite responses_at_app, (responses_at_elsewhere i _ Hpos).
    unfold responses_at; simpl. by rewrite !decide_True.
  - rewrite outcomes_at_app, (outcomes_at_elsewhere i _ Hpos).
    unfold outcomes_at; simpl. by rewrite !decide_True.
Qed.

(** X8 — Mismatch.  When both calls resolve to a body and the two bodies do
    not carry one and the same non-empty key (a key is missing, a key is
    empty, or the keys differ), the checksum is written to [processed.txt],
    nothing is written to the result file for it, progress is reported and
    the loop goes on. *)
Theorem X8_mismatch_goes_to_processed (total i : nat) (checksum : string)
    (rest : list string) (s : State OState) (o1 o2 : OState) (r1 r2 : Response) :
  matchFound s = false →
  submit (oracle s) checksum = (o1, Some r1) →
  submit o1 checksum = (o2, Some r2) →
  ¬ (∃ k, key r1 = Some k ∧ key r2 = Some k ∧ k ≠ "") →
  let next := mkState o2 (S (processedCount s)) false in
  let evs := (loop submit total i (checksum :: rest) s).1 in
  loop submit total i (checksum :: rest) s
  = emit [EvSubmit i checksum (Some r1); EvSubmit i checksum (Some r2);
          EvProcessed i checksum; EvProgress (S (processedCount s)) total]
         (loop submit total (S i) rest next)
  ∧ outcomes_at i evs = [EvProcessed i checksum].
Proof.
  intros Hs H1 H2 Hno next evs.
  assert (is_match r1 r2 = false) as Hm.
  { destruct (is_match r1 r2) eqn:Hm; [|done]. by apply is_match_spec in Hm. }
  assert (loop submit total i (checksum :: rest) s
          = emit [EvSubmit i checksum (Some r1); EvSubmit i checksum (Some r2);
                  EvProcessed i checksum; EvProgress (S (processedCount s)) total]
                 (loop submit total (S i) rest next)) as Heq.
  { simpl. rewrite Hs, H1, H2, Hm. done. }
  split; [done|]. subst evs. rewrite Heq. unfold emit. cbn [fst].
  pose proof (later_positions total i rest next eq_refl) as Hpos.
  rewrite outcomes_at_app, (outcomes_at_elsewhere i _ Hpos).
  unfold outcomes_at; simpl. by rewrite !decide_True.
Qed.

(** The result file after a run. *)
Lemma answers_of_run (w : World) (o : OState) :
  (answers (events (main w o)) = [] ∧ ansFile (world (main w o)) = ansFile w)
  ∨ (∃ a, answers (events (main w o)) = [a]
          ∧ ansFile (world (main w o)) = Some (answer_text a)).
Proof.
  rewrite world_is_after. unfold after; cbn [ansFile].
  destruct (answers (events (main w o))) as [|a l] eqn:Ha; [by left|]. right.
  assert (a ∈ answers (events (main w o))) as Hin by (rewrite Ha; constructor).
  destruct a as [c k]. apply elem_of_answers in Hin as [i Hi].
  destruct (main_answer_last submit w o i c k Hi) as (pre & r1 & r2 & Heq & Hno).
  rewrite Heq in Ha. unfold answers in Ha.
  rewrite omap_app, (omap_none _ pre Hno) in Ha. simpl in Ha. simplify_eq.
  exists (c, k). done.
Qed.

(** X9 — One result at most.  A run writes the result file at most once.
    Without a match an existing result file is left as it is; with a match
    it is replaced by the checksum and key of the match, and the process
    ends with status 0 right after. *)
Theorem X9_at_most_one_answer (w : World) (o : OState) :
  List.length (answers (events (main w o))) ≤ 1
  ∧ (answers (events (main w o)) = [] → ansFile (world (main w o)) = ansFile w)
  ∧ (∀ a, a ∈ answers (events (main w o)) →
       ansFile (world (main w o)) = Some (answer_text a)
       ∧ termination (main w o) = ProcessExit 0).
Proof.
  destruct (answers_of_run w o) as [[Ha Hf]|(a & Ha & Hf)]; rewrite Ha.
  - split; [simpl; lia|]. split; [done|]. by intros a ?%elem_of_nil.
  - split; [simpl; lia|]. split; [done|].
    intros a' ->%list_elem_of_singleton. split; [done|].
    destruct (main_paths submit w o) as [? Hm| ? Hm|? ? ? ? ? ? Hm];
      rewrite Hm in Ha |- *; done.
Qed.

(** The trace of a run around the trace of its loop. *)
Lemma main_search_events w o :
  (∃ e, events (main w o) = [e] ∧ position e = None ∧ progress_of e = None
        ∧ is_submit e = false ∧ is_checkpoint e = false
        ∧ ∀ cs, candidates_of w = inr cs → cs = [])
  ∨ (∃ checksums evs s tail,
       candidates_of w = inr checksums
       ∧ iterations submit (List.length checksums) 0 checksums (initial o) evs s
       ∧ events (main w o) = EvLog (MsgFound (List.length checksums)) :: evs ++ tail
       ∧ (tail = [] ∨ tail = [EvLog MsgNoMatch])).
Proof.
  destruct (main_paths submit w o) as [Hr ->| Hc ->|checksums evs s Hc Hne Hit ->].
  - left. eexists. repeat split. intros cs Hcs.
    unfold candidates_of, parseChecksumFile in Hcs. by rewrite Hr in Hcs.
  - left. eexists. repeat split. intros cs Hcs. rewrite Hc in Hcs. by simplify_eq.
  - right. exists checksums, evs, s, (if matchFound s then [] else [EvLog MsgNoMatch]).
    repeat split; try done. destruct (matchFound s); auto.
Qed.

(** X10 — Call budget.  A run calls the service at most twice per candidate:
    the responses of one candidate are none (not reached), one [null], or
    two of which the first is not [null]; the number of calls of a run is at
    most twice the number of candidates. *)
Theorem X10_call_budget (w : World) (o : OState) :
  submit_count (events (main w o)) ≤ 2 * total_of w
  ∧ ∀ i, match responses_at i (events (main w o)) with
         | [] | [None] | [Some _; _] => True
         | _ => False
         end.
Proof.
  destruct (main_search_events w o)
    as [(e & -> & _ & _ & He & _)|(cs & evs & s & tail & Hc & Hit & -> & Htail)].
  - split.
    + unfold submit_count. simpl. rewrite He. simpl. lia.
    + intros i. unfold responses_at. simpl. by destruct e.
  - unfold total_of. rewrite Hc.
    destruct (iterations_counts _ _ _ _ _ _ _ Hit eq_refl) as (Hn & _).
    split.
    + change (EvLog ?m :: ?l) with ([EvLog m] ++ l).
      assert (submit_count tail = 0) as Ht by (by destruct Htail as [->| ->]).
      rewrite !submit_count_app, Ht. change (submit_count [EvLog _]) with 0. lia.
    + intros i. rewrite responses_at_cons. simpl. rewrite responses_at_app.
      pose proof (iterations_responses_shape _ _ _ _ _ _ _ i Hit) as Hshape.
      destruct Htail as [->| ->]; simpl; by rewrite app_nil_r.
Qed.

(** X11 — Source order.  Candidates are processed strictly one after the
    other in the order of the report: in the trace of a run, an event of
    the candidate at position [i] never comes after an event of a candidate
    at a later position. *)
Theorem X11_events_in_source_order (w : World) (o : OState)
    (l1 l2 l3 : list Event) (e1 e2 : Event) (i j : nat) :
  events (main w o) = l1 ++ e1 :: l2 ++ e2 :: l3 →
  position e1 = Some i → position e2 = Some j → i ≤ j.
Proof.
  intros Hev Hi Hj.
  assert (StronglySorted le (positions (events (main w o)))) as Hsorted.
  { destruct (main_search_events w o)
      as [(e & -> & He & _)|(cs & evs & s & tail & Hc & Hit & -> & Htail)].
    - unfold positions. simpl. rewrite He. constructor.
    - destruct (iterations_sorted _ _ _ _ _ _ _ Hit) as [Hs _].
      unfold positions in *. simpl. rewrite omap_app.
      destruct Htail as [->| ->]; simpl; by rewrite app_nil_r. }
  rewrite Hev in Hsorted. unfold positions in Hsorted.
  rewrite omap_app in Hsorted. apply StronglySorted_app_1_r in Hsorted.
  simpl in Hsorted. rewrite Hi, omap_app in Hsorted. simpl in Hsorted.
  rewrite Hj in Hsorted. apply StronglySorted_cons in Hsorted as [Hall _].
  rewrite Forall_forall in Hall. apply Hall.
  apply elem_of_app. right. constructor.
Qed.

(** X12 — A run without a match.  When no candidate matches, every
    candidate is submitted and its checksum is written to [failed.txt] or
    [processed.txt]: the run writes as many checkpoint lines as there are
    candidates, leaves the result file as it was, and ends with status 0. *)
Theorem X12_run_without_match (w : World) (o : OState) (checksums : list string) :
  candidates_of w = inr checksums →
  (∀ i c k, EvAnswer i c k ∉ events (main w o)) →
  (∀ i c, checksums !! i = Some c →
     (∃ r, EvSubmit i c r ∈ events (main w o))
     ∧ (EvFailed i c ∈ events (main w o) ∨ EvProcessed i c ∈ events (main w o)))
  ∧ checkpoint_count (events (main w o)) = List.length checksums
  ∧ ansFile (world (main w o)) = ansFile w
  ∧ exit_status (termination (main w o)) = 0%Z.
Proof.
  intros Hc Hno. split; [|split; [|split]].
  - intros i c Hi. by eapply no_answer_all_recorded.
  - destruct (main_search_events w o)
      as [(e & Hev & _ & _ & _ & He & Hnil)|(cs & evs & s & tail & Hc' & Hit & Hev & Htail)].
    + rewrite Hev, (Hnil _ Hc). unfold checkpoint_count.
      rewrite filter_cons, decide_False; [done|]. by rewrite He.
    + rewrite Hc in Hc'. simplify_eq. rewrite Hev in Hno |- *.
      destruct (iterations_counts _ _ _ _ _ _ _ Hit eq_refl) as (_ & _ & _ & _ & Hall).
      change (EvLog ?m :: ?l) with ([EvLog m] ++ l).
      assert (checkpoint_count tail = 0) as Ht by (by destruct Htail as [->| ->]).
      rewrite !checkpoint_count_app, Ht, Hall.
      * change (checkpoint_count [EvLog _]) with 0. lia.
      * intros e He. destruct e; try done. exfalso. eapply Hno.
        apply elem_of_cons. right. apply elem_of_app. left. exact He.
  - destruct (answers_of_run w o) as [[_ ?]|(a & Ha & _)]; [done|].
    exfalso. destruct a as [c k].
    assert ((c, k) ∈ answers (events (main w o))) as Hin by (rewrite Ha; constructor).
    apply elem_of_answers in Hin as [i Hi]. by eapply Hno.
  - by destruct (main_paths submit w o) as [? ->| ? ->|? ? ? ? ? ? ->].
Qed.

(** X14 — Progress reports.  The pairs reported to [updateProgress] in a
    run are [(1, total)], [(2, total)], ... in this order, one per
    checkpoint line written, and never go beyond [(total, total)]. *)
Theorem X14_progress_counts_up (w : World) (o : OState) :
  progress_reports (events (main w o))
  = (λ p, (p, total_of w)) <$> seq 1 (checkpoint_count (events (main w o)))
  ∧ checkpoint_count (events (main w o)) ≤ total_of w.
Proof.
  destruct (main_search_events w o)
    as [(e & -> & _ & Hp & _ & He & _)|(cs & evs & s & tail & Hc & Hit & -> & Htail)].
  - unfold progress_reports, checkpoint_count. simpl. rewrite Hp.
    rewrite filter_cons, decide_False by (by rewrite He). split; [done|]. simpl. lia.
  - unfold total_of. rewrite Hc.
    destruct (iterations_counts _ _ _ _ _ _ _ Hit eq_refl) as (_ & Hle & _ & Hrep & _).
    change (EvLog ?m :: ?l) with ([EvLog m] ++ l).
    assert (checkpoint_count tail = 0) as Ht by (by destruct Htail as [->| ->]).
    assert (omap progress_of tail = []) as Hpt by (by destruct Htail as [->| ->]).
    rewrite !checkpoint_count_app, Ht. unfold progress_reports in *.
    rewrite !omap_app, Hrep, Hpt. change (checkpoint_count [EvLog _]) with 0.
    simpl. rewrite app_nil_r, Nat.add_0_r. split; [done|lia].
Qed.

End EngineExtras.

(** * A service that answers by the checksum only *)

Section Stateless.
Variable table : string → option Response.

Lemma first_confirmed_later c0 rest n c k :
  confirmed table c0 = false →
  first_confirmed table (c0 :: rest) (S n) c k ↔ first_confirmed table rest n c k.
Proof.
  intros H0. unfold first_confirmed. simpl. split.
  - intros (? & ? & ? & Hall). repeat split; try done.
    intros n' c' ? ?. apply (Hall (S n')); [lia|done].
  - intros (? & ? & ? & Hall). repeat split; try done.
    intros [|n'] c' ? Hl; simpl in Hl; [by simplify_eq|]. apply (Hall n'); [lia|done].
Qed.

Lemma first_confirmed_here c0 rest c k :
  first_confirmed table (c0 :: rest) 0 c k
  ↔ c = c0 ∧ table c0 = Some {| key := Some k |} ∧ k ≠ "".
Proof.
  unfold first_confirmed. simpl. split.
  - intros ([= ->] & ? & ? & _). done.
  - intros (-> & ? & ?). repeat split; try done. lia.
Qed.

(** One iteration with such a service. *)
Lemma stateless_one total i c0 (s : State unit) :
  matchFound s = false →
  loop (by_checksum table) total i [c0] s
  = match table c0 with
    | None =>
        ([EvSubmit i c0 None; EvFailed i c0; EvProgress (S (processedCount s)) total],
         mkState (oracle s) (S (processedCount s)) false)
    | Some r =>
        if key_truthy r then
          ([EvSubmit i c0 (Some r); EvSubmit i c0 (Some r);
            EvAnswer i c0 (key_text r); EvLog (MsgMatchFound c0 (key_text r))],
           mkState (oracle s) (processedCount s) true)
        else
          ([EvSubmit i c0 (Some r); EvSubmit i c0 (Some r);
            EvProcessed i c0; EvProgress (S (processedCount s)) total],
           mkState (oracle s) (S (processedCount s)) false)
    end.
Proof.
  intros Hs. simpl. rewrite Hs. unfold by_checksum.
  destruct (table c0) as [r|]; [|done].
  assert (is_match r r = key_truthy r) as ->.
  { unfold is_match. rewrite bool_decide_eq_true_2 by done.
    by destruct (key_truthy r). }
  by destruct (key_truthy r).
Qed.

Lemma stateless_loop total checksums : ∀ i (s : State unit) n c k,
  matchFound s = false →
  EvAnswer (i + n) c k ∈ (loop (by_checksum table) total i checksums s).1
  ↔ first_confirmed table checksums n c k.
Proof.
  induction checksums as [|c0 rest IH]; intros i s n c k Hs.
  - simpl. split; [by intros ?%elem_of_nil|]. by intros (? & _).
  - assert (∀ next : State unit, matchFound next = false →
              EvAnswer (i + 0) c k
              ∉ (loop (by_checksum table) total (S i) rest next).1) as Hzero.
    { intros next Hn He.
      eapply (later_positions (by_checksum table) total i rest next Hn); [done| |].
      - reflexivity.
      - lia. }
    rewrite (loop_first (by_checksum table) total i c0 rest s Hs).
    rewrite (stateless_one total i c0 s Hs).
    unfold emit. cbn [fst].
    destruct (table c0) as [r|] eqn:Ht; [destruct (key_truthy r) eqn:Hk|]; cbn [fst snd].
    + (* the match *)
      rewrite loop_halted by done. cbn [fst]. rewrite app_nil_r.
      destruct n as [|n].
      * rewrite first_confirmed_here, Nat.add_0_r. split.
        -- intros He. decompose_list_elem_of; simplify_eq.
           unfold key_truthy, key_text in *.
           destruct r as [[k'|]]; simpl in *; [|done].
           split; [done|]. split; [done|]. by destruct k'.
        -- intros (-> & Hr & _). rewrite Ht in Hr. simplify_eq. simpl.
           do 2 constructor. constructor.
      * split.
        -- intros He. decompose_list_elem_of; simplify_eq; lia.
        -- intros (_ & _ & _ & Hall). exfalso.
           specialize (Hall 0 c0 ltac:(lia) eq_refl).
           unfold confirmed in Hall. by rewrite Ht, Hk in Hall.
    + (* a mismatch *)
      assert (confirmed table c0 = false) as Hc0.
      { unfold confirmed. by rewrite Ht. }
      destruct n as [|n].
      * rewrite first_confirmed_here. split.
        -- intros He. apply elem_of_app in He as [He|He].
           ++ decompose_list_elem_of; simplify_eq.
           ++ exfalso. eapply Hzero; [|exact He]. done.
        -- intros (-> & Hr & Hne). exfalso. rewrite Ht in Hr. simplify_eq.
           unfold key_truthy in Hk. simpl in Hk. by destruct k.
      * rewrite first_confirmed_later by done.
        rewrite <- (IH (S i) (mkState (oracle s) (S (processedCount s)) false))
          by done.
        replace (i + S n) with (S i + n) by lia. split.
        -- intros He. apply elem_of_app in He as [He|He]; [|done].
           decompose_list_elem_of; simplify_eq.
        -- intros He. apply elem_of_app. by right.
    + (* no answer *)
      assert (confirmed table c0 = false) as Hc0.
      { unfold confirmed. by rewrite Ht. }
      destruct n as [|n].
      * rewrite first_confirmed_here. split.
        -- intros He. apply elem_of_app in He as [He|He].
           ++ decompose_list_elem_of; simplify_eq.
           ++ exfalso. eapply Hzero; [|exact He]. done.
        -- intros (-> & Hr & Hne). congruence.
      * rewrite first_confirmed_later by done.
        rewrite <- (IH (S i) (mkState (oracle s) (S (processedCount s)) false))
          by done.
        replace (i + S n) with (S i + n) by lia. split.
        -- intros He. apply elem_of_app in He as [He|He]; [|done].
           decompose_list_elem_of; simplify_eq.
        -- intros He. apply elem_of_app. by right.
Qed.

(** X13 — First match wins, for a service that answers by the checksum
    only.  The run writes the answer [(c, k)] for the candidate at position
    [i] exactly when [c] is the first candidate of the sequence for which
    the service answers with a non-empty key, and [k] is that key. *)
Theorem X13_stateless_first_confirmed (w : World) (i : nat) (c k : string) :
  EvAnswer i c k ∈ events (Pipeline.main (by_checksum table) w tt)
  ↔ ∃ checksums, candidates_of w = inr checksums
                 ∧ first_confirmed table checksums i c k.
Proof.
  unfold Pipeline.main.
  destruct (candidates_of w) as [err|checksums] eqn:Hc.
  - cbn [events]. split.
    + intros He. decompose_list_elem_of. done.
    + by intros (? & ? & _).
  - destruct checksums as [|c0 rest].
    + change (List.length (@nil string) =? 0) with true. cbv iota. cbn [events]. split.
      * intros He. decompose_list_elem_of. done.
      * intros (cs & [= <-] & Hl & _). done.
    + change (List.length (c0 :: rest) =? 0) with false. cbv iota.
      pose proof (stateless_loop (List.length (c0 :: rest)) (c0 :: rest) 0
                    (initial tt) i c k eq_refl) as Hloop.
      destruct (loop (by_checksum table) (List.length (c0 :: rest)) 0 (c0 :: rest)
                  (initial tt)) as [evs s] eqn:Hl.
      cbn [events fst] in *. change (0 + i) with i in Hloop. split.
      * intros [?|He]%elem_of_cons; [done|]. exists (c0 :: rest). split; [done|].
        apply Hloop. apply elem_of_app in He as [?|He]; [done|].
        destruct (matchFound s); decompose_list_elem_of; done.
      * intros (cs & [= <-] & He). apply Hloop in He.
        apply elem_of_cons. right. apply elem_of_app. by left.
Qed.

End Stateless.

(** * The generator of candidate files (gen-main-1st.js) *)

Section GeneratorStrings.
Import Generator.

Lemma length_append (a b : string) :
  String.length (a +:+ b) = String.length a + String.length b.
Proof. induction a as [|c a IH]; simpl; [done|]. by rewrite IH. Qed.

Lemma starts_with_app p suf : starts_with p (p +:+ suf) = true.
Proof.
  induction p as [|c p IH]; simpl; [done|].
  by rewrite Ascii.eqb_refl, IH.
Qed.

Lemma starts_with_here p s suf : s = "" +:+ p +:+ suf → starts_with p s = true.
Proof. intros ->. exact (starts_with_app p suf). Qed.

Lemma starts_with_split p s : starts_with p s = true → ∃ suf, s = p +:+ suf.
Proof.
  revert s. induction p as [|c p IH]; intros s H; simpl in *.
  - by exists s.
  - destruct s as [|d s]; [done|].
    apply andb_prop in H as [Hc Hp]. apply Ascii.eqb_eq in Hc as ->.
    destruct (IH _ Hp) as [suf ->]. by exists suf.
Qed.

Lemma str_take_drop n s : str_take n s +:+ str_drop n s = s.
Proof.
  revert s. induction n as [|n IH]; intros [|c s]; try done.
  change (String c (str_take n s +:+ str_drop n s) = String c s).
  by rewrite IH.
Qed.

Lemma str_drop_app pre x : str_drop (String.length pre) (pre +:+ x) = x.
Proof. induction pre as [|c pre IH]; simpl; [by destruct x|done]. Qed.

Lemma str_take_app pre x : str_take (String.length pre) (pre +:+ x) = pre.
Proof.
  induction pre as [|c pre IH]; simpl; [by destruct x|]. by rewrite IH.
Qed.

Lemma str_drop_add n pre x :
  str_drop (String.length pre + n) (pre +:+ x) = str_drop n x.
Proof. induction pre as [|c pre IH]; simpl; [done|done]. Qed.

(** What [index_of_at] finds is the first occurrence. *)
Lemma index_of_at_some needle s pos n :
  index_of_at needle s pos = Some n →
  ∃ pre suf, s = pre +:+ needle +:+ suf ∧ n = pos + String.length pre ∧
    ∀ pre' suf', s = pre' +:+ needle +:+ suf' →
      String.length pre ≤ String.length pre'.
Proof.
  revert pos n. induction s as [|c s IH]; intros pos n; simpl.
  - destruct (starts_with needle "") eqn:Hp; [|done].
    intros [= <-]. apply starts_with_split in Hp as [suf Hs].
    exists "", suf. simpl. split; [done|]. split; [lia|]. intros; simpl; lia.
  - destruct (starts_with needle (String c s)) eqn:Hp.
    + intros [= <-]. apply starts_with_split in Hp as [suf Hs].
      exists "", suf. simpl. split; [done|]. split; [lia|]. intros; lia.
    + intros H. destruct (IH _ _ H) as (pre & suf & -> & -> & Hmin).
      exists (String c pre), suf. simpl. split; [done|]. split; [lia|].
      intros [|d pre'] suf' Heq.
      * rewrite (starts_with_here _ _ _ Heq) in Hp. done.
      * injection Heq as _ Heq. apply Hmin in Heq. simpl. lia.
Qed.

Lemma index_of_at_none needle s pos :
  index_of_at needle s pos = None → ∀ pre suf, s ≠ pre +:+ needle +:+ suf.
Proof.
  revert pos. induction s as [|c s IH]; intros pos; simpl.
  - destruct (starts_with needle "") eqn:Hp; [done|]. intros _ [|d pre] suf Heq.
    + rewrite (starts_with_here _ _ _ Heq) in Hp. done.
    + done.
  - destruct (starts_with needle (String c s)) eqn:Hp; [done|].
    intros H [|d pre] suf Heq.
    + rewrite (starts_with_here _ _ _ Heq) in Hp. done.
    + injection Heq as _ Heq. by eapply IH.
Qed.

(** The first occurrence is found. *)
Lemma index_of_at_first needle pre suf pos :
  (∀ pre' suf', pre +:+ needle +:+ suf = pre' +:+ needle +:+ suf' →
     String.length pre ≤ String.length pre') →
  index_of_at needle (pre +:+ needle +:+ suf) pos = Some (pos + String.length pre).
Proof.
  intros Hmin.
  destruct (index_of_at needle (pre +:+ needle +:+ suf) pos) as [n|] eqn:H.
  - destruct (index_of_at_some _ _ _ _ H) as (p & s & Heq & -> & Hp).
    f_equal. apply Hmin in Heq as Hle. specialize (Hp pre suf eq_refl). lia.
  - by eapply index_of_at_none in H.
Qed.

Lemma index_of_at_shift needle s pos n :
  index_of_at needle s pos = Some n → index_of_at needle s 0 = Some (n - pos) ∧ pos ≤ n.
Proof.
  intros H. destruct (index_of_at_some _ _ _ _ H) as (pre & suf & -> & -> & Hmin).
  rewrite index_of_at_first by done. split; [f_equal; lia|lia].
Qed.

Lemma str_drop_app_le n pre x :
  n ≤ String.length pre → str_drop n (pre +:+ x) = str_drop n pre +:+ x.
Proof.
  revert pre. induction n as [|n IH]; intros [|c pre] Hn; simpl in *; try done; try lia.
  apply IH. lia.
Qed.

Lemma take_two a b c n :
  n = String.length a + String.length b → str_take n (a +:+ b +:+ c) = a +:+ b.
Proof.
  intros ->. rewrite <- append_assoc, <- length_append. apply str_take_app.
Qed.

Lemma drop_two a b c n :
  n = String.length a + String.length b → str_drop n (a +:+ b +:+ c) = c.
Proof.
  intros ->. rewrite <- append_assoc, <- length_append. apply str_drop_app.
Qed.

Lemma index_of_at_found needle pre suf pos :
  ∃ n, index_of_at needle (pre +:+ needle +:+ suf) pos = Some n.
Proof.
  destruct (index_of_at needle (pre +:+ needle +:+ suf) pos) as [n|] eqn:H; [by exists n|].
  by eapply index_of_at_none in H.
Qed.

(** The two searches of [replaceBlanksInTemplate], when both succeed, cut the
    template at the first start marker and at the first end marker after
    it. *)
Lemma markers_found template a b :
  index_of startMarker template = Some a →
  index_of_from endMarker template (Some a) = Some b →
  ∃ pre sec suf,
    template = pre +:+ startMarker +:+ sec +:+ endMarker +:+ suf ∧
    a = String.length pre ∧
    b = String.length pre + String.length startMarker + String.length sec ∧
    (∀ pre' suf', template = pre' +:+ startMarker +:+ suf' →
       String.length pre ≤ String.length pre') ∧
    (∀ sec' suf', sec +:+ endMarker +:+ suf = sec' +:+ endMarker +:+ suf' →
       String.length sec ≤ String.length sec').
Proof.
  unfold index_of, index_of_from. intros Ha Hb.
  destruct (index_of_at_some _ _ _ _ Ha) as (pre & rest & -> & -> & Hpre).
  simpl in Hb. rewrite str_drop_app in Hb.
  change (index_of_at endMarker rest (16 + String.length pre) = Some b) in Hb.
  destruct (index_of_at_some _ _ _ _ Hb) as (sec & suf & -> & -> & Hsec).
  exists pre, sec, suf. split; [done|]. split; [done|].
  split; [simpl; lia|]. split; [done|done].
Qed.

Lemma replace_at_markers pre sec suf values :
  (∀ pre' suf', pre +:+ startMarker +:+ sec +:+ endMarker +:+ suf
                = pre' +:+ startMarker +:+ suf' →
     String.length pre ≤ String.length pre') →
  (∀ sec' suf', sec +:+ endMarker +:+ suf = sec' +:+ endMarker +:+ suf' →
     String.length sec ≤ String.length sec') →
  replaceBlanksInTemplate (pre +:+ startMarker +:+ sec +:+ endMarker +:+ suf) values
  = Some (pre +:+ startMarker +:+ fill_blanks sec values +:+ endMarker +:+ suf).
Proof.
  intros Hpre Hsec. unfold replaceBlanksInTemplate, index_of, index_of_from.
  rewrite (index_of_at_first startMarker pre (sec +:+ endMarker +:+ suf) 0 Hpre).
  simpl default. rewrite str_drop_app.
  change (index_of_at endMarker (startMarker +:+ ?r) ?n)
    with (index_of_at endMarker r (16 + n)).
  rewrite (index_of_at_first endMarker sec suf _ Hsec).
  unfold substring, substring_from.
  change (String.length startMarker) with 16.
  rewrite Nat.min_0_l, Nat.max_0_l, Nat.sub_0_r.
  rewrite Nat.min_l, Nat.max_r by lia.
  change (str_drop 0 ?s) with s.
  rewrite (take_two pre startMarker) by (simpl; lia).
  rewrite (drop_two pre startMarker) by (simpl; lia).
  replace (16 + String.length pre + String.length sec - (0 + String.length pre + 16))
    with (String.length sec) by lia.
  rewrite str_take_app.
  rewrite <- (append_assoc pre startMarker (sec +:+ _)).
  rewrite (drop_two (pre +:+ startMarker) sec)
    by (rewrite length_append; simpl; lia).
  by rewrite append_assoc.
Qed.

End GeneratorStrings.

Section GeneratorTemplate.
Import Generator.

Lemma fill_blanks_nil sec : fill_blanks sec [] = sec.
Proof.
  induction sec as [|c sec IH]; simpl; [done|].
  destruct (is_blank c); by rewrite IH.
Qed.

Lemma count_chars_app test (a b : string) :
  count_chars test (a +:+ b) = count_chars test a + count_chars test b.
Proof. induction a as [|c a IH]; simpl; [done|]. rewrite IH. lia. Qed.

(** X15 — When [replaceBlanksInTemplate] throws.  The error
    "Could not find `blanks` array in template." is thrown exactly when the
    template holds no [const blanks = [] followed, anywhere later, by [];]:
    the values play no part in it. *)
Theorem X15_blanks_error_iff (template : string) (values : list string) :
  replaceBlanksInTemplate template values = None ↔
  ¬ ∃ pre mid suf,
      template = pre +:+ startMarker +:+ mid +:+ endMarker +:+ suf.
Proof.
  unfold replaceBlanksInTemplate. split.
  - intros Hnone (pre & mid & suf & Heq).
    assert (∃ a, index_of startMarker template = Some a ∧ a ≤ String.length pre)
      as (a & Ha & Hle).
    { subst template.
      destruct (index_of_at_found startMarker pre (mid +:+ endMarker +:+ suf) 0)
        as [a Ha].
      exists a. split; [done|].
      destruct (index_of_at_some _ _ _ _ Ha) as (p0 & s0 & Heq & -> & Hmin).
      apply (Hmin pre _ eq_refl). }
    assert (∃ b, index_of_from endMarker template (Some a) = Some b) as [b Hb].
    { subst template. unfold index_of_from. simpl default.
      rewrite (str_drop_app_le _ pre) by done.
      rewrite <- (append_assoc startMarker mid), <- (append_assoc (str_drop _ pre)).
      apply index_of_at_found. }
    rewrite Ha, Hb in Hnone. done.
  - intros Hno.
    destruct (index_of startMarker template) as [a|] eqn:Ha; [|done].
    destruct (index_of_from endMarker template (Some a)) as [b|] eqn:Hb; [|done].
    destruct (markers_found _ _ _ Ha Hb) as (pre & sec & suf & Heq & _).
    destruct Hno. by exists pre, sec, suf.
Qed.

(** X16 — What [replaceBlanksInTemplate] changes.  When it returns, the
    template is cut at its first [const blanks = [] and at the first [];]
    after it; the text before the section between them, the two markers and
    everything from the end marker on are returned as they are, and only the
    section between the markers has its underscores filled. *)
Theorem X16_only_blanks_section_changes (template : string) (values : list string)
    (out : string) :
  replaceBlanksInTemplate template values = Some out →
  ∃ pre sec suf,
    template = pre +:+ startMarker +:+ sec +:+ endMarker +:+ suf ∧
    out = pre +:+ startMarker +:+ fill_blanks sec values +:+ endMarker +:+ suf ∧
    (∀ pre' suf', template = pre' +:+ startMarker +:+ suf' →
       String.length pre ≤ String.length pre') ∧
    (∀ sec' suf', sec +:+ endMarker +:+ suf = sec' +:+ endMarker +:+ suf' →
       String.length sec ≤ String.length sec').
Proof.
  intros Hout.
  destruct (index_of startMarker template) as [a|] eqn:Ha;
    [|by unfold replaceBlanksInTemplate in Hout; rewrite Ha in Hout].
  destruct (index_of_from endMarker template (Some a)) as [b|] eqn:Hb;
    [|by unfold replaceBlanksInTemplate in Hout; rewrite Ha, Hb in Hout].
  destruct (markers_found _ _ _ Ha Hb)
    as (pre & sec & suf & Heq & _ & _ & Hpre & Hsec).
  exists pre, sec, suf. split; [done|]. split; [|done].
  subst template. rewrite replace_at_markers in Hout by done.
  by injection Hout as <-.
Qed.

(** X17 — Blanks and values are paired in order.  With values that hold no
    underscore themselves, filling leaves as many underscores as there were
    blanks beyond the number of values: none when there are enough values. *)
Theorem X17_blanks_left_over (section : string) (values : list string) :
  (∀ v, v ∈ values → count_chars is_blank v = 0) →
  count_chars is_blank (fill_blanks section values)
  = count_chars is_blank section - List.length values.
Proof.
  revert values. induction section as [|c sec IH]; intros values Hv; simpl; [done|].
  destruct (is_blank c) eqn:Hc.
  - destruct values as [|v later].
    + simpl. rewrite Hc, fill_blanks_nil. simpl. lia.
    + rewrite count_chars_app, IH by (intros; apply Hv; by right).
      rewrite (Hv v) by left. simpl. lia.
  - simpl. rewrite Hc. by rewrite IH.
Qed.

(** X18 — Spare values are ignored.  Values beyond the number of blanks of
    the section are never used; with no value at all the section is
    returned as it is. *)
Theorem X18_spare_values_ignored (section : string) (values spare : list string) :
  count_chars is_blank section ≤ List.length values →
  fill_blanks section (values ++ spare) = fill_blanks section values
  ∧ fill_blanks section [] = section.
Proof.
  intros Hn. split; [|apply fill_blanks_nil].
  revert values Hn. induction section as [|c sec IH]; intros values Hn; simpl; [done|].
  simpl in Hn. destruct (is_blank c) eqn:Hc.
  - destruct values as [|v later]; simpl in *; [lia|].
    rewrite IH by lia. done.
  - rewrite IH by (simpl in Hn; lia). done.
Qed.

End GeneratorTemplate.

Section GeneratorLines.
Import Generator.

Lemma trim_end_empty s : trim_end s = "" → all_chars is_space s = true.
Proof.
  induction s as [|c s IH]; simpl; [done|].
  destruct (trim_end s) eqn:He; [|done].
  destruct (is_space c); [|done]. intros _. by apply IH.
Qed.

Lemma trim_start_spaces s :
  all_chars is_space (trim_start s) = true → all_chars is_space s = true.
Proof.
  induction s as [|c s IH]; simpl; [done|].
  destruct (is_space c) eqn:Hc; [done|]. simpl. by rewrite Hc.
Qed.

Lemma trim_empty s : trim s = "" → all_chars is_space s = true.
Proof. intros H. by apply trim_start_spaces, trim_end_empty. Qed.

Lemma space_not_comma c : is_space c = true → is_comma c = false.
Proof. destruct c as [[] [] [] [] [] [] [] []]; by vm_compute. Qed.

Lemma spaces_no_comma s : all_chars is_space s = true → no_comma s = true.
Proof.
  unfold no_comma. induction s as [|c s IH]; simpl; [done|].
  intros [Hc Hs]%andb_prop. by rewrite (space_not_comma _ Hc), IH.
Qed.

(** [processLine] does nothing with a line that is blank as a whole. *)
Lemma processLine_blank line i t :
  String.length (trim line) = 0 → processLine line i t = LineSkipped.
Proof.
  intros Hlen. assert (trim line = "") as Ht by (by destruct (trim line)).
  unfold processLine.
  rewrite (split_comma_no_comma line) by by apply spaces_no_comma, trim_empty.
  simpl. by rewrite Ht.
Qed.

Lemma processLine_number line i t k c :
  processLine line i t = LineWritten k c → k = i + 1.
Proof.
  unfold processLine.
  repeat match goal with
         | |- context [if ?b then _ else _] => destruct b
         | |- context [match ?x with Some _ => _ | None => _ end] => destruct x
         end; congruence.
Qed.

(** X19 — The values built from a row.  For a row of fifteen fields the
    array given to the template holds 76 entries: entry [i] is field
    [i / 5] (each field five times in a row), except that entries 11, 26,
    41, 56 and 71 are 2 and the entry added at 75 is [Math.abs]. *)
Theorem X19_values_layout (parts : list string) :
  List.length parts = 15 →
  List.length (blank_values parts) = 76 ∧
  ∀ i, i < 76 →
    blank_values parts !! i
    = Some (if existsb (Nat.eqb i) [11; 26; 41; 56; 71] then "2"
            else if i =? 75 then "Math.abs"
            else nth (i / 5) parts "").
Proof.
  intros Hlen.
  do 15 (destruct parts as [|? parts]; [done|]).
  destruct parts; [|done].
  split; [reflexivity|]. intros i Hi.
  do 76 (destruct i as [|i]; [reflexivity|]). lia.
Qed.

(** X20 — The loop over the rows.  Every line of the CSV file, blank or
    not, takes one index: the outcome for the line at position [i] is that
    of [processLine] with index [i], and the test [trimmed.length > 0] made
    by [main] before the call changes nothing, a blank line being skipped
    by [processLine] as well. *)
Theorem X20_rows_keep_their_index (lines : list string) (first : nat)
    (template : string) (i : nat) (line : string) :
  lines !! i = Some line →
  process_lines lines first template !! i
  = Some (processLine line (first + i) template).
Proof.
  revert first i. induction lines as [|l lines IH]; intros first [|i] Hl;
    simpl in *; try done.
  - injection Hl as ->. rewrite Nat.add_0_r. f_equal.
    destruct (0 <? String.length (trim line)) eqn:Hb; [done|].
    symmetry. apply processLine_blank. apply Nat.ltb_ge in Hb. lia.
  - rewrite (IH (S first) i Hl). do 2 f_equal. lia.
Qed.

(** X21 — No file is written twice.  The numbers of the files written in
    one run strictly increase, and each is the one-based position of a line
    of the CSV file. *)
Theorem X21_file_numbers_increase (lines : list string) (first : nat)
    (template : string) :
  StronglySorted lt (written_numbers (process_lines lines first template)) ∧
  ∀ k, k ∈ written_numbers (process_lines lines first template) →
    first < k ≤ first + List.length lines.
Proof.
  revert first. induction lines as [|l lines IH]; intros first.
  { split; [constructor|]. by intros k ?%elem_of_nil. }
  destruct (IH (S first)) as [Hs Hk].
  assert (∀ o, (o = LineSkipped ∨ (∃ e, o = LineFailed e)
                ∨ ∃ c, o = LineWritten (first + 1) c) →
     StronglySorted lt (written_numbers (o :: process_lines lines (S first) template)) ∧
     ∀ k, k ∈ written_numbers (o :: process_lines lines (S first) template) →
       first < k ≤ first + S (List.length lines)) as Hcase.
  { intros o [-> | [[e ->] | [c ->]]]; unfold written_numbers; simpl.
    - split; [done|]. intros k Hin. apply Hk in Hin. lia.
    - split; [done|]. intros k Hin. apply Hk in Hin. lia.
    - split.
      + constructor; [done|]. apply Forall_forall. intros k Hin.
        apply Hk in Hin. lia.
      + intros k [-> | Hin]%elem_of_cons; [lia|]. apply Hk in Hin. lia. }
  simpl. apply Hcase.
  destruct (0 <? String.length (trim l)); [|by left].
  destruct (processLine l first template) as [|e|k c] eqn:Hp.
  - by left.
  - right; left. by exists e.
  - right; right. exists c. by rewrite (processLine_number _ _ _ _ _ Hp).
Qed.

(** X22 — Rows skipped without a message.  [processLine] returns without
    an error and without a file exactly when the first field of the line is
    blank: the number of fields is not looked at for such a line. *)
Theorem X22_skipped_iff_first_field_blank (line : string) (lineIndex : nat)
    (template : string) :
  processLine line lineIndex template = LineSkipped ↔
  trim (hd "" (split_comma line)) = "".
Proof.
  unfold processLine.
  destruct (split_comma line) as [|f fs] eqn:Hs; [by apply split_comma_nonempty in Hs|].
  simpl. destruct (trim f) eqn:Hf; simpl; [done|].
  split; [|done].
  repeat match goal with
         | |- context [if ?b then _ else _] => destruct b
         | |- context [match ?x with Some _ => _ | None => _ end] => destruct x
         end; done.
Qed.

End GeneratorLines.

Section GeneratorArgs.
Import Generator.

Lemma split_on_sep c a b :
  includes c a = false → split_on c (a +:+ String c b) = a :: split_on c b.
Proof.
  induction a as [|d a IH]; simpl.
  - intros _. by rewrite Ascii.eqb_refl.
  - intros [Hd Ha]%orb_false_elim.
    change (String d a +:+ String c b) with (String d (a +:+ String c b)).
    simpl. by rewrite Hd, (IH Ha).
Qed.

Lemma split_on_none c a : includes c a = false → split_on c a = [a].
Proof.
  induction a as [|d a IH]; simpl; [done|].
  intros [Hd Ha]%orb_false_elim. by rewrite Hd, (IH Ha).
Qed.

Lemma split_on_hd c a : ∃ rest, split_on c a = hd "" (split_on c a) :: rest.
Proof.
  destruct a as [|d a]; simpl; [by exists []|].
  destruct (Ascii.eqb d c); [by eexists|].
  destruct (split_on c a); by eexists.
Qed.

Lemma includes_app c a b : includes c (a +:+ b) = includes c a || includes c b.
Proof.
  induction a as [|d a IH]; simpl; [done|]. by rewrite IH, orb_assoc.
Qed.

Lemma option_arg_step key value rest args :
  includes "=" key = false →
  parse_from (option_arg key value :: rest) args
  = parse_from rest
      (set_arg key (ArgText (hd "" (split_on "=" value))) args).
Proof.
  intros Hk. unfold option_arg.
  change (parse_from ((dashes +:+ key +:+ "=" +:+ value) :: rest) args)
    with (if includes "=" (key +:+ "=" +:+ value) then
            let parts := split_on "=" (dashes +:+ key +:+ "=" +:+ value) in
            parse_from rest
              (set_arg (strip_dashes (nth 0 parts ""))
                 (ArgText (nth 1 parts "")) args)
          else match rest with
               | [] => set_arg (strip_dashes (dashes +:+ key +:+ "=" +:+ value))
                         ArgTrue args
               | val :: rest' =>
                   parse_from rest'
                     (set_arg (strip_dashes (dashes +:+ key +:+ "=" +:+ value))
                        (ArgText val) args)
               end).
  rewrite includes_app. simpl (includes "=" ("=" +:+ value)).
  rewrite orb_true_r. cbv zeta.
  rewrite <- (append_assoc dashes key).
  change ("=" +:+ value) with (String "=" value).
  rewrite split_on_sep by (rewrite includes_app, Hk; done).
  destruct (split_on "=" value); reflexivity.
Qed.

Lemma flag_step key rest args :
  includes "=" key = false →
  parse_from ((dashes +:+ key) :: rest) args
  = match rest with
    | [] => set_arg key ArgTrue args
    | val :: rest' => parse_from rest' (set_arg key (ArgText val) args)
    end.
Proof.
  intros Hk.
  change (parse_from ((dashes +:+ key) :: rest) args)
    with (if includes "=" key then
            let parts := split_on "=" (dashes +:+ key) in
            parse_from rest
              (set_arg (strip_dashes (nth 0 parts ""))
                 (ArgText (nth 1 parts "")) args)
          else match rest with
               | [] => set_arg key ArgTrue args
               | val :: rest' => parse_from rest' (set_arg key (ArgText val) args)
               end).
  by rewrite Hk.
Qed.

Lemma foldl_is_foldr {A B} (f : B → A → B) (l : list A) : ∀ b,
  foldl f b l = foldr (λ a b, f b a) b (reverse l).
Proof.
  induction l as [|a l IH]; intros b; simpl; [done|].
  by rewrite reverse_cons, foldr_app, IH.
Qed.

(** X23 — Options written as [--key=value].  For keys and values without
    an equals sign (and no key [__proto__]), [parseArgs] returns the map
    from each key to its value, the last occurrence of a key winning. *)
Theorem X23_options_round_trip (node script : string) (options : list (string * string)) :
  (∀ k v, (k, v) ∈ options →
     includes "=" k = false ∧ includes "=" v = false ∧ k ≠ "__proto__") →
  parseArgs (node :: script :: ((λ kv, option_arg kv.1 kv.2) <$> options))
  = list_to_map (reverse ((λ kv, (kv.1, ArgText kv.2)) <$> options)).
Proof.
  intros Hok. unfold parseArgs. simpl drop.
  assert (∀ args, parse_from ((λ kv, option_arg kv.1 kv.2) <$> options) args
          = foldl (λ m kv, <[kv.1 := ArgText kv.2]> m) args options) as ->.
  { induction options as [|[k v] options IH]; intros args; [done|].
    destruct (Hok k v) as (Hk & Hv & Hp); [left|].
    rewrite fmap_cons. cbv beta. cbn [fst snd foldl].
    rewrite option_arg_step by done. rewrite (split_on_none _ _ Hv). simpl hd.
    unfold set_arg. rewrite decide_False by done.
    apply IH. intros k' v' Hin. apply Hok. by right. }
  rewrite foldl_is_foldr, <- fmap_reverse.
  generalize (reverse options). intros l.
  induction l as [|[k v] l IH]; simpl; [done|]. by rewrite IH.
Qed.

(** X24 — An option without a value.  An option written without an equals
    sign takes the next argument as its value whatever that is, also when
    it is itself an option, which is then not set; it is [true] only as the
    last argument. *)
Theorem X24_flag_takes_next_argument (node script key next : string) :
  includes "=" key = false → key ≠ "__proto__" →
  parseArgs [node; script; dashes +:+ key; next] = {[key := ArgText next]}
  ∧ parseArgs [node; script; dashes +:+ key] = {[key := ArgTrue]}.
Proof.
  intros Hk Hp. unfold parseArgs. simpl drop.
  rewrite !flag_step by done. cbn [parse_from]. unfold set_arg.
  rewrite !decide_False by done. by rewrite !insert_empty.
Qed.

(** X25 — A second equals sign.  Of an option written [--key=a=b] only the
    text up to the second equals sign is kept as the value. *)
Theorem X25_value_cut_at_equals (node script key value more : string) :
  includes "=" key = false → includes "=" value = false → key ≠ "__proto__" →
  parseArgs [node; script; option_arg key (value +:+ "=" +:+ more)]
  = {[key := ArgText value]}.
Proof.
  intros Hk Hv Hp. unfold parseArgs. simpl drop.
  rewrite option_arg_step by done.
  change ("=" +:+ more) with (String "=" more).
  rewrite (split_on_sep _ _ _ Hv). cbn [parse_from hd]. unfold set_arg.
  rewrite decide_False by done. by rewrite insert_empty.
Qed.

Lemma parse_from_keys n : ∀ argv args k v,
  List.length argv ≤ n →
  parse_from argv args !! k = Some v →
  args !! k = Some v ∨
  ∃ arg, arg ∈ argv ∧ starts_with dashes arg = true ∧
         k = strip_dashes (hd "" (split_on "=" arg)).
Proof.
  induction n as [|n IH]; intros argv args k v Hn Hpar.
  { destruct argv; [by left|simpl in Hn; lia]. }
  destruct argv as [|arg rest]; [by left|]. simpl in Hn. cbn [parse_from] in Hpar.
  assert (∀ key val, set_arg key val args !! k = Some v →
                     args !! k = Some v ∨ k = key) as Hset.
  { intros key val. unfold set_arg. destruct (decide (key = "__proto__")); [by left|].
    destruct (decide (key = k)) as [->|Hne]; [by right|].
    rewrite lookup_insert_ne by done. by left. }
  destruct (starts_with dashes arg) eqn:Hd; cbn [negb] in Hpar.
  - destruct (includes "=" arg) eqn:Hi.
    + apply IH in Hpar; [|lia].
      destruct Hpar as [Hpar | (a & Ha & Hda & Hka)].
      * apply Hset in Hpar as [Hpar | ->]; [by left|]. right.
        exists arg. split; [left|]. split; [done|].
        by destruct (split_on "=" arg).
      * right. exists a. split; [by right|done].
    + destruct rest as [|val rest'].
      * apply Hset in Hpar as [Hpar | ->]; [by left|]. right.
        exists arg. split; [left|]. split; [done|].
        by rewrite (split_on_none _ _ Hi).
      * apply IH in Hpar; [|simpl in Hn; lia].
        destruct Hpar as [Hpar | (a & Ha & Hda & Hka)].
        -- apply Hset in Hpar as [Hpar | ->]; [by left|]. right.
           exists arg. split; [left|]. split; [done|].
           by rewrite (split_on_none _ _ Hi).
        -- right. exists a. split; [by do 2 right|done].
  - apply IH in Hpar; [|lia].
    destruct Hpar as [Hpar | (a & Ha & Hda & Hka)]; [by left|].
    right. exists a. split; [by right|done].
Qed.

(** X26 — Where keys come from.  Every key of the object returned by
    [parseArgs] is the text, without its leading dashes, that an argument
    after the first two has before its first equals sign, and that argument
    starts with two dashes: the interpreter and script paths and arguments
    without dashes set nothing, so without such an argument the object is
    empty. *)
Theorem X26_keys_come_from_options (argv : list string) (k : string) (v : ArgValue) :
  parseArgs argv !! k = Some v →
  ∃ arg, arg ∈ drop 2 argv ∧ starts_with dashes arg = true ∧
         k = strip_dashes (hd "" (split_on "=" arg)).
Proof.
  intros H. apply (parse_from_keys (List.length (drop 2 argv))) in H; [|lia].
  destruct H as [H|H]; [|done]. by rewrite lookup_empty in H.
Qed.

End GeneratorArgs.

(** * The writer of the report (generate-checksum-2nd.js) *)

Lemma all_chars_app test (a b : string) :
  all_chars test (a +:+ b) = all_chars test a && all_chars test b.
Proof.
  induction a as [|c a IH]; simpl; [done|]. by rewrite IH, andb_assoc.
Qed.

Section HasherFacts.
Import Hasher.

Variable sha256_hex : string → string.
Variable join : string → string → string.

Local Abbreviation main := (Hasher.main sha256_hex join).
Local Abbreviation filesToProcess := (Hasher.filesToProcess join).
Local Abbreviation write_checksum := (Hasher.write_checksum sha256_hex).
Local Abbreviation digests := (Hasher.digests sha256_hex).
Local Abbreviation report_lines := (Hasher.report_lines sha256_hex).

Lemma written_as_lines files : ∀ written,
  foldl write_checksum written files
  = foldl (λ content line, content +:+ line +:+ nl) written (report_lines files).
Proof.
  induction files as [|[p [c|]] files IH]; intros written; [done| |].
  - cbn [foldl]. unfold Hasher.write_checksum at 2. cbn [snd fst calculateChecksum fmap option_fmap option_map].
    unfold Hasher.report_lines. cbn [omap list_omap snd fst].
    fold (Hasher.report_lines sha256_hex files).
    destruct (truthy (sha256_hex c)); [|apply IH].
    cbn [foldl]. rewrite IH. f_equal.
    by rewrite !append_assoc.
  - cbn [foldl]. apply IH.
Qed.

Lemma files_of_entries folderPath entries file :
  file ∈ filesToProcess folderPath entries →
  ∃ name content, (name, RegularFile content) ∈ entries ∧
    file = (join folderPath name, content).
Proof.
  unfold Hasher.filesToProcess. rewrite list_elem_of_omap.
  intros ([name e] & Hin & Hf). simpl in Hf.
  destruct e as [| |content]; try done. injection Hf as <-.
  by exists name, content.
Qed.

(** X27 — The report is what the search reads.  When the digests are
    non-empty words without comma, white space at the ends or a line
    terminator, as hexadecimal digests are, and no path of a file holds a
    comma or a line terminator, the report written for a folder is read
    back by [parseChecksumFile], with no checkpoint yet, as the digests of
    the readable regular files in the order of [readdir], repetitions
    included. *)
Theorem X27_report_feeds_the_search (folderPath : string)
    (entries : list (string * Entry)) (report : string) :
  (∀ content, truthy (sha256_hex content) = true ∧
              trim (sha256_hex content) = sha256_hex content ∧
              no_comma (sha256_hex content) = true ∧
              no_eol (sha256_hex content) = true) →
  (∀ name content, (name, RegularFile content) ∈ entries →
     no_comma (join folderPath name) = true ∧
     no_eol (join folderPath name) = true) →
  main folderPath (Directory entries) = Some report →
  parseChecksumFile outputFile (Some report) ∅ = inr (digests entries).
Proof.
  intros Hd Hp Hmain. simpl in Hmain.
  destruct (List.length (filesToProcess folderPath entries) =? 0); [done|].
  injection Hmain as <-. unfold parseChecksumFile. f_equal.
  rewrite written_as_lines.
  assert (Forall (λ line, no_eol line = true)
            (report_lines (filesToProcess folderPath entries))) as Hlines.
  { apply Forall_forall. intros line. unfold Hasher.report_lines.
    rewrite list_elem_of_omap. intros ([p [c|]] & Hin & Hl); simpl in Hl; [|done].
    destruct (Hd c) as (Ht & _ & _ & He). rewrite Ht in Hl. injection Hl as <-.
    apply files_of_entries in Hin as (name & content & Hin & [= -> <-]).
    destruct (Hp _ _ Hin) as [_ Hpe].
    unfold no_eol in *. rewrite !all_chars_app, Hpe, He. done. }
  rewrite (read_lines_append_all _ "" eq_refl Hlines).
  change (read_lines "") with (@nil string). rewrite app_nil_l.
  clear Hlines. unfold Hasher.digests, Hasher.filesToProcess, Hasher.report_lines.
  induction entries as [|[name e] entries IH]; [done|].
  assert (∀ name content, (name, RegularFile content) ∈ entries →
            no_comma (join folderPath name) = true ∧
            no_eol (join folderPath name) = true) as Hp'.
  { intros n c Hin. apply (Hp n c). by right. }
  specialize (IH Hp').
  destruct e as [| |[c|]]; cbn [omap list_omap fst snd]; try apply IH.
  destruct (Hd c) as (Ht & Htrim & Hc & He). rewrite Ht.
  rewrite parse_lines_cons, IH. f_equal.
  destruct (Hp name (Some c)) as [Hpc _]; [left|].
  rewrite line_candidates_split, (split_comma_app _ _ Hpc),
    (split_comma_no_comma _ Hc), Ht, Htrim.
  by rewrite decide_False by set_solver.
Qed.

(** X28 — When the report is replaced.  [checksum_report.txt] is left as it
    was exactly when the path is no directory or none of its entries is a
    regular file; otherwise it is replaced, and it is replaced by an empty
    file when none of the regular files can be read. *)
Theorem X28_report_kept_or_replaced (folderPath : string) (folder : Folder) :
  (main folderPath folder = None ↔
   ∀ entries name content,
     folder = Directory entries → (name, RegularFile content) ∉ entries)
  ∧ (∀ entries,
       folder = Directory entries →
       (∃ name, (name, RegularFile None) ∈ entries) →
       (∀ name content, (name, RegularFile content) ∈ entries → content = None) →
       main folderPath folder = Some "").
Proof.
  split.
  - destruct folder as [| |entries]; simpl; [done|done|].
    destruct (filesToProcess folderPath entries) as [|f files] eqn:Hf; simpl.
    + split; [|done]. intros _ ? name content [= <-] Hin.
      assert ((join folderPath name, content) ∈ filesToProcess folderPath entries) as H.
      { unfold Hasher.filesToProcess. apply list_elem_of_omap.
        by exists (name, RegularFile content). }
      rewrite Hf in H. by apply elem_of_nil in H.
    + split; [done|]. intros Hno.
      assert (f ∈ filesToProcess folderPath entries) as H by (rewrite Hf; left).
      apply files_of_entries in H as (name & content & Hin & _).
      by destruct (Hno entries name content eq_refl).
  - intros entries -> [name Hin] Hall. simpl.
    assert ((join folderPath name, None) ∈ filesToProcess folderPath entries) as H.
    { unfold Hasher.filesToProcess. apply list_elem_of_omap.
      by exists (name, RegularFile None). }
    destruct (filesToProcess folderPath entries) as [|f files] eqn:Hf;
      [by apply elem_of_nil in H|].
    simpl Nat.eqb. cbv iota. f_equal. rewrite <- Hf.
    assert (∀ file, file ∈ filesToProcess folderPath entries → file.2 = None) as Hnone.
    { intros file (n & c & Hi & ->)%files_of_entries. simpl. by eapply Hall. }
    clear Hf H. revert Hnone. generalize (filesToProcess folderPath entries).
    intros l Hnone. induction l as [|[p c] l IH]; [done|].
    cbn [foldl]. unfold Hasher.write_checksum at 2.
    rewrite (Hnone (p, c)) by left. simpl. apply IH.
    intros file Hfile. apply Hnone. by right.
Qed.

End HasherFacts.


(** * The further properties on concrete inputs *)

Ltac no_such_event He :=
  apply list_elem_of_In in He; vm_compute in He;
  decompose [or] He; first [discriminate | contradiction].

Lemma X1_witness :
  "x2" ∈ readExistingChecksums (append_lines (Some (text_of ["b1"])) ["x1"; "x2"]).
Proof.
  rewrite (X1_log_round_trip (Some (text_of ["b1"])) ["x1"; "x2"]).
  - by_evaluation.
  - reflexivity.
  - repeat constructor.
Defined.

Lemma X2_witness :
  trim "aa" = "aa" ∧ no_comma "aa" = true ∧ no_eol "aa" = true
  ∧ "aa" ∉ (∅ : gset string).
Proof.
  apply (X2_candidates_are_clean "report" (text_of ["f1, aa "]) ∅ ["aa"] "aa").
  - vm_compute. reflexivity.
  - constructor.
Defined.

Lemma X3_witness :
  events (main (by_checksum scenario_A_table)
            (world (main scripted scenario_B_world duplicate_script)) tt)
  = [EvLog MsgNoNewChecksums].
Proof.
  apply (X3_resume_after_run scripted (by_checksum scenario_A_table)
           scenario_B_world duplicate_script tt eq_refl eq_refl).
  - intros i c k He. no_such_event He.
  - discriminate.
Defined.

Lemma X5_witness : line_candidates ∅ ("f1" +:+ "," +:+ "  ") = [""].
Proof.
  refine (eq_trans
            (X5_blank_field_gives_empty_candidate ∅ "f1" "  " eq_refl eq_refl _ eq_refl)
            _).
  - discriminate.
  - vm_compute. reflexivity.
Defined.

Lemma X6_witness : count_chars is_comma "f1,aa" = 1.
Proof.
  apply (X6_one_comma_rule ∅ "f1,aa"). vm_compute. discriminate.
Defined.

Lemma X7_witness :
  responses_at 0
    (loop scripted 2 0 ["x1"; "x2"] (mkState [without_key; None; None] 0 false)).1
  = [without_key; None].
Proof.
  apply (X7_second_failure_goes_to_failed scripted 2 0 "x1" ["x2"]
           (mkState [without_key; None; None] 0 false) [None; None] [None]
           {| key := None |}).
  - reflexivity.
  - reflexivity.
  - reflexivity.
Defined.

Lemma X8_witness :
  outcomes_at 0
    (loop scripted 2 0 ["x1"; "x2"]
       (mkState [without_key; with_key "K"; None] 0 false)).1
  = [EvProcessed 0 "x1"].
Proof.
  apply (X8_mismatch_goes_to_processed scripted 2 0 "x1" ["x2"]
           (mkState [without_key; with_key "K"; None] 0 false)
           [with_key "K"; None] [None] {| key := None |} {| key := Some "K" |}).
  - reflexivity.
  - reflexivity.
  - reflexivity.
  - intros (k & Hk & _). discriminate Hk.
Defined.

Lemma X11_witness : 0 ≤ 1.
Proof.
  apply (X11_events_in_source_order scripted scenario_B_world duplicate_script
           [EvLog (MsgFound 2)]
           [EvFailed 0 "x1"; EvProgress 1 2]
           [EvSubmit 1 "x2" without_key; EvProcessed 1 "x2"; EvProgress 2 2;
            EvLog MsgNoMatch]
           (EvSubmit 0 "x1" None) (EvSubmit 1 "x2" without_key)).
  - vm_compute. reflexivity.
  - reflexivity.
  - reflexivity.
Defined.

Lemma X12_witness :
  checkpoint_count (events (main scripted scenario_B_world duplicate_script)) = 2.
Proof.
  apply (X12_run_without_match scripted scenario_B_world duplicate_script ["x1"; "x2"]).
  - vm_compute. reflexivity.
  - intros i c k He. no_such_event He.
Defined.

(** * The generator and the report writer on concrete inputs *)

Lemma X16_witness :
  ∃ pre sec suf,
    "let a; const blanks = [_, _]; run();"
    = pre +:+ Generator.startMarker +:+ sec +:+ Generator.endMarker +:+ suf
    ∧ "let a; const blanks = [1, 2]; run();"
      = pre +:+ Generator.startMarker +:+ Generator.fill_blanks sec ["1"; "2"]
        +:+ Generator.endMarker +:+ suf.
Proof.
  destruct (X16_only_blanks_section_changes
              "let a; const blanks = [_, _]; run();" ["1"; "2"]
              "let a; const blanks = [1, 2]; run();")
    as (pre & sec & suf & Ht & Hout & _).
  - vm_compute. reflexivity.
  - by exists pre, sec, suf.
Defined.

Lemma X17_witness :
  count_chars Generator.is_blank (Generator.fill_blanks "_, _, _" ["1"; "2"])
  = count_chars Generator.is_blank "_, _, _" - List.length ["1"; "2"].
Proof.
  apply (X17_blanks_left_over "_, _, _" ["1"; "2"]).
  intros v Hv. apply list_elem_of_In in Hv. vm_compute in Hv.
  decompose [or] Hv; subst; first [reflexivity | contradiction].
Defined.

Lemma X18_witness :
  Generator.fill_blanks "_, _" (["1"; "2"] ++ ["3"]) = Generator.fill_blanks "_, _" ["1"; "2"]
  ∧ Generator.fill_blanks "_, _" [] = "_, _".
Proof.
  apply (X18_spare_values_ignored "_, _" ["1"; "2"] ["3"]). vm_compute. lia.
Defined.

Lemma X19_witness :
  Generator.blank_values
    ["a"; "b"; "c"; "d"; "e"; "f"; "g"; "h"; "i"; "j"; "k"; "l"; "m"; "n"; "o"] !! 11
  = Some "2".
Proof.
  apply (X19_values_layout
           ["a"; "b"; "c"; "d"; "e"; "f"; "g"; "h"; "i"; "j"; "k"; "l"; "m"; "n"; "o"]).
  - reflexivity.
  - lia.
Defined.

Lemma X20_witness :
  Generator.process_lines ["1,2"; "   "; "3,4"] 0 "const blanks = [_];" !! 2
  = Some (Generator.processLine "3,4" (0 + 2) "const blanks = [_];").
Proof.
  apply (X20_rows_keep_their_index ["1,2"; "   "; "3,4"] 0 "const blanks = [_];" 2 "3,4").
  reflexivity.
Defined.

Lemma X23_witness :
  Generator.parseArgs
    ("node" :: "gen-main.js"
       :: ((λ kv : string * string, Generator.option_arg kv.1 kv.2)
             <$> [("input", "a.csv"); ("out", "gen"); ("input", "b.csv")]))
  = list_to_map
      (reverse ((λ kv : string * string, (kv.1, Generator.ArgText kv.2))
                  <$> [("input", "a.csv"); ("out", "gen"); ("input", "b.csv")])).
Proof.
  apply (X23_options_round_trip "node" "gen-main.js"
           [("input", "a.csv"); ("out", "gen"); ("input", "b.csv")]).
  intros k v Hin. apply list_elem_of_In in Hin. vm_compute in Hin.
  decompose [or] Hin; try contradiction;
    match goal with H : (_, _) = (_, _) |- _ => injection H as <- <- end;
    (split; [reflexivity|split; [reflexivity|discriminate]]).
Defined.

Lemma X24_witness :
  Generator.parseArgs ["node"; "gen-main.js"; Generator.dashes +:+ "input"; "--out=gen"]
  = {[ "input" := Generator.ArgText "--out=gen" ]}
  ∧ Generator.parseArgs ["node"; "gen-main.js"; Generator.dashes +:+ "input"]
    = {[ "input" := Generator.ArgTrue ]}.
Proof.
  apply (X24_flag_takes_next_argument "node" "gen-main.js" "input" "--out=gen").
  - reflexivity.
  - discriminate.
Defined.

Lemma X25_witness :
  Generator.parseArgs
    ["node"; "gen-main.js"; Generator.option_arg "input" ("a" +:+ "=" +:+ "b.csv")]
  = {[ "input" := Generator.ArgText "a" ]}.
Proof.
  apply (X25_value_cut_at_equals "node" "gen-main.js" "input" "a" "b.csv").
  - reflexivity.
  - reflexivity.
  - discriminate.
Defined.

Lemma X26_witness :
  ∃ arg, arg ∈ drop 2 ["node"; "gen-main.js"; "rows.csv"; "--out=gen"]
    ∧ Generator.starts_with Generator.dashes arg = true
    ∧ "out" = Generator.strip_dashes (hd "" (Generator.split_on "=" arg)).
Proof.
  apply (X26_keys_come_from_options
           ["node"; "gen-main.js"; "rows.csv"; "--out=gen"] "out"
           (Generator.ArgText "gen")).
  vm_compute. reflexivity.
Defined.

Lemma X27_witness :
  parseChecksumFile Hasher.outputFile (Some ("gen/a.js,ab12" +:+ nl +:+ "gen/b.js,ab12" +:+ nl)) ∅
  = inr (Hasher.digests (λ _, "ab12")
           [("a.js", Hasher.RegularFile (Some "x")); ("sub", Hasher.NotAFile);
            ("b.js", Hasher.RegularFile (Some "y")); ("c.js", Hasher.RegularFile None)]).
Proof.
  apply (X27_report_feeds_the_search (λ _, "ab12") (λ d n, d +:+ "/" +:+ n) "gen"
           [("a.js", Hasher.RegularFile (Some "x")); ("sub", Hasher.NotAFile);
            ("b.js", Hasher.RegularFile (Some "y")); ("c.js", Hasher.RegularFile None)]).
  - intros content. vm_compute. auto.
  - intros name content Hin. apply list_elem_of_In in Hin. vm_compute in Hin.
    decompose [or] Hin; try contradiction; try discriminate;
      match goal with H : (_, _) = (_, _) |- _ => injection H as <- <- end;
      (split; reflexivity).
  - reflexivity.
Defined.
